(** * Sharp and Sharp A/C infra-red protocols (ir_Sharp.cpp)

    A shallow embedding of the encode, send and decode routines of the
    Sharp remote-control protocol and of the [IRSharpAc] state class, with
    the properties the specification states about them.

    C integers are modelled as [Z] with the wrap-around of their width
    written out ([u8], [u16], [u32], [u64]); the state array of the A/C
    class and the capture buffer are lists of [Z] indexed with stdpp's
    lookup and insert. *)

From Stdlib Require Import ZArith List Bool Lia.
From stdpp Require Import base list.
From Equations Require Import Equations.
Import ListNotations.
Local Open Scope Z_scope.

(** ** Machine integers *)

Definition wrap (w x : Z) : Z := x mod 2 ^ w.
Definition u8 : Z -> Z := wrap 8.
Definition u16 : Z -> Z := wrap 16.
Definition u32 : Z -> Z := wrap 32.
Definition u64 : Z -> Z := wrap 64.

(** ** The parts of the library that ir_Sharp.cpp builds on *)

(** The result of [matchData] (IRrecv.h). *)
Record match_result_t := MatchResult {
  mr_success : bool;
  mr_data : Z;
  mr_used : Z
}.

(** The timing-match layer of IRrecv: its constants and classifiers are
    declared outside ir_Sharp.cpp and are taken as parameters.  The
    signatures follow the calls made by ir_Sharp.cpp: [matchMark measured
    desired tolerance], [matchSpace measured desired], [match_ measured
    desired], [matchAtLeast measured desired], and [matchData buf nbits
    onemark onespace zeromark zerospace tolerance excess MSBfirst], where
    [buf] is the capture buffer from the pointed entry on. *)
Class IRrecvLayer := {
  kRawTick : Z;
  kStartOffset : Z;
  kHeader : Z;
  kFooter : Z;
  kTolerance : Z;
  kMarkExcess : Z;
  match_ : Z -> Z -> bool;
  matchMark : Z -> Z -> Z -> bool;
  matchSpace : Z -> Z -> bool;
  matchAtLeast : Z -> Z -> bool;
  matchData : list Z -> Z -> Z -> Z -> Z -> Z -> Z -> Z -> bool -> match_result_t
}.

(** The constants of ir_Sharp.h used by the A/C class and by the A/C
    decoder; the header is not part of the sources, so they are parameters.
    Byte positions are indices into the state array. *)
Class SharpAcHeader := {
  kSharpAcHdrMark : Z;
  kSharpAcHdrSpace : Z;
  kSharpAcBitMark : Z;
  kSharpAcZeroSpace : Z;
  kSharpAcOneSpace : Z;
  kSharpAcGap : Z;
  kSharpAcBits : Z;
  kSharpAcAuto : Z;
  kSharpAcDry : Z;
  kSharpAcCool : Z;
  kSharpAcHeat : Z;
  kSharpAcMinTemp : Z;
  kSharpAcMaxTemp : Z;
  kSharpAcFanAuto : Z;
  kSharpAcFanMin : Z;
  kSharpAcFanMed : Z;
  kSharpAcFanHigh : Z;
  kSharpAcFanMax : Z;
  kSharpAcByteTemp : nat;
  kSharpAcMaskTemp : Z;
  kSharpAcBytePower : nat;
  kSharpAcBitPower : Z;
  kSharpAcByteMode : nat;
  kSharpAcMaskMode : Z;
  kSharpAcByteFan : nat;
  kSharpAcMaskFan : Z;
  kSharpAcByteManual : nat;
  kSharpAcBitFanManual : Z;
  kSharpAcBitTempManual : Z
}.

(** Modelled from the spec: the widths of the Sharp frame are declared in a
    header that is not part of the sources; the spec gives 15 bits, made of
    a 5-bit address, an 8-bit command, an expansion bit and a check bit. *)
Definition kSharpBits : Z := 15.

(** Modelled from the spec: the address field of the frame has 5 bits
    (the declaration is not part of the sources). *)
Definition kSharpAddressBits : Z := 5.

(** Modelled from the spec: the command field of the frame has 8 bits
    (the declaration is not part of the sources). *)
Definition kSharpCommandBits : Z := 8.

(** Modelled from the spec: the length of the A/C state array is declared
    in ir_Sharp.h, which is not part of the sources; the spec fixes it at
    13 bytes, the size of the reset array of [stateReset]. *)
Definition kSharpAcStateLength : Z := 13.

(** Modelled from the spec: [reverseBits] (IRutils) is not part of the
    sources; the spec asks for the bit-reversal of a value within its
    width.  The low [nbits] bits are reversed one at a time and the bits
    above them stay where they are. *)
Fixpoint reverseBits_loop (n : nat) (input output : Z) : Z * Z :=
  match n with
  | O => (input, output)
  | S n' =>
      let output := u64 (Z.shiftl output 1) in
      let output := Z.lor output (Z.land input 1) in
      reverseBits_loop n' (Z.shiftr input 1) output
  end.

(** Modelled from the spec: [reverseBits input nbits] (IRutils, not part of
    the sources) reverses the low [nbits] bits of [input]; a width of at
    most one bit changes nothing and the width is capped at 64. *)
Definition reverseBits (input nbits : Z) : Z :=
  if nbits <=? 1 then input
  else
    let nbits := Z.min nbits 64 in
    let '(input, output) := reverseBits_loop (Z.to_nat nbits) input 0 in
    Z.lor (u64 (Z.shiftl input nbits)) output.

(** Modelled from the spec: [xorBytes] (IRutils) is not part of the
    sources; the spec calls it the xor-reduction of the first [length]
    bytes of the array. *)
Fixpoint xorBytes_loop (n : nat) (i : nat) (start : list Z) (checksum : Z) : Z :=
  match n with
  | O => checksum
  | S n' => xorBytes_loop n' (S i) start (u8 (Z.lxor checksum (start !!! i)))
  end.

(** Modelled from the spec: [xorBytes start length] (IRutils, not part of
    the sources) is the xor of the first [length] bytes, from 0. *)
Definition xorBytes (start : list Z) (len : Z) : Z :=
  xorBytes_loop (Z.to_nat len) 0 start 0.

(** The arguments of one call of [sendGeneric] (IRsend), in the order of
    the call made by [sendSharpRaw]. *)
Record GenericCall := {
  headermark : Z;
  headerspace : Z;
  onemark : Z;
  onespace : Z;
  zeromark : Z;
  zerospace : Z;
  footermark : Z;
  gap : Z;
  gdata : Z;
  gnbits : Z;
  frequency : Z;
  MSBfirst : bool;
  grepeat : Z;
  dutycycle : Z
}.

(** Modelled from the spec: [sendData] and [sendGeneric] (IRsend) are not
    part of the sources.  Following the spec, the transmit routine
    synthesizes a pulse train: an optional header mark and space (left out
    when zero), then for each bit, most significant first, a mark followed
    by the one or zero space, then the footer mark and the gap.  The train
    is the list of pulse durations in microseconds.  Only the
    most-significant-bit-first order, the one [sendSharpRaw] asks for, is
    modelled; no other order is sent by the code under study. *)
Fixpoint sendData (onemark onespace zeromark zerospace data : Z) (nbits : nat)
  : list Z :=
  match nbits with
  | O => []
  | S n =>
      (if Z.testbit data (Z.of_nat n) then [onemark; onespace]
       else [zeromark; zerospace])
        ++ sendData onemark onespace zeromark zerospace data n
  end.

(** Modelled from the spec: one transmission of [sendGeneric] (IRsend, not
    part of the sources): header when not zero, bits, footer mark when not
    zero, gap. *)
Definition sendGeneric_once (c : GenericCall) : list Z :=
  (if headermark c =? 0 then [] else [headermark c])
    ++ (if headerspace c =? 0 then [] else [headerspace c])
    ++ sendData (onemark c) (onespace c) (zeromark c) (zerospace c) (gdata c)
         (Z.to_nat (gnbits c))
    ++ (if footermark c =? 0 then [] else [footermark c])
    ++ [gap c].

(** Modelled from the spec: [sendGeneric] (IRsend, not part of the
    sources) transmits the message once and then [repeat] more times. *)
Definition sendGeneric (c : GenericCall) : list Z :=
  concat (replicate (S (Z.to_nat (grepeat c))) (sendGeneric_once c)).

(** ** Constants of ir_Sharp.cpp *)

Definition kSharpTick : Z := 26.
Definition kSharpBitMarkTicks : Z := 10.
Definition kSharpBitMark : Z := u16 (kSharpBitMarkTicks * kSharpTick).
Definition kSharpOneSpaceTicks : Z := 70.
Definition kSharpOneSpace : Z := u16 (kSharpOneSpaceTicks * kSharpTick).
Definition kSharpZeroSpaceTicks : Z := 30.
Definition kSharpZeroSpace : Z := u16 (kSharpZeroSpaceTicks * kSharpTick).
Definition kSharpGapTicks : Z := 1677.
Definition kSharpGap : Z := u16 (kSharpGapTicks * kSharpTick).
Definition kSharpToggleMask : Z :=
  u64 (Z.shiftl 1 (kSharpBits - kSharpAddressBits)) - 1.
Definition kSharpAddressMask : Z := u64 (Z.shiftl 1 kSharpAddressBits) - 1.
Definition kSharpCommandMask : Z := u64 (Z.shiftl 1 kSharpCommandBits) - 1.

(** ** Sending *)

(** The call of [sendGeneric] made by [sendSharpRaw] for one half-frame. *)
Definition sharp_call (data nbits : Z) : GenericCall :=
  {| headermark := 0; headerspace := 0;
     onemark := kSharpBitMark; onespace := kSharpOneSpace;
     zeromark := kSharpBitMark; zerospace := kSharpZeroSpace;
     footermark := kSharpBitMark; gap := kSharpGap;
     gdata := data; gnbits := nbits; frequency := 38; MSBfirst := true;
     grepeat := 0; dutycycle := 33 |}.

(** One turn of the inner loop of [sendSharpRaw]: a call of [sendGeneric]
    is logged and the data is inverted. *)
Definition sendSharpRaw_inner (nbits : Z) (st : list GenericCall * Z)
  : list GenericCall * Z :=
  let '(log, data) := st in
  (log ++ [sharp_call data nbits], u64 (Z.lxor data kSharpToggleMask)).

(** The outer loop [for (uint16_t i = 0; i <= repeat; i++)].  The counter
    is a 16-bit integer and wraps; the loop is run on fuel and [None] means
    the fuel ran out before the loop ended.  The inner loop runs for
    [n = 0] and [n = 1]. *)
Fixpoint sendSharpRaw_loop (fuel : nat) (i repeat nbits : Z)
  (st : list GenericCall * Z) : option (list GenericCall * Z) :=
  match fuel with
  | O => None
  | S fuel' =>
      if i <=? repeat then
        let st := sendSharpRaw_inner nbits (sendSharpRaw_inner nbits st) in
        sendSharpRaw_loop fuel' (u16 (i + 1)) repeat nbits st
      else Some st
  end.

(** [sendSharpRaw fuel data nbits repeat] gives the calls of [sendGeneric]
    made, in order, and the value of the local [data] at the end. *)
Definition sendSharpRaw (fuel : nat) (data nbits repeat : Z)
  : option (list GenericCall * Z) :=
  sendSharpRaw_loop fuel 0 repeat nbits ([], data).

(** The pulse train of a log of [sendGeneric] calls. *)
Definition transmit (log : list GenericCall) : list Z :=
  concat (map sendGeneric log).

Definition encodeSharp (address command expansion check : Z) (MSBfirst : bool) : Z :=
  let address := u16 (Z.land address (Z.shiftl 1 kSharpAddressBits - 1)) in
  let command := u16 (Z.land command (Z.shiftl 1 kSharpCommandBits - 1)) in
  let expansion := u16 (Z.land expansion 1) in
  let check := u16 (Z.land check 1) in
  let address :=
    if negb MSBfirst then u16 (reverseBits address kSharpAddressBits) else address in
  let command :=
    if negb MSBfirst then u16 (reverseBits command kSharpCommandBits) else command in
  u32 (Z.lor (Z.lor (Z.lor (Z.shiftl address (kSharpCommandBits + 2))
                           (Z.shiftl command 2))
                    (Z.shiftl expansion 1))
             check).

Definition sendSharp (fuel : nat) (address command nbits repeat : Z)
  : option (list GenericCall * Z) :=
  sendSharpRaw fuel (encodeSharp address command 1 0 true) nbits repeat.

(** Modelled from the spec: the overload of [sendGeneric] that takes a byte
    array (IRsend) is not part of the sources.  Following the spec, it
    sends a header-framed byte-serial signal: the header mark and space,
    then for each byte its eight bits, each a mark followed by the one or
    zero space, then the footer mark and the gap.  The bits of a byte go
    out in the order the caller asks for. *)
Definition sendByte (onemark onespace zeromark zerospace : Z) (MSBfirst : bool) (b : Z)
  : list Z :=
  flat_map (fun i : nat =>
              let bit := if MSBfirst then (7 - Z.of_nat i) else Z.of_nat i in
              if Z.testbit b bit then [onemark; onespace] else [zeromark; zerospace])
    (seq 0 8).

(** Modelled from the spec: the byte-array overload of [sendGeneric]
    (IRsend, not part of the sources): header, the bytes, footer mark and
    gap, once and then [repeat] more times. *)
Definition sendGeneric_bytes (headermark headerspace onemark onespace zeromark zerospace
  footermark gap : Z) (data : list Z) (nbytes : Z) (MSBfirst : bool) (repeat : Z)
  : list Z :=
  concat (replicate (S (Z.to_nat repeat))
            ([headermark; headerspace]
               ++ flat_map (sendByte onemark onespace zeromark zerospace MSBfirst)
                    (take (Z.to_nat nbytes) data)
               ++ [footermark; gap])).

Definition sendSharpAc {H : SharpAcHeader} (data : list Z) (nbytes repeat : Z)
  : list Z :=
  if nbytes <? kSharpAcStateLength then []
  else
    sendGeneric_bytes kSharpAcHdrMark kSharpAcHdrSpace
      kSharpAcBitMark kSharpAcOneSpace kSharpAcBitMark kSharpAcZeroSpace
      kSharpAcBitMark kSharpAcGap data nbytes false repeat.

(** ** Decoding *)

Inductive decode_type_t := UNKNOWN | SHARP | SHARP_AC.

(** The fields of [decode_results] that the decoders read and write.  In
    the library [state] shares its storage with [value], [address] and
    [command]; that overlay is not represented, the four are kept as
    separate fields.  So the record tells nothing of [state] after a
    store to [value], [address] or [command], and nothing of these three
    after a store to [state]: the stated properties speak of [state] only
    after [decodeSharpAc], which stores bytes of [state] and none of the
    three, and of the three only after [decodeSharp], which stores them
    and no byte of [state]. *)
Record decode_results := {
  decode_type : decode_type_t;
  value : Z;
  address : Z;
  command : Z;
  state : list Z;
  bits : Z;
  rawbuf : list Z;
  rawlen : Z
}.

(** [results->rawbuf[offset]]; an entry outside the buffer reads as 0. *)
Definition rawbuf_at (results : decode_results) (offset : Z) : Z :=
  rawbuf results !!! Z.to_nat offset.

Section Decode.
Context {L : IRrecvLayer}.

(** Whether the library is built with UNIT_TEST defined. *)
Variable UNIT_TEST : bool.

(** The data loop of [decodeSharp]: [n] bits are read from [offset] on
    and shifted into [data]; [None] stands for [return false]. *)
Fixpoint decodeSharp_data (results : decode_results) (tick : Z) (n : nat)
  (offset data : Z) : option (Z * Z) :=
  match n with
  | O => Some (offset, data)
  | S n' =>
      if negb (matchMark (rawbuf_at results offset)
                 (u32 (kSharpBitMarkTicks * tick)) 35)
      then None
      else
        let offset := u16 (offset + 1) in
        if matchSpace (rawbuf_at results offset) (u32 (kSharpOneSpaceTicks * tick))
        then decodeSharp_data results tick n' (u16 (offset + 1))
               (Z.lor (u64 (Z.shiftl data 1)) 1)
        else if matchSpace (rawbuf_at results offset)
                  (u32 (kSharpZeroSpaceTicks * tick))
        then decodeSharp_data results tick n' (u16 (offset + 1))
               (u64 (Z.shiftl data 1))
        else None
  end.

(** The footer check that follows each data loop; it gives the offset
    after the footer mark. *)
Definition decodeSharp_footer (results : decode_results) (tick offset : Z)
  : option Z :=
  if negb (match_ (rawbuf_at results offset) (u32 (kSharpBitMarkTicks * tick)))
  then None
  else
    let offset := u16 (offset + 1) in
    if (offset <? rawlen results)
       && negb (matchAtLeast (rawbuf_at results offset)
                  (u32 (kSharpGapTicks * tick)))
    then None
    else Some offset.

(** The second copy of the data, read only in a UNIT_TEST build: the
    gap, the data loop and the footer, then the comparison with the
    first copy. *)
Definition decodeSharp_second (results : decode_results) (tick nbits offset data : Z)
  : option Z :=
  if negb (matchSpace (rawbuf_at results offset) (u32 (kSharpGapTicks * tick)))
  then None
  else
    match decodeSharp_data results tick (Z.to_nat nbits) (u16 (offset + 1)) 0 with
    | None => None
    | Some (offset, second_data) =>
        match decodeSharp_footer results tick offset with
        | None => None
        | Some _ =>
            if negb (data =? Z.lxor second_data kSharpToggleMask) then None
            else Some second_data
        end
    end.

(** Everything [decodeSharp] does before it writes to [results]: [None]
    stands for [return false], [Some data] for reaching the success
    part. *)
Definition decodeSharp_match (results : decode_results) (nbits : Z)
  (strict expansion : bool) : option Z :=
  if rawlen results <? 2 * nbits + kFooter - 1 then None
  else if strict && negb (nbits =? kSharpBits) then None
  else if strict && UNIT_TEST && (rawlen results <? 2 * (2 * nbits + kFooter))
  then None
  else
    let offset := kStartOffset in
    if negb (matchMark (rawbuf_at results offset) kSharpBitMark 35) then None
    else
      let tick := u32 (rawbuf_at results offset * kRawTick / kSharpBitMarkTicks) in
      match decodeSharp_data results tick (Z.to_nat nbits) offset 0 with
      | None => None
      | Some (offset, data) =>
          match decodeSharp_footer results tick offset with
          | None => None
          | Some offset =>
              if strict then
                if negb (Z.shiftr (Z.land data 2) 1 =? Z.b2z expansion) then None
                else if negb (Z.land data 1 =? 0) then None
                else if UNIT_TEST then
                  match decodeSharp_second results tick nbits offset data with
                  | None => None
                  | Some _ => Some data
                  end
                else Some data
              else Some data
          end
      end.

(** [decodeSharp results nbits strict expansion] gives the returned
    boolean and [results] after the call.  The [state] field of a success
    is the field of the record, carried along: in the library the stores
    to [value], [address] and [command] overwrite the first bytes of
    [state], which the record does not show. *)
Definition decodeSharp (results : decode_results) (nbits : Z)
  (strict expansion : bool) : bool * decode_results :=
  match decodeSharp_match results nbits strict expansion with
  | None => (false, results)
  | Some data =>
      (true,
       {| decode_type := SHARP;
          bits := nbits;
          value := data;
          address := u32 (Z.land (reverseBits data nbits) kSharpAddressMask);
          command :=
            u32 (reverseBits (Z.land (Z.shiftr data 2) kSharpCommandMask)
                   kSharpCommandBits);
          state := state results;
          rawbuf := rawbuf results;
          rawlen := rawlen results |})
  end.
End Decode.

(** ** The A/C state class [IRSharpAc] *)

(** The object is its [remote] array; every method takes the array and
    gives the array after the call.  [byte_set], [byte_or] and [byte_and]
    are the assignments [remote[i] = v], [remote[i] |= v] and
    [remote[i] &= v] to a [uint8_t] cell.  A list shorter than the index
    is left as it is. *)
Definition byte_set (i : nat) (v : Z) (remote : list Z) : list Z :=
  <[i := u8 v]> remote.
Definition byte_or (i : nat) (v : Z) (remote : list Z) : list Z :=
  <[i := u8 (Z.lor (remote !!! i) v)]> remote.
Definition byte_and (i : nat) (v : Z) (remote : list Z) : list Z :=
  <[i := u8 (Z.land (remote !!! i) v)]> remote.

Definition calcChecksum (state : list Z) (len : Z) : Z :=
  let xorsum := xorBytes state (u16 (len - 1)) in
  let xorsum := u8 (Z.lxor xorsum (Z.land (state !!! Z.to_nat (len - 1)) 0xF)) in
  let xorsum := u8 (Z.lxor xorsum (Z.shiftr xorsum 4)) in
  u8 (Z.land xorsum 0xF).

Definition validChecksum (state : list Z) (len : Z) : bool :=
  Z.shiftr (state !!! Z.to_nat (len - 1)) 4 =? calcChecksum state len.

Definition checksum (remote : list Z) : list Z :=
  let last := Z.to_nat (kSharpAcStateLength - 1) in
  let remote := byte_and last 0x0F remote in
  byte_or last (Z.shiftl (calcChecksum remote kSharpAcStateLength) 4) remote.

Definition reset : list Z :=
  [0xAA; 0x5A; 0xCF; 0x10; 0x00; 0x01; 0x00; 0x00; 0x08; 0x80; 0x00; 0xE0; 0x01].

Fixpoint stateReset_loop (n : nat) (i : Z) (remote : list Z) : list Z :=
  match n with
  | O => remote
  | S n' =>
      if i <? kSharpAcStateLength
      then stateReset_loop n' (u8 (i + 1))
             (byte_set (Z.to_nat i) (reset !!! Z.to_nat i) remote)
      else remote
  end.

Definition stateReset (remote : list Z) : list Z :=
  stateReset_loop (Z.to_nat kSharpAcStateLength) 0 remote.

(** [getRaw] returns the array itself, after the checksum has been
    stored. *)
Definition getRaw (remote : list Z) : list Z := checksum remote.

(** The loop of [setRaw], with the list of the indices of [remote] it has
    written, in order.  The loop ends after at most [kSharpAcStateLength]
    turns, which is the bound of the recursion. *)
Fixpoint setRaw_loop (n : nat) (i : Z) (new_code : list Z) (len : Z)
  (st : list Z * list Z) : list Z * list Z :=
  match n with
  | O => st
  | S n' =>
      if (i <? len) && (i <? kSharpAcStateLength)
      then setRaw_loop n' (u8 (i + 1)) new_code len
             (byte_set (Z.to_nat i) (new_code !!! Z.to_nat i) (fst st),
              snd st ++ [i])
      else st
  end.

Definition setRaw_trace (new_code : list Z) (len : Z) (remote : list Z)
  : list Z * list Z :=
  setRaw_loop (Z.to_nat kSharpAcStateLength) 0 new_code len (remote, []).

Definition setRaw (new_code : list Z) (len : Z) (remote : list Z) : list Z :=
  fst (setRaw_trace new_code len remote).

(** A value together with the equation that says what it is, so that the
    default case of a [switch] knows which cases were not taken. *)
Definition inspect {A : Type} (a : A) : {b : A | a = b} := exist _ a eq_refl.

Inductive mode_label := CaseAuto | CaseDry | CaseCoolHeat | CaseModeDefault.
Inductive fan_label := CaseFanAuto | CaseFanSpeed | CaseFanDefault.

Section IRSharpAc.
Context {H : SharpAcHeader}.

Definition on (remote : list Z) : list Z :=
  byte_or kSharpAcBytePower kSharpAcBitPower remote.

Definition off (remote : list Z) : list Z :=
  byte_and kSharpAcBytePower (Z.lnot kSharpAcBitPower) remote.

Definition setPower (on_ : bool) (remote : list Z) : list Z :=
  if on_ then on remote else off remote.

Definition getPower (remote : list Z) : bool :=
  negb (Z.land (remote !!! kSharpAcBytePower) kSharpAcBitPower =? 0).

Definition getMode (remote : list Z) : Z :=
  u8 (Z.land (remote !!! kSharpAcByteMode) kSharpAcMaskMode).

Definition setTemp (temp : Z) (remote : list Z) : list Z :=
  if (getMode remote =? kSharpAcAuto) || (getMode remote =? kSharpAcDry)
  then byte_set kSharpAcByteManual 0 (byte_set kSharpAcByteTemp 0 remote)
  else
    let remote := byte_set kSharpAcByteTemp 0xC0 remote in
    let remote := byte_or kSharpAcByteManual kSharpAcBitTempManual remote in
    let degrees := Z.max temp kSharpAcMinTemp in
    let degrees := Z.min degrees kSharpAcMaxTemp in
    let remote := byte_and kSharpAcByteTemp (Z.lnot kSharpAcMaskTemp) remote in
    byte_or kSharpAcByteTemp (degrees - kSharpAcMinTemp) remote.

Definition getTemp (remote : list Z) : Z :=
  u8 (Z.land (remote !!! kSharpAcByteTemp) kSharpAcMaskTemp + kSharpAcMinTemp).

(** The case of the [switch] of [setMode] that a value selects. *)
Definition mode_switch (mode : Z) : mode_label :=
  if mode =? kSharpAcAuto then CaseAuto
  else if mode =? kSharpAcDry then CaseDry
  else if (mode =? kSharpAcCool) || (mode =? kSharpAcHeat) then CaseCoolHeat
  else CaseModeDefault.

Definition special : Z := 0x20.

(** The last two statements shared by the cases of [setMode]. *)
Definition store_mode (mode : Z) (remote : list Z) : list Z :=
  byte_or kSharpAcByteMode mode
    (byte_and kSharpAcByteMode (Z.lnot kSharpAcMaskMode) remote).

Definition mode_rank (mode : Z) : nat :=
  match mode_switch mode with CaseModeDefault => 1%nat | _ => 0%nat end.

Equations? setMode (mode : Z) (remote : list Z) : list Z
  by wf (mode_rank mode) lt :=
  setMode mode remote with inspect (mode_switch mode) := {
    | exist _ CaseAuto _ =>
        let remote := byte_or kSharpAcBytePower special remote in
        let remote := byte_and kSharpAcBytePower (Z.lnot special) remote in
        let remote := setTemp 0 remote in
        store_mode mode remote
    | exist _ CaseDry _ =>
        let remote := byte_or kSharpAcBytePower special remote in
        let remote := setTemp 0 remote in
        store_mode mode remote
    | exist _ CaseCoolHeat _ =>
        let remote := byte_or kSharpAcBytePower special remote in
        store_mode mode remote
    | exist _ CaseModeDefault Hdefault =>
        let remote := byte_or kSharpAcBytePower special remote in
        setMode kSharpAcAuto remote }.
Proof.
  unfold mode_rank. rewrite Hdefault.
  unfold mode_switch. rewrite Z.eqb_refl. lia.
Qed.

(** The case of the [switch] of [setFan] that a value selects. *)
Definition fan_switch (speed : Z) : fan_label :=
  if speed =? kSharpAcFanAuto then CaseFanAuto
  else if (speed =? kSharpAcFanMin) || (speed =? kSharpAcFanMed)
          || (speed =? kSharpAcFanHigh) || (speed =? kSharpAcFanMax)
  then CaseFanSpeed
  else CaseFanDefault.

Definition store_fan (speed : Z) (remote : list Z) : list Z :=
  byte_or kSharpAcByteFan (Z.shiftl speed 4)
    (byte_and kSharpAcByteFan (Z.lnot kSharpAcMaskFan) remote).

Definition fan_rank (speed : Z) : nat :=
  match fan_switch speed with CaseFanDefault => 1%nat | _ => 0%nat end.

Equations? setFan (speed : Z) (remote : list Z) : list Z
  by wf (fan_rank speed) lt :=
  setFan speed remote with inspect (fan_switch speed) := {
    | exist _ CaseFanAuto _ =>
        let remote := byte_or kSharpAcByteManual kSharpAcBitFanManual remote in
        let remote :=
          byte_and kSharpAcByteManual (Z.lnot kSharpAcBitFanManual) remote in
        store_fan speed remote
    | exist _ CaseFanSpeed _ =>
        let remote := byte_or kSharpAcByteManual kSharpAcBitFanManual remote in
        store_fan speed remote
    | exist _ CaseFanDefault Hdefault =>
        let remote := byte_or kSharpAcByteManual kSharpAcBitFanManual remote in
        setFan kSharpAcFanAuto remote }.
Proof.
  unfold fan_rank. rewrite Hdefault.
  unfold fan_switch. rewrite Z.eqb_refl. lia.
Qed.

Definition getFan (remote : list Z) : Z :=
  u8 (Z.shiftr (Z.land (remote !!! kSharpAcByteFan) kSharpAcMaskFan) 4).
End IRSharpAc.

Section DecodeAc.
Context {L : IRrecvLayer} {H : SharpAcHeader}.

(** [results->state[i] = v].  A write past the end of [state] leaves the
    list as it is; what such a write does to the memory behind the array
    is not represented.  Nor is what the store does to [value], [address]
    and [command], which share the storage of [state]: their fields are
    carried along. *)
Definition set_state (i : Z) (v : Z) (results : decode_results) : decode_results :=
  {| decode_type := decode_type results;
     value := value results;
     address := address results;
     command := command results;
     state := byte_set (Z.to_nat i) v (state results);
     bits := bits results;
     rawbuf := rawbuf results;
     rawlen := rawlen results |}.

(** The data loop of [decodeSharpAc], a byte per turn; it gives
    [results], [offset] and [dataBitsSoFar] at the exit of the loop,
    whether by its condition or by [break].  [i] grows by one per turn
    and stays below [nbits], so [nbits] turns bound the recursion. *)
Fixpoint decodeSharpAc_loop (n : nat) (results : decode_results)
  (nbits i offset dataBitsSoFar : Z) : decode_results * Z * Z :=
  match n with
  | O => (results, offset, dataBitsSoFar)
  | S n' =>
      if (offset <=? rawlen results - 16) && (i <? nbits) then
        let data_result :=
          matchData (drop (Z.to_nat offset) (rawbuf results)) 8
            kSharpAcBitMark kSharpAcOneSpace kSharpAcBitMark kSharpAcZeroSpace
            kTolerance kMarkExcess false in
        if negb (mr_success data_result) then (results, offset, dataBitsSoFar)
        else
          decodeSharpAc_loop n' (set_state i (mr_data data_result) results)
            nbits (u16 (i + 1)) (u16 (offset + mr_used data_result))
            (u16 (dataBitsSoFar + 8))
      else (results, offset, dataBitsSoFar)
  end.

(** [decodeSharpAc results nbits strict] gives the returned boolean and
    [results] after the call. *)
Definition decodeSharpAc (results : decode_results) (nbits : Z) (strict : bool)
  : bool * decode_results :=
  if rawlen results <? 2 * nbits + kHeader + kFooter - 1 then (false, results)
  else if strict && negb (nbits =? kSharpAcBits) then (false, results)
  else
    let offset := kStartOffset in
    if negb (matchMark (rawbuf_at results offset) kSharpAcHdrMark kTolerance)
    then (false, results)
    else
      let offset := u16 (offset + 1) in
      if negb (matchSpace (rawbuf_at results offset) kSharpAcHdrSpace)
      then (false, results)
      else
        let offset := u16 (offset + 1) in
        let '(results, offset, dataBitsSoFar) :=
          decodeSharpAc_loop (Z.to_nat nbits) results nbits 0 offset 0 in
        if negb (matchMark (rawbuf_at results offset) kSharpAcBitMark kTolerance)
        then (false, results)
        else
          let offset := u16 (offset + 1) in
          if (offset <? rawlen results)
             && negb (matchAtLeast (rawbuf_at results offset) kSharpAcGap)
          then (false, results)
          else if strict && negb (dataBitsSoFar =? kSharpAcBits)
          then (false, results)
          else if strict && negb (validChecksum (state results) kSharpAcStateLength)
          then (false, results)
          else
            (true,
             {| decode_type := SHARP_AC;
                value := value results;
                address := address results;
                command := command results;
                state := state results;
                bits := dataBitsSoFar;
                rawbuf := rawbuf results;
                rawlen := rawlen results |}).
End DecodeAc.

(** ** A capture and a timing layer to run the decoders on *)

(** Modelled from the spec: the capture hardware is outside the sources;
    a duration in microseconds is stored in units of [kRawTick], at most
    the largest 16-bit value. *)
Definition to_raw {L : IRrecvLayer} (usecs : Z) : Z :=
  Z.min (usecs / kRawTick) 65535.

(** Modelled from the spec: the capture hardware is outside the sources;
    the spec has it deliver the flat sequence of the pulse durations.  The
    buffer holds the idle time before the first mark in entry 0 and then
    each pulse, and [rawlen] counts the entries. *)
Definition capture {L : IRrecvLayer} (pulses : list Z) (results : decode_results)
  : decode_results :=
  let buf := 0 :: map to_raw pulses in
  {| decode_type := decode_type results;
     value := value results;
     address := address results;
     command := command results;
     state := state results;
     bits := bits results;
     rawbuf := buf;
     rawlen := Z.of_nat (length buf) |}.

(** Modelled from the spec: the classifiers of IRrecv are outside the
    sources; the spec has them tell whether a captured duration lies within
    the tolerance band around the expected one: a percentage of the
    expected duration, after an absolute excess margin has been added to a
    mark and taken from a space.  [matchAtLeast] asks for the lower end of
    the band only, and takes a duration of 0, the last entry of a buffer,
    as unbounded.  [matchData] reads [nbits] mark and space pairs. *)
Module Timing.
(** Modelled from the spec: microseconds per capture tick, the default
    tolerance in percent and the absolute excess margin. *)
Definition raw_tick : Z := 2.
Definition tolerance : Z := 25.
Definition excess : Z := 50.

(** Modelled from the spec: the two ends of the tolerance band around a
    duration. *)
Definition ticksLow (usecs tol : Z) : Z := Z.max (usecs * (100 - tol) / 100) 0.
Definition ticksHigh (usecs tol : Z) : Z := usecs * (100 + tol) / 100 + 1.

(** Modelled from the spec: the captured duration lies within the band. *)
Definition within (measured desired tol : Z) : bool :=
  (ticksLow desired tol <=? measured * raw_tick)
  && (measured * raw_tick <=? ticksHigh desired tol).

(** Modelled from the spec: a mark is expected longer by the excess, a
    space shorter by it. *)
Definition mark (measured desired tol : Z) : bool :=
  within measured (desired + excess) tol.
Definition space (measured desired : Z) : bool :=
  within measured (desired - excess) tolerance.

(** Modelled from the spec: at least the lower end of the band; 0 stands
    for the end of the buffer. *)
Definition at_least (measured desired : Z) : bool :=
  (measured =? 0) || (ticksLow desired tolerance <=? measured * raw_tick).

(** Modelled from the spec: the bit-group classifier, giving the value,
    the entries consumed and whether every pair was classified. *)
Fixpoint data_loop (n : nat) (buf : list Z)
  (onemark onespace zeromark zerospace tol : Z)
  (acc used : Z) : match_result_t :=
  match n with
  | O => MatchResult true acc used
  | S n' =>
      match buf with
      | m :: s :: rest =>
          if mark m onemark tol && space s onespace
          then data_loop n' rest onemark onespace zeromark zerospace tol
                 (Z.lor (Z.shiftl acc 1) 1) (used + 2)
          else if mark m zeromark tol && space s zerospace
          then data_loop n' rest onemark onespace zeromark zerospace tol
                 (Z.shiftl acc 1) (used + 2)
          else MatchResult false acc used
      | _ => MatchResult false acc used
      end
  end.

(** Modelled from the spec: [matchData]; the value is bit-reversed when
    the least significant bit comes first. *)
Definition match_data (buf : list Z)
  (nbits onemark onespace zeromark zerospace tol exc : Z) (msb : bool)
  : match_result_t :=
  let r :=
    data_loop (Z.to_nat nbits) buf onemark onespace zeromark zerospace tol 0 0 in
  if msb then r
  else
    MatchResult (mr_success r) (reverseBits (mr_data r) (mr_used r / 2))
      (mr_used r).

(** Modelled from the spec: a timing layer made of the classifiers
    above. *)
#[export] Instance layer : IRrecvLayer :=
  {| kRawTick := raw_tick;
     kStartOffset := 1;
     kHeader := 2;
     kFooter := 2;
     kTolerance := tolerance;
     kMarkExcess := excess;
     match_ := fun measured desired => within measured desired tolerance;
     matchMark := mark;
     matchSpace := space;
     matchAtLeast := at_least;
     matchData := match_data |}.
End Timing.

(** A valuation of the constants of ir_Sharp.h, the one of the library's
    header, to run the A/C class on in the examples below.  The
    header is not part of the sources: no property below rests on these
    values except where it names [Header.ir_Sharp_h] or lists them as
    hypotheses. *)
Module Header.
#[export] Instance ir_Sharp_h : SharpAcHeader :=
  {| kSharpAcHdrMark := 3800;
     kSharpAcHdrSpace := 1900;
     kSharpAcBitMark := 470;
     kSharpAcZeroSpace := 500;
     kSharpAcOneSpace := 1400;
     kSharpAcGap := 100000;
     kSharpAcBits := 104;
     kSharpAcAuto := 0;
     kSharpAcDry := 3;
     kSharpAcCool := 2;
     kSharpAcHeat := 1;
     kSharpAcMinTemp := 15;
     kSharpAcMaxTemp := 30;
     kSharpAcFanAuto := 2;
     kSharpAcFanMin := 4;
     kSharpAcFanMed := 3;
     kSharpAcFanHigh := 5;
     kSharpAcFanMax := 7;
     kSharpAcByteTemp := 4;
     kSharpAcMaskTemp := 0x0F;
     kSharpAcBytePower := 5;
     kSharpAcBitPower := 0x10;
     kSharpAcByteMode := 6;
     kSharpAcMaskMode := 0x03;
     kSharpAcByteFan := 6;
     kSharpAcMaskFan := 0x70;
     kSharpAcByteManual := 10;
     kSharpAcBitFanManual := 0x01;
     kSharpAcBitTempManual := 0x04 |}.
End Header.

(** A [decode_results] before any capture or decode. *)
Definition blank : decode_results :=
  {| decode_type := UNKNOWN; value := 0; address := 0; command := 0;
     state := replicate 13 0; bits := 0; rawbuf := []; rawlen := 0 |}.

(** * Definitions used by the statements *)

(** The values of a [uint8_t]. *)
Definition is_byte (b : Z) : Prop := 0 <= b < 256.

(** The bytes of [new_code] stored at the positions of [js], in order. *)
Definition copy_bytes (new_code : list Z) (js : list nat) (remote : list Z) : list Z :=
  foldl (fun r j => byte_set j (new_code !!! j) r) remote js.

(** The checksum as the specification words it: the xor of the bytes
    before the last one and of the low nibble of the last one, its high
    nibble folded into its low nibble, the low four bits kept. *)
Definition xorReduce (l : list Z) : Z := foldr Z.lxor 0 l.

Definition low_nibble (b : Z) : Z := b mod 16.
Definition high_nibble (b : Z) : Z := b / 16.

Definition spec_checksum (state : list Z) : Z :=
  let n := length state in
  let x :=
    Z.lxor (xorReduce (take (n - 1) state)) (low_nibble (state !!! (n - 1)%nat)) in
  low_nibble (Z.lxor x (high_nibble x)).

(** The validation as the specification words it: the stored high nibble
    of the last byte equals the computed checksum. *)
Definition spec_valid (state : list Z) : bool :=
  high_nibble (state !!! (length state - 1)%nat) =? spec_checksum state.

(** A state array with a valid checksum. *)
Definition sample_state : list Z :=
  [0xAA; 0x5A; 0xCF; 0x10; 0xCC; 0x31; 0x22; 0x00; 0x08; 0x80; 0x04; 0xE0; 0x41].

(** What the setters need of the constants of ir_Sharp.h: the positions
    lie in the array, the temperature byte and the manual byte are apart,
    the temperature field is the low nibble and holds the span of the
    temperatures. *)
Record TempFieldOK {H : SharpAcHeader} : Prop := {
  temp_byte_in : (kSharpAcByteTemp < 13)%nat;
  manual_byte_in : (kSharpAcByteManual < 13)%nat;
  temp_manual_apart : kSharpAcByteTemp <> kSharpAcByteManual;
  temp_mask : kSharpAcMaskTemp = 0x0F;
  temp_min : 0 <= kSharpAcMinTemp <= kSharpAcMaxTemp;
  temp_span : kSharpAcMaxTemp <= kSharpAcMinTemp + 15;
  temp_max : kSharpAcMaxTemp < 256;
  manual_bit : 0 <= kSharpAcBitTempManual < 256
}.
Arguments TempFieldOK : clear implicits.

(** The reset state switched to Cool, with the constants of the library. *)
Definition cool_state : list Z :=
  setMode (H := Header.ir_Sharp_h)
    (kSharpAcCool (SharpAcHeader := Header.ir_Sharp_h)) reset.

(** The two calls of one repetition: the data, then the data inverted. *)
Definition frame_pair (data nbits : Z) : list GenericCall :=
  [sharp_call data nbits; sharp_call (u64 (Z.lxor data kSharpToggleMask)) nbits].

(** The bits [n-1 .. 0] of [d] shifted into [acc], most significant
    first, as the data loop of [decodeSharp] does. *)
Fixpoint shift_in (acc d : Z) (n : nat) : Z :=
  match n with
  | O => acc
  | S n' =>
      shift_in (if Z.testbit d (Z.of_nat n')
                then Z.lor (u64 (Z.shiftl acc 1)) 1
                else u64 (Z.shiftl acc 1)) d n'
  end.

(** What the round trip needs of the timing layer: the first mark is at
    entry 1, the footer counts for two entries, the tick of the capture
    divides the tick of the protocol, every nominal duration of the
    protocol is accepted as itself, and a zero space is not taken for a
    one space. *)
Record SharpLink {L : IRrecvLayer} : Prop := {
  link_start : kStartOffset = 1;
  link_footer : kFooter = 2;
  link_tick_pos : 0 < kRawTick;
  link_tick_divides : (kRawTick | kSharpTick);
  link_mark : matchMark (to_raw kSharpBitMark) kSharpBitMark 35 = true;
  link_one : matchSpace (to_raw kSharpOneSpace) kSharpOneSpace = true;
  link_zero_not_one : matchSpace (to_raw kSharpZeroSpace) kSharpOneSpace = false;
  link_zero : matchSpace (to_raw kSharpZeroSpace) kSharpZeroSpace = true;
  link_footer_mark : match_ (to_raw kSharpBitMark) kSharpBitMark = true;
  link_gap : matchAtLeast (to_raw kSharpGap) kSharpGap = true;
  link_gap_space : matchSpace (to_raw kSharpGap) kSharpGap = true
}.
Arguments SharpLink : clear implicits.

(** The capture of the two half-frames sent for [d]. *)
Definition sent_frame {L : IRrecvLayer} (d : Z) : list Z :=
  sendData (to_raw kSharpBitMark) (to_raw kSharpOneSpace)
    (to_raw kSharpBitMark) (to_raw kSharpZeroSpace) d (Z.to_nat kSharpBits).

(** The fields of an encoded frame, checked on every address, command and
    expansion bit: the frame fits 15 bits, its address and command are
    read back by the bit reversals of [decodeSharp], its bit 1 is the
    expansion bit and its bit 0, the check bit, is clear. *)
Definition frame_fields_ok (a c : Z) (e : bool) : bool :=
  let d := encodeSharp a c (Z.b2z e) 0 false in
  (0 <=? d) && (d <? 2 ^ 15)
  && (u32 (Z.land (reverseBits d kSharpBits) kSharpAddressMask) =? a)
  && (u32 (reverseBits (Z.land (Z.shiftr d 2) kSharpCommandMask)
             kSharpCommandBits) =? c)
  && (Z.shiftr (Z.land d 2) 1 =? Z.b2z e)
  && (Z.land d 1 =? 0).

(** The inverted copy of a frame and the raw footer of a half-frame. *)
Definition inverted (d : Z) : Z := u64 (Z.lxor d kSharpToggleMask).

Definition raw_footer {L : IRrecvLayer} : list Z :=
  [to_raw kSharpBitMark; to_raw kSharpGap].

(** * The rest of ir_Sharp.cpp, and what its properties need *)

(** [IRSharpAc::send]: the checksum is stored, then the array is sent; it
    gives the pulse train and the array after the call. *)
Definition send {H : SharpAcHeader} (repeat : Z) (remote : list Z)
  : list Z * list Z :=
  let remote := checksum remote in
  (sendSharpAc remote kSharpAcStateLength repeat, remote).

(** The two bit reversals of [encodeSharp] and [decodeSharp] stay within
    their width and undo themselves, checked on every value. *)
Definition reverse_ok (width : Z) (x : nat) : bool :=
  let r := reverseBits (Z.of_nat x) width in
  (0 <=? r) && (r <? 2 ^ width) && (reverseBits r width =? Z.of_nat x).

(** The most-significant-bit-first frame is the sum of its shifted
    fields, checked on every field value. *)
Definition pack_ok (a c : nat) : bool :=
  forallb (fun e =>
    forallb (fun k =>
      encodeSharp (Z.of_nat a) (Z.of_nat c) (Z.of_nat e) (Z.of_nat k) true
      =? Z.of_nat a * 1024 + Z.of_nat c * 4 + Z.of_nat e * 2 + Z.of_nat k)
      (seq 0 2))
    (seq 0 2).

(** The fields [decodeSharp] stores for a value. *)
Definition decoded_address (data nbits : Z) : Z :=
  u32 (Z.land (reverseBits data nbits) kSharpAddressMask).
Definition decoded_command (data : Z) : Z :=
  u32 (reverseBits (Z.land (Z.shiftr data 2) kSharpCommandMask) kSharpCommandBits).

(** The pulses of one half-frame of [sendSharpRaw]: the bits, the footer
    mark and the gap. *)
Definition half_frame (data nbits : Z) : list Z :=
  sendData kSharpBitMark kSharpOneSpace kSharpBitMark kSharpZeroSpace data
    (Z.to_nat nbits)
  ++ [kSharpBitMark; kSharpGap].

(** What the accessors need of the constants of ir_Sharp.h besides
    [TempFieldOK]: the positions lie in the array; the power byte, the
    temperature byte and the manual byte hold no other field, while the
    mode and the fan speed may share a byte; the power bit is not the bit
    0x20 that marks the non-Auto modes; the mode field is the two low
    bits and holds the four modes; the fan field is the bits 4 to 6 and
    holds the five speeds; the two manual flags are different bits. *)
Record FieldsOK {H : SharpAcHeader} : Prop := {
  fields_temp : TempFieldOK H;
  power_byte_in : (kSharpAcBytePower < 13)%nat;
  mode_byte_in : (kSharpAcByteMode < 13)%nat;
  fan_byte_in : (kSharpAcByteFan < 13)%nat;
  power_temp_apart : kSharpAcBytePower <> kSharpAcByteTemp;
  power_manual_apart : kSharpAcBytePower <> kSharpAcByteManual;
  power_mode_apart : kSharpAcBytePower <> kSharpAcByteMode;
  power_fan_apart : kSharpAcBytePower <> kSharpAcByteFan;
  mode_temp_apart : kSharpAcByteMode <> kSharpAcByteTemp;
  mode_manual_apart : kSharpAcByteMode <> kSharpAcByteManual;
  fan_temp_apart : kSharpAcByteFan <> kSharpAcByteTemp;
  fan_manual_apart : kSharpAcByteFan <> kSharpAcByteManual;
  power_bit : 0 < kSharpAcBitPower < 256;
  power_bit_marker : Z.land kSharpAcBitPower 0x20 = 0;
  mode_mask : kSharpAcMaskMode = 0x03;
  mode_auto : 0 <= kSharpAcAuto <= 3;
  mode_dry : 0 <= kSharpAcDry <= 3;
  mode_cool : 0 <= kSharpAcCool <= 3;
  mode_heat : 0 <= kSharpAcHeat <= 3;
  fan_mask : kSharpAcMaskFan = 0x70;
  fan_auto : 0 <= kSharpAcFanAuto <= 7;
  fan_min : 0 <= kSharpAcFanMin <= 7;
  fan_med : 0 <= kSharpAcFanMed <= 7;
  fan_high : 0 <= kSharpAcFanHigh <= 7;
  fan_max : 0 <= kSharpAcFanMax <= 7;
  fan_bit : 0 < kSharpAcBitFanManual < 256;
  manual_bits_apart : Z.land kSharpAcBitFanManual kSharpAcBitTempManual = 0
}.
Arguments FieldsOK : clear implicits.

(** What the round trip of a state needs of the timing layer and of the
    timings of ir_Sharp.h: the capture buffer starts at entry 1, a header
    and a footer take two entries each, a state is 104 bits; the header
    mark, the header space, the footer mark and the gap are accepted at
    their nominal durations; [matchData], asked for eight bits with the
    least significant first, reads back a byte from the sixteen entries
    captured when that byte is sent. *)
Record SharpAcLink {L : IRrecvLayer} {H : SharpAcHeader} : Prop := {
  ac_start : kStartOffset = 1;
  ac_header : kHeader = 2;
  ac_footer : kFooter = 2;
  ac_bits : kSharpAcBits = 104;
  ac_hdr_mark :
    matchMark (to_raw kSharpAcHdrMark) kSharpAcHdrMark kTolerance = true;
  ac_hdr_space : matchSpace (to_raw kSharpAcHdrSpace) kSharpAcHdrSpace = true;
  ac_byte : forall (b : Z) (rest : list Z),
    0 <= b < 256 ->
    matchData
      (map to_raw
         (sendByte kSharpAcBitMark kSharpAcOneSpace kSharpAcBitMark
            kSharpAcZeroSpace false b) ++ rest)
      8 kSharpAcBitMark kSharpAcOneSpace kSharpAcBitMark kSharpAcZeroSpace
      kTolerance kMarkExcess false
    = MatchResult true b 16;
  ac_footer_mark :
    matchMark (to_raw kSharpAcBitMark) kSharpAcBitMark kTolerance = true;
  ac_gap : matchAtLeast (to_raw kSharpAcGap) kSharpAcGap = true
}.
Arguments SharpAcLink : clear implicits.

(** The bit-group classifier of [Timing.layer] reads back the byte [b]
    sent with the timings of [Header.ir_Sharp_h]. *)
Definition ac_byte_ok (b : nat) : bool :=
  let r :=
    Timing.match_data
      (map (to_raw (L := Timing.layer))
         (sendByte (kSharpAcBitMark (SharpAcHeader := Header.ir_Sharp_h))
            (kSharpAcOneSpace (SharpAcHeader := Header.ir_Sharp_h))
            (kSharpAcBitMark (SharpAcHeader := Header.ir_Sharp_h))
            (kSharpAcZeroSpace (SharpAcHeader := Header.ir_Sharp_h))
            false (Z.of_nat b)))
      8 (kSharpAcBitMark (SharpAcHeader := Header.ir_Sharp_h))
      (kSharpAcOneSpace (SharpAcHeader := Header.ir_Sharp_h))
      (kSharpAcBitMark (SharpAcHeader := Header.ir_Sharp_h))
      (kSharpAcZeroSpace (SharpAcHeader := Header.ir_Sharp_h))
      Timing.tolerance Timing.excess false in
  mr_success r && (mr_data r =? Z.of_nat b) && (mr_used r =? 16).

(** The enumerations [stdAc::opmode_t] and [stdAc::fanspeed_t] are
    declared outside ir_Sharp.cpp.  They are given here by the enumerators
    that the [switch] of [convertMode] and of [convertFan] name; every
    other enumerator is an [other] value, which the [switch] sends to its
    [default]. *)
Module stdAc.
Inductive opmode_t := kCool | kHeat | kDry | opmode_other (tag : Z).
Inductive fanspeed_t :=
  kMin | kLow | kMedium | kHigh | kMax | fanspeed_other (tag : Z).
End stdAc.

Definition convertMode {H : SharpAcHeader} (mode : stdAc.opmode_t) : Z :=
  match mode with
  | stdAc.kCool => kSharpAcCool
  | stdAc.kHeat => kSharpAcHeat
  | stdAc.kDry => kSharpAcDry
  | _ => kSharpAcAuto
  end.

Definition convertFan {H : SharpAcHeader} (speed : stdAc.fanspeed_t) : Z :=
  match speed with
  | stdAc.kMin | stdAc.kLow => kSharpAcFanMin
  | stdAc.kMedium => kSharpAcFanMed
  | stdAc.kHigh => kSharpAcFanHigh
  | stdAc.kMax => kSharpAcFanMax
  | _ => kSharpAcFanAuto
  end.

(** * Properties *)

(** ** Machine integers and bytes *)

Lemma wrap_small w x : 0 <= x < 2 ^ w -> wrap w x = x.
Proof. intros Hx. unfold wrap. apply Z.mod_small. exact Hx. Qed.

Lemma u8_small x : 0 <= x < 256 -> u8 x = x.
Proof. intros Hx. apply wrap_small. exact Hx. Qed.

Lemma u16_small x : 0 <= x < 65536 -> u16 x = x.
Proof. intros Hx. apply wrap_small. exact Hx. Qed.

Lemma u64_small x : 0 <= x < 2 ^ 64 -> u64 x = x.
Proof. intros Hx. apply wrap_small. exact Hx. Qed.

Lemma u8_range x : 0 <= u8 x < 256.
Proof. unfold u8, wrap. apply Z.mod_pos_bound. reflexivity. Qed.

Lemma lxor_range n a b :
  0 <= n -> 0 <= a < 2 ^ n -> 0 <= b < 2 ^ n -> 0 <= Z.lxor a b < 2 ^ n.
Proof.
  intros Hn Ha Hb.
  assert (Hnn : 0 <= Z.lxor a b) by (apply Z.lxor_nonneg; lia).
  split; [exact Hnn|].
  apply (Z.bounded_iff_bits_nonneg n); [lia|exact Hnn|].
  intros l Hl. rewrite Z.lxor_spec.
  rewrite (proj1 (Z.bounded_iff_bits_nonneg n a Hn (proj1 Ha)) (proj2 Ha) l Hl).
  rewrite (proj1 (Z.bounded_iff_bits_nonneg n b Hn (proj1 Hb)) (proj2 Hb) l Hl).
  reflexivity.
Qed.

Lemma lor_range n a b :
  0 <= n -> 0 <= a < 2 ^ n -> 0 <= b < 2 ^ n -> 0 <= Z.lor a b < 2 ^ n.
Proof.
  intros Hn Ha Hb.
  assert (Hnn : 0 <= Z.lor a b) by (apply Z.lor_nonneg; lia).
  split; [exact Hnn|].
  apply (Z.bounded_iff_bits_nonneg n); [lia|exact Hnn|].
  intros l Hl. rewrite Z.lor_spec.
  rewrite (proj1 (Z.bounded_iff_bits_nonneg n a Hn (proj1 Ha)) (proj2 Ha) l Hl).
  rewrite (proj1 (Z.bounded_iff_bits_nonneg n b Hn (proj1 Hb)) (proj2 Hb) l Hl).
  reflexivity.
Qed.

Lemma testbit_u8 x i : 0 <= i -> Z.testbit (u8 x) i = (i <? 8) && Z.testbit x i.
Proof.
  intros Hi. unfold u8, wrap. destruct (Z.ltb_spec i 8).
  - rewrite Z.mod_pow2_bits_low by lia. reflexivity.
  - rewrite Z.mod_pow2_bits_high by lia. reflexivity.
Qed.

Lemma testbit_byte_high v i : 0 <= v < 256 -> 8 <= i -> Z.testbit v i = false.
Proof.
  intros Hv Hi.
  apply (proj1 (Z.bounded_iff_bits_nonneg 8 v ltac:(lia) (proj1 Hv)) (proj2 Hv)).
  exact Hi.
Qed.

(** A flag stored with [|=] reads back as set. *)
Lemma flag_set_reads old v : 0 <= v < 256 -> Z.land (u8 (Z.lor old v)) v = v.
Proof.
  intros Hv. apply Z.bits_inj'. intros i Hi.
  rewrite Z.land_spec, testbit_u8, Z.lor_spec by exact Hi.
  destruct (Z.ltb_spec i 8).
  - destruct (Z.testbit old i), (Z.testbit v i); reflexivity.
  - rewrite (testbit_byte_high v i) by lia. reflexivity.
Qed.

(** A flag cleared with [&= ~] reads back as clear. *)
Lemma flag_clear_reads old v : Z.land (u8 (Z.land old (Z.lnot v))) v = 0.
Proof.
  apply Z.bits_inj'. intros i Hi.
  rewrite Z.land_spec, testbit_u8, Z.land_spec, Z.lnot_spec, Z.bits_0 by exact Hi.
  destruct (i <? 8), (Z.testbit old i), (Z.testbit v i); reflexivity.
Qed.

(** ** The state array *)

Lemma byte_set_length i v remote : length (byte_set i v remote) = length remote.
Proof. unfold byte_set. apply length_insert. Qed.

Lemma byte_or_length i v remote : length (byte_or i v remote) = length remote.
Proof. unfold byte_or. apply length_insert. Qed.

Lemma byte_and_length i v remote : length (byte_and i v remote) = length remote.
Proof. unfold byte_and. apply length_insert. Qed.

Lemma byte_set_same i v (remote : list Z) :
  (i < length remote)%nat -> byte_set i v remote !!! i = u8 v.
Proof. intros Hi. unfold byte_set. apply list_lookup_total_insert_eq. exact Hi. Qed.

Lemma byte_set_other i j v (remote : list Z) :
  i <> j -> byte_set i v remote !!! j = remote !!! j.
Proof. intros Hij. unfold byte_set. apply list_lookup_total_insert_ne. exact Hij. Qed.

Lemma byte_or_same i v (remote : list Z) :
  (i < length remote)%nat -> byte_or i v remote !!! i = u8 (Z.lor (remote !!! i) v).
Proof. intros Hi. unfold byte_or. apply list_lookup_total_insert_eq. exact Hi. Qed.

Lemma byte_or_other i j v (remote : list Z) :
  i <> j -> byte_or i v remote !!! j = remote !!! j.
Proof. intros Hij. unfold byte_or. apply list_lookup_total_insert_ne. exact Hij. Qed.

Lemma byte_and_same i v (remote : list Z) :
  (i < length remote)%nat -> byte_and i v remote !!! i = u8 (Z.land (remote !!! i) v).
Proof. intros Hi. unfold byte_and. apply list_lookup_total_insert_eq. exact Hi. Qed.

Lemma byte_and_other i j v (remote : list Z) :
  i <> j -> byte_and i v remote !!! j = remote !!! j.
Proof. intros Hij. unfold byte_and. apply list_lookup_total_insert_ne. exact Hij. Qed.

Create Rewrite HintDb remote_len.
#[export] Hint Rewrite byte_set_length byte_or_length byte_and_length : remote_len.

(** ** [setRaw] *)

Lemma copy_bytes_length new_code js : forall remote,
  length (copy_bytes new_code js remote) = length remote.
Proof.
  induction js as [|j js IH]; intros remote; simpl; [reflexivity|].
  unfold copy_bytes in *. simpl. rewrite IH. apply byte_set_length.
Qed.

Lemma copy_bytes_outside new_code (k : nat) :
  forall (s : nat) (remote : list Z) (j : nat),
  (j < s \/ s + k <= j)%nat ->
  copy_bytes new_code (seq s k) remote !!! j = remote !!! j.
Proof.
  induction k as [|k IH]; intros s remote j Hj; [reflexivity|].
  unfold copy_bytes in *. simpl.
  rewrite IH by lia. apply byte_set_other. lia.
Qed.

Lemma copy_bytes_inside new_code (k : nat) :
  forall (s : nat) (remote : list Z) (j : nat),
  (s <= j < s + k)%nat -> (j < length remote)%nat ->
  copy_bytes new_code (seq s k) remote !!! j = u8 (new_code !!! j).
Proof.
  induction k as [|k IH]; intros s remote j Hj Hlen; [lia|].
  unfold copy_bytes in *. simpl.
  destruct (decide (j = s)) as [->|Hne].
  - change (foldl (fun r j => byte_set j (new_code !!! j) r)
              (byte_set s (new_code !!! s) remote) (seq (S s) k))
      with (copy_bytes new_code (seq (S s) k) (byte_set s (new_code !!! s) remote)).
    rewrite copy_bytes_outside by lia. apply byte_set_same. exact Hlen.
  - apply IH; [lia|]. rewrite byte_set_length. exact Hlen.
Qed.

Lemma setRaw_loop_spec new_code len : forall (n : nat) (i : Z) remote w,
  0 <= i -> i + Z.of_nat n = kSharpAcStateLength ->
  setRaw_loop n i new_code len (remote, w) =
    let js := seq (Z.to_nat i) (Z.to_nat (Z.min len kSharpAcStateLength - i)) in
    (copy_bytes new_code js remote, w ++ map Z.of_nat js).
Proof.
  unfold kSharpAcStateLength.
  induction n as [|n IH]; intros i remote w Hi Hn; cbn zeta.
  - simpl. replace (Z.to_nat (Z.min len 13 - i)) with 0%nat by lia.
    simpl. rewrite app_nil_r. reflexivity.
  - simpl. unfold kSharpAcStateLength.
    destruct (Z.ltb_spec i len) as [Hlt|Hge]; simpl.
    + destruct (Z.ltb_spec i 13) as [Hlt'|Hge']; [|lia].
      rewrite u8_small by lia. rewrite IH by lia. cbn zeta.
      replace (Z.to_nat (Z.min len 13 - i))
        with (S (Z.to_nat (Z.min len 13 - (i + 1)))) by lia.
      replace (Z.to_nat (i + 1)) with (S (Z.to_nat i)) by lia.
      simpl. rewrite <- app_assoc. simpl.
      rewrite Z2Nat.id by lia. reflexivity.
    + replace (Z.to_nat (Z.min len 13 - i)) with 0%nat by lia.
      simpl. rewrite app_nil_r. reflexivity.
Qed.



(** ** The checksum *)

Lemma xorReduce_byte (l : list Z) : Forall is_byte l -> is_byte (xorReduce l).
Proof.
  induction 1 as [|b l Hb Hl IH]; simpl.
  - unfold is_byte. lia.
  - apply (lxor_range 8); unfold is_byte in *; lia.
Qed.

Lemma xorBytes_loop_spec (start : list Z) : forall (n i : nat) (c : Z),
  Forall is_byte start -> is_byte c -> (i + n <= length start)%nat ->
  xorBytes_loop n i start c = Z.lxor c (xorReduce (take n (drop i start))).
Proof.
  induction n as [|n IH]; intros i c Hs Hc Hlen; simpl.
  - rewrite Z.lxor_0_r. reflexivity.
  - assert (Hi : (i < length start)%nat) by lia.
    assert (Hb : is_byte (start !!! i)) by (apply Forall_lookup_total_1; assumption).
    rewrite (drop_S start (start !!! i) i)
      by (apply list_lookup_lookup_total_lt; exact Hi).
    simpl. rewrite u8_small by (apply (lxor_range 8); unfold is_byte in *; lia).
    rewrite IH; [|exact Hs|apply (lxor_range 8); unfold is_byte in *; lia|lia].
    apply Z.lxor_assoc.
Qed.

Lemma xorBytes_spec (start : list Z) (n : nat) :
  Forall is_byte start -> (n <= length start)%nat ->
  xorBytes start (Z.of_nat n) = xorReduce (take n start).
Proof.
  intros Hs Hn. unfold xorBytes. rewrite Nat2Z.id.
  rewrite xorBytes_loop_spec; [|exact Hs|unfold is_byte; lia|lia].
  rewrite drop_0. apply Z.lxor_0_l.
Qed.

Lemma land_15_low_nibble b : Z.land b 0xF = low_nibble b.
Proof. unfold low_nibble. apply (Z.land_ones b 4). lia. Qed.

Lemma shiftr_4_high_nibble b : Z.shiftr b 4 = high_nibble b.
Proof. unfold high_nibble. apply (Z.shiftr_div_pow2 b 4). lia. Qed.

Lemma calcChecksum_spec (state : list Z) :
  Forall is_byte state -> 1 <= Z.of_nat (length state) < 65536 ->
  calcChecksum state (Z.of_nat (length state)) = spec_checksum state.
Proof.
  intros Hs Hlen. unfold calcChecksum, spec_checksum.
  replace (Z.of_nat (length state) - 1) with (Z.of_nat (length state - 1)) by lia.
  rewrite u16_small by lia. rewrite Nat2Z.id.
  rewrite xorBytes_spec by (try exact Hs; lia).
  rewrite !land_15_low_nibble.
  set (last := state !!! (length state - 1)%nat).
  assert (Hlast : is_byte last)
    by (apply Forall_lookup_total_1; [exact Hs|lia]).
  assert (Hx : is_byte (xorReduce (take (length state - 1) state)))
    by (apply xorReduce_byte, Forall_take, Hs).
  assert (Hn : 0 <= low_nibble last < 256)
    by (unfold low_nibble; pose proof (Z.mod_pos_bound last 16); lia).
  set (x := Z.lxor (xorReduce (take (length state - 1) state)) (low_nibble last)).
  assert (Hxx : is_byte x)
    by (apply (lxor_range 8); unfold is_byte in *; lia).
  rewrite !(u8_small x) by exact Hxx.
  rewrite shiftr_4_high_nibble.
  assert (Hh : 0 <= high_nibble x < 256).
  { unfold high_nibble, is_byte in *.
    pose proof (Z.div_pos x 16). pose proof (Z.div_le_upper_bound x 16 255). lia. }
  rewrite (u8_small (Z.lxor x (high_nibble x)))
    by (apply (lxor_range 8); unfold is_byte in *; lia).
  apply u8_small. unfold low_nibble.
  pose proof (Z.mod_pos_bound (Z.lxor x (high_nibble x)) 16). lia.
Qed.

(** C6: on an array of [n >= 1] bytes, [calcChecksum] is the xor of the
    bytes [0 .. n-2] and of the low nibble of byte [n-1], folded by
    [x ^= x >> 4] and masked to four bits, and [validChecksum] holds
    exactly when the high nibble of byte [n-1] is that checksum. *)
Theorem checksum_refines_spec (state : list Z) :
  Forall is_byte state -> 1 <= Z.of_nat (length state) < 65536 ->
  let n := Z.of_nat (length state) in
  calcChecksum state n = spec_checksum state
  /\ validChecksum state n = spec_valid state
  /\ (validChecksum state n = true
      <-> high_nibble (state !!! (length state - 1)%nat) = spec_checksum state).
Proof.
  intros Hs Hlen n.
  assert (Hv : validChecksum state n = spec_valid state).
  { unfold validChecksum, spec_valid. rewrite calcChecksum_spec by assumption.
    rewrite shiftr_4_high_nibble.
    replace (Z.to_nat (n - 1)) with (length state - 1)%nat by (unfold n; lia).
    reflexivity. }
  split; [apply calcChecksum_spec; assumption|].
  split; [exact Hv|].
  rewrite Hv. unfold spec_valid. apply Z.eqb_eq.
Qed.

Lemma is_byte_dec_all (l : list Z) :
  forallb (fun b => (0 <=? b) && (b <? 256)) l = true -> Forall is_byte l.
Proof.
  intros Hall. apply Forall_forall. intros b Hb.
  rewrite forallb_forall in Hall. apply list_elem_of_In in Hb.
  specialize (Hall b Hb). unfold is_byte. lia.
Qed.

Lemma checksum_refines_spec_witness :
  calcChecksum sample_state 13 = 4 /\ validChecksum sample_state 13 = true.
Proof.
  pose proof (checksum_refines_spec sample_state
                (is_byte_dec_all sample_state eq_refl) ltac:(simpl; lia))
    as [Hc [_ Hv]].
  split.
  - etransitivity; [exact Hc|reflexivity].
  - apply Hv. reflexivity.
Defined.

(** ** The reset state *)

Lemma stateReset_installs_reset (remote : list Z) :
  length remote = 13%nat -> stateReset remote = reset.
Proof.
  intros Hlen.
  do 14 (destruct remote as [|? remote]; [try discriminate Hlen|]);
    [reflexivity|discriminate Hlen].
Qed.

(** C3, as stated, fails: the array installed by [stateReset] does not
    satisfy [validChecksum]. *)
Lemma reset_state_checksum_invalid :
  stateReset (replicate 13 0) = reset
  /\ validChecksum (stateReset (replicate 13 0)) kSharpAcStateLength = false.
Proof. split; reflexivity. Qed.

(** C3, amended: the array installed by [stateReset] is the 13-byte reset
    array; its stored checksum nibble is 0 while [calcChecksum] gives 3,
    and [getRaw], which stores the checksum first, gives an array that
    satisfies [validChecksum], with last byte 0x31.  With the power bit
    0x10 of byte 5, the mode mask 0x03 of byte 6 and the Auto mode 0, the
    reset state reads back as power off and mode Auto, before and after
    [getRaw]. *)
Theorem reset_state_checksum_and_fields {H : SharpAcHeader} (remote : list Z) :
  length remote = 13%nat ->
  kSharpAcBytePower = 5%nat -> kSharpAcBitPower = 0x10 ->
  kSharpAcByteMode = 6%nat -> kSharpAcMaskMode = 0x03 -> kSharpAcAuto = 0 ->
  stateReset remote = reset
  /\ calcChecksum (stateReset remote) kSharpAcStateLength = 3
  /\ high_nibble (stateReset remote !!! 12%nat) = 0
  /\ validChecksum (getRaw (stateReset remote)) kSharpAcStateLength = true
  /\ getRaw (stateReset remote) !!! 12%nat = 0x31
  /\ getPower (stateReset remote) = false
  /\ getMode (stateReset remote) = kSharpAcAuto
  /\ getPower (getRaw (stateReset remote)) = false
  /\ getMode (getRaw (stateReset remote)) = kSharpAcAuto.
Proof.
  intros Hlen Hbp Hbit Hbm Hmask Hauto.
  rewrite stateReset_installs_reset by exact Hlen.
  unfold getPower, getMode. rewrite Hbp, Hbit, Hbm, Hmask, Hauto.
  repeat split; reflexivity.
Qed.

Lemma reset_state_checksum_and_fields_witness :
  validChecksum (getRaw (stateReset (replicate 13 0))) kSharpAcStateLength = true
  /\ getPower (H := Header.ir_Sharp_h) (stateReset (replicate 13 0)) = false
  /\ getMode (H := Header.ir_Sharp_h) (stateReset (replicate 13 0)) = 0.
Proof.
  pose proof (reset_state_checksum_and_fields (H := Header.ir_Sharp_h)
                (replicate 13 0) eq_refl eq_refl eq_refl eq_refl eq_refl eq_refl)
    as [_ [_ [_ [Hv [_ [Hp [Hm _]]]]]]].
  split; [exact Hv|]. split; [exact Hp|exact Hm].
Defined.

(** ** The temperature and mode setters *)

Lemma temp_field_reads d :
  0 <= d <= 15 ->
  Z.land (u8 (Z.lor (u8 (Z.land (u8 0xC0) (Z.lnot 0x0F))) d)) 0x0F = d.
Proof.
  intros Hd. change (u8 (Z.land (u8 0xC0) (Z.lnot 0x0F))) with 0xC0.
  rewrite u8_small by (apply (lor_range 8); lia).
  rewrite Z.land_lor_distr_l. change (Z.land 0xC0 0x0F) with 0.
  rewrite Z.lor_0_l. change 0x0F with (Z.ones 4).
  rewrite (Z.land_ones d 4) by lia.
  apply Z.mod_small. change (2 ^ 4) with 16. lia.
Qed.

Section SetTemp.
Context {H : SharpAcHeader}.
Hypothesis HOK : TempFieldOK H.

Lemma getTemp_zero_field (remote : list Z) :
  Z.land (remote !!! kSharpAcByteTemp) kSharpAcMaskTemp = 0 ->
  getTemp remote = kSharpAcMinTemp.
Proof.
  intros Hz. unfold getTemp. rewrite Hz. simpl.
  apply u8_small. destruct HOK. lia.
Qed.

Lemma setTemp_auto_dry (temp : Z) (remote : list Z) :
  getMode remote = kSharpAcAuto \/ getMode remote = kSharpAcDry ->
  setTemp temp remote
  = byte_set kSharpAcByteManual 0 (byte_set kSharpAcByteTemp 0 remote).
Proof.
  intros Hm. unfold setTemp.
  destruct Hm as [-> | ->]; rewrite Z.eqb_refl; [reflexivity|].
  rewrite orb_true_r. reflexivity.
Qed.

Lemma setTemp_other (temp : Z) (remote : list Z) :
  getMode remote <> kSharpAcAuto -> getMode remote <> kSharpAcDry ->
  setTemp temp remote
  = byte_or kSharpAcByteTemp
      (Z.min (Z.max temp kSharpAcMinTemp) kSharpAcMaxTemp - kSharpAcMinTemp)
      (byte_and kSharpAcByteTemp (Z.lnot kSharpAcMaskTemp)
         (byte_or kSharpAcByteManual kSharpAcBitTempManual
            (byte_set kSharpAcByteTemp 0xC0 remote))).
Proof.
  intros Ha Hd. unfold setTemp.
  destruct (Z.eqb_spec (getMode remote) kSharpAcAuto); [contradiction|].
  destruct (Z.eqb_spec (getMode remote) kSharpAcDry); [contradiction|].
  reflexivity.
Qed.

Lemma setTemp_other_temp_byte (temp : Z) (remote : list Z) :
  length remote = 13%nat ->
  getMode remote <> kSharpAcAuto -> getMode remote <> kSharpAcDry ->
  Z.land (setTemp temp remote !!! kSharpAcByteTemp) kSharpAcMaskTemp
  = Z.min (Z.max temp kSharpAcMinTemp) kSharpAcMaxTemp - kSharpAcMinTemp.
Proof.
  intros Hlen Ha Hd. rewrite setTemp_other by assumption.
  destruct HOK as [HT HM Hne Hmask Hmin Hspan Hmax Hbit].
  rewrite byte_or_same by (autorewrite with remote_len; lia).
  rewrite byte_and_same by (autorewrite with remote_len; lia).
  rewrite byte_or_other by (intros Heq; apply Hne; symmetry; exact Heq).
  rewrite byte_set_same by lia.
  rewrite Hmask. apply temp_field_reads. lia.
Qed.

Lemma setTemp_other_manual_flag (temp : Z) (remote : list Z) :
  length remote = 13%nat ->
  getMode remote <> kSharpAcAuto -> getMode remote <> kSharpAcDry ->
  Z.land (setTemp temp remote !!! kSharpAcByteManual) kSharpAcBitTempManual
  = kSharpAcBitTempManual.
Proof.
  intros Hlen Ha Hd. rewrite setTemp_other by assumption.
  destruct HOK as [HT HM Hne Hmask Hmin Hspan Hmax Hbit].
  rewrite byte_or_other by exact Hne.
  rewrite byte_and_other by exact Hne.
  rewrite byte_or_same by (autorewrite with remote_len; lia).
  apply flag_set_reads. exact Hbit.
Qed.

Lemma setTemp_getTemp_min (remote : list Z) :
  length remote = 13%nat -> getTemp (setTemp 0 remote) = kSharpAcMinTemp.
Proof.
  intros Hlen. apply getTemp_zero_field.
  destruct (Z.eq_dec (getMode remote) kSharpAcAuto) as [Ha|Ha];
    [|destruct (Z.eq_dec (getMode remote) kSharpAcDry) as [Hd|Hd]].
  - rewrite setTemp_auto_dry by (left; exact Ha).
    destruct HOK as [HT HM Hne Hmask Hmin Hspan Hmax Hbit].
    rewrite byte_set_other by (intros Heq; apply Hne; symmetry; exact Heq).
    rewrite byte_set_same by lia. reflexivity.
  - rewrite setTemp_auto_dry by (right; exact Hd).
    destruct HOK as [HT HM Hne Hmask Hmin Hspan Hmax Hbit].
    rewrite byte_set_other by (intros Heq; apply Hne; symmetry; exact Heq).
    rewrite byte_set_same by lia. reflexivity.
  - rewrite setTemp_other_temp_byte by assumption.
    destruct HOK. lia.
Qed.

(** C7: in Auto or Dry mode [setTemp t] zeroes the temperature byte and
    the manual byte, whatever [t], so that no temperature is stored;
    in any other mode it stores [clamped - kSharpAcMinTemp] in the
    temperature field, where [clamped] is [t] brought into
    [kSharpAcMinTemp .. kSharpAcMaxTemp], and sets the manual
    temperature flag, so that [getTemp] gives [clamped]: the minimum for
    a [t] below it and the maximum for a [t] above it. *)
Theorem setTemp_clamps_or_clears (t : Z) (remote : list Z) :
  length remote = 13%nat -> 0 <= t < 256 ->
  (getMode remote = kSharpAcAuto \/ getMode remote = kSharpAcDry ->
     setTemp t remote !!! kSharpAcByteTemp = 0
     /\ setTemp t remote !!! kSharpAcByteManual = 0
     /\ (forall j : nat, j <> kSharpAcByteTemp -> j <> kSharpAcByteManual ->
           setTemp t remote !!! j = remote !!! j)
     /\ setTemp t remote = setTemp 0 remote
     /\ getTemp (setTemp t remote) = kSharpAcMinTemp)
  /\ (getMode remote <> kSharpAcAuto -> getMode remote <> kSharpAcDry ->
        let clamped := Z.min (Z.max t kSharpAcMinTemp) kSharpAcMaxTemp in
        kSharpAcMinTemp <= clamped <= kSharpAcMaxTemp
        /\ Z.land (setTemp t remote !!! kSharpAcByteTemp) kSharpAcMaskTemp
           = clamped - kSharpAcMinTemp
        /\ Z.land (setTemp t remote !!! kSharpAcByteManual) kSharpAcBitTempManual
           = kSharpAcBitTempManual
        /\ getTemp (setTemp t remote) = clamped
        /\ (t <= kSharpAcMinTemp -> getTemp (setTemp t remote) = kSharpAcMinTemp)
        /\ (kSharpAcMaxTemp <= t -> getTemp (setTemp t remote) = kSharpAcMaxTemp)).
Proof.
  intros Hlen Ht.
  pose proof HOK as [HT HM Hne Hmask Hmin Hspan Hmax Hbit].
  split.
  - intros Hmode. rewrite !setTemp_auto_dry by exact Hmode.
    assert (Htemp : byte_set kSharpAcByteManual 0 (byte_set kSharpAcByteTemp 0 remote)
                      !!! kSharpAcByteTemp = 0).
    { rewrite byte_set_other by (intros Heq; apply Hne; symmetry; exact Heq).
      rewrite byte_set_same by lia. reflexivity. }
    split; [exact Htemp|]. split; [|split; [|split]].
    + rewrite byte_set_same by (autorewrite with remote_len; lia). reflexivity.
    + intros j HjT HjM.
      rewrite byte_set_other by (intros Heq; apply HjM; symmetry; exact Heq).
      apply byte_set_other. intros Heq; apply HjT; symmetry; exact Heq.
    + reflexivity.
    + apply getTemp_zero_field. rewrite Htemp. reflexivity.
  - intros Ha Hd clamped.
    assert (Hfield := setTemp_other_temp_byte t remote Hlen Ha Hd).
    fold clamped in Hfield.
    assert (Hget : getTemp (setTemp t remote) = clamped).
    { unfold getTemp. rewrite Hfield.
      replace (clamped - kSharpAcMinTemp + kSharpAcMinTemp) with clamped by lia.
      apply u8_small. unfold clamped. lia. }
    split; [unfold clamped; lia|]. split; [exact Hfield|].
    split; [apply setTemp_other_manual_flag; assumption|].
    split; [exact Hget|]. split.
    + intros Hlow. rewrite Hget. unfold clamped. lia.
    + intros Hhigh. rewrite Hget. unfold clamped. lia.
Qed.
End SetTemp.

Lemma ir_Sharp_h_temp_ok : TempFieldOK Header.ir_Sharp_h.
Proof. constructor; simpl; lia. Qed.

Lemma setTemp_clamps_or_clears_witness :
  getTemp (H := Header.ir_Sharp_h) (setTemp (H := Header.ir_Sharp_h) 40 cool_state) = 30
  /\ getTemp (H := Header.ir_Sharp_h) (setTemp (H := Header.ir_Sharp_h) 3 cool_state) = 15
  /\ setTemp (H := Header.ir_Sharp_h) 25 reset !!! 4%nat = 0.
Proof.
  pose proof (setTemp_clamps_or_clears (H := Header.ir_Sharp_h) ir_Sharp_h_temp_ok
                40 cool_state eq_refl ltac:(lia)) as [_ Hhot].
  pose proof (setTemp_clamps_or_clears (H := Header.ir_Sharp_h) ir_Sharp_h_temp_ok
                3 cool_state eq_refl ltac:(lia)) as [_ Hcold].
  pose proof (setTemp_clamps_or_clears (H := Header.ir_Sharp_h) ir_Sharp_h_temp_ok
                25 reset eq_refl ltac:(lia)) as [Hauto _].
  destruct (Hhot ltac:(vm_compute; discriminate) ltac:(vm_compute; discriminate))
    as [_ [_ [_ [_ [_ Hmax]]]]].
  destruct (Hcold ltac:(vm_compute; discriminate) ltac:(vm_compute; discriminate))
    as [_ [_ [_ [_ [Hmin _]]]]].
  destruct (Hauto ltac:(left; vm_compute; reflexivity)) as [Hzero _].
  split; [apply Hmax; vm_compute; discriminate|].
  split; [apply Hmin; vm_compute; discriminate|exact Hzero].
Defined.

(** ** The [switch] of [setMode] and of [setFan] *)

Section Switch.
Context {H : SharpAcHeader}.

Lemma setMode_cases (mode : Z) (remote : list Z) :
  setMode mode remote =
  match mode_switch mode with
  | CaseAuto =>
      store_mode mode
        (setTemp 0
           (byte_and kSharpAcBytePower (Z.lnot special)
              (byte_or kSharpAcBytePower special remote)))
  | CaseDry => store_mode mode (setTemp 0 (byte_or kSharpAcBytePower special remote))
  | CaseCoolHeat => store_mode mode (byte_or kSharpAcBytePower special remote)
  | CaseModeDefault => setMode kSharpAcAuto (byte_or kSharpAcBytePower special remote)
  end.
Proof.
  funelim (setMode mode remote);
    match goal with E : mode_switch _ = _ |- _ => rewrite E end; reflexivity.
Qed.

Lemma setFan_cases (speed : Z) (remote : list Z) :
  setFan speed remote =
  match fan_switch speed with
  | CaseFanAuto =>
      store_fan speed
        (byte_and kSharpAcByteManual (Z.lnot kSharpAcBitFanManual)
           (byte_or kSharpAcByteManual kSharpAcBitFanManual remote))
  | CaseFanSpeed =>
      store_fan speed (byte_or kSharpAcByteManual kSharpAcBitFanManual remote)
  | CaseFanDefault =>
      setFan kSharpAcFanAuto (byte_or kSharpAcByteManual kSharpAcBitFanManual remote)
  end.
Proof.
  funelim (setFan speed remote);
    match goal with E : fan_switch _ = _ |- _ => rewrite E end; reflexivity.
Qed.

Lemma mode_switch_auto : mode_switch kSharpAcAuto = CaseAuto.
Proof. unfold mode_switch. rewrite Z.eqb_refl. reflexivity. Qed.

Lemma fan_switch_auto : fan_switch kSharpAcFanAuto = CaseFanAuto.
Proof. unfold fan_switch. rewrite Z.eqb_refl. reflexivity. Qed.

Lemma setMode_auto (remote : list Z) :
  setMode kSharpAcAuto remote
  = store_mode kSharpAcAuto
      (setTemp 0
         (byte_and kSharpAcBytePower (Z.lnot special)
            (byte_or kSharpAcBytePower special remote))).
Proof. rewrite setMode_cases, mode_switch_auto. reflexivity. Qed.

Lemma setFan_auto (remote : list Z) :
  setFan kSharpAcFanAuto remote
  = store_fan kSharpAcFanAuto
      (byte_and kSharpAcByteManual (Z.lnot kSharpAcBitFanManual)
         (byte_or kSharpAcByteManual kSharpAcBitFanManual remote)).
Proof. rewrite setFan_cases, fan_switch_auto. reflexivity. Qed.

Lemma mode_switch_default (mode : Z) :
  mode <> kSharpAcAuto -> mode <> kSharpAcCool -> mode <> kSharpAcHeat ->
  mode <> kSharpAcDry -> mode_switch mode = CaseModeDefault.
Proof.
  intros Ha Hc Hh Hd. unfold mode_switch.
  destruct (Z.eqb_spec mode kSharpAcAuto); [contradiction|].
  destruct (Z.eqb_spec mode kSharpAcDry); [contradiction|].
  destruct (Z.eqb_spec mode kSharpAcCool); [contradiction|].
  destruct (Z.eqb_spec mode kSharpAcHeat); [contradiction|].
  reflexivity.
Qed.

Lemma fan_switch_default (speed : Z) :
  speed <> kSharpAcFanAuto -> speed <> kSharpAcFanMin -> speed <> kSharpAcFanMed ->
  speed <> kSharpAcFanHigh -> speed <> kSharpAcFanMax ->
  fan_switch speed = CaseFanDefault.
Proof.
  intros Ha Hmin Hmed Hhigh Hmax. unfold fan_switch.
  destruct (Z.eqb_spec speed kSharpAcFanAuto); [contradiction|].
  destruct (Z.eqb_spec speed kSharpAcFanMin); [contradiction|].
  destruct (Z.eqb_spec speed kSharpAcFanMed); [contradiction|].
  destruct (Z.eqb_spec speed kSharpAcFanHigh); [contradiction|].
  destruct (Z.eqb_spec speed kSharpAcFanMax); [contradiction|].
  reflexivity.
Qed.
End Switch.

Lemma u8_lor_u8 x v : u8 (Z.lor (u8 (Z.lor x v)) v) = u8 (Z.lor x v).
Proof.
  apply Z.bits_inj'. intros i Hi.
  rewrite !testbit_u8, !Z.lor_spec, testbit_u8, Z.lor_spec by exact Hi.
  destruct (i <? 8), (Z.testbit x i), (Z.testbit v i); reflexivity.
Qed.

(** Setting the same bits twice is setting them once. *)
Lemma byte_or_twice (i : nat) (v : Z) (remote : list Z) :
  byte_or i v (byte_or i v remote) = byte_or i v remote.
Proof.
  destruct (Nat.lt_ge_cases i (length remote)) as [Hlt|Hge].
  - unfold byte_or at 1. rewrite byte_or_same by exact Hlt.
    unfold byte_or. rewrite list_insert_insert_eq. rewrite u8_lor_u8. reflexivity.
  - unfold byte_or. rewrite !list_insert_ge by (rewrite ?length_insert; lia).
    reflexivity.
Qed.

Lemma stored_mode_reads (old a m : Z) :
  0 <= a < 256 -> Z.land a m = a ->
  u8 (Z.land (u8 (Z.lor (u8 (Z.land old (Z.lnot m))) a)) m) = a.
Proof.
  intros Ha Ham. apply Z.bits_inj'. intros i Hi.
  rewrite testbit_u8, Z.land_spec, testbit_u8, Z.lor_spec, testbit_u8, Z.land_spec,
    Z.lnot_spec by exact Hi.
  rewrite <- Ham at 1 2. rewrite Z.land_spec.
  destruct (Z.ltb_spec i 8).
  - destruct (Z.testbit old i), (Z.testbit a i), (Z.testbit m i); reflexivity.
  - rewrite (testbit_byte_high a i) by lia. reflexivity.
Qed.

(** C9: a mode outside Auto, Cool, Heat and Dry makes [setMode] do what
    [setMode kSharpAcAuto] does, and a fan speed outside Auto, Min, Med,
    High and Max makes [setFan] do what [setFan kSharpAcFanAuto] does;
    both give a state, there is no error result.  When the mode byte lies
    in the array and the Auto value fits the mode mask, the mode read back
    after such a call is Auto. *)
Theorem unknown_enumerator_falls_back {H : SharpAcHeader}
  (mode speed : Z) (remote : list Z) :
  (mode <> kSharpAcAuto -> mode <> kSharpAcCool -> mode <> kSharpAcHeat ->
   mode <> kSharpAcDry ->
   setMode mode remote = setMode kSharpAcAuto remote
   /\ ((kSharpAcByteMode < length remote)%nat -> 0 <= kSharpAcAuto < 256 ->
       Z.land kSharpAcAuto kSharpAcMaskMode = kSharpAcAuto ->
       getMode (setMode mode remote) = kSharpAcAuto))
  /\ (speed <> kSharpAcFanAuto -> speed <> kSharpAcFanMin ->
      speed <> kSharpAcFanMed -> speed <> kSharpAcFanHigh ->
      speed <> kSharpAcFanMax ->
      setFan speed remote = setFan kSharpAcFanAuto remote).
Proof.
  split.
  - intros Ha Hc Hh Hd.
    assert (Heq : setMode mode remote = setMode kSharpAcAuto remote).
    { rewrite (setMode_cases mode), mode_switch_default by assumption.
      rewrite !setMode_auto, byte_or_twice. reflexivity. }
    split; [exact Heq|].
    intros Hin Hauto Hfit. rewrite Heq, setMode_auto.
    unfold getMode, store_mode.
    set (r := setTemp 0 _).
    assert (Hr : (kSharpAcByteMode < length r)%nat).
    { unfold r, setTemp.
      destruct (_ || _); autorewrite with remote_len; exact Hin. }
    rewrite byte_or_same by (autorewrite with remote_len; exact Hr).
    rewrite byte_and_same by exact Hr.
    apply stored_mode_reads; assumption.
  - intros Ha Hmin Hmed Hhigh Hmax.
    rewrite (setFan_cases speed), fan_switch_default by assumption.
    rewrite !setFan_auto, byte_or_twice. reflexivity.
Qed.

Lemma unknown_enumerator_falls_back_witness :
  setMode (H := Header.ir_Sharp_h) 77 cool_state
    = setMode (H := Header.ir_Sharp_h) 0 cool_state
  /\ getMode (H := Header.ir_Sharp_h) (setMode (H := Header.ir_Sharp_h) 77 cool_state) = 0
  /\ setFan (H := Header.ir_Sharp_h) 9 cool_state
     = setFan (H := Header.ir_Sharp_h) 2 cool_state.
Proof.
  pose proof (unknown_enumerator_falls_back (H := Header.ir_Sharp_h) 77 9 cool_state)
    as [Hmode Hfan].
  destruct (Hmode ltac:(simpl; lia) ltac:(simpl; lia) ltac:(simpl; lia)
              ltac:(simpl; lia)) as [Heq Hget].
  split; [exact Heq|]. split.
  - apply Hget; [vm_compute; lia|simpl; lia|reflexivity].
  - apply Hfan; simpl; lia.
Defined.

Section SetModeAuto.
Context {H : SharpAcHeader}.
Hypothesis HOK : TempFieldOK H.
Hypothesis mode_temp_apart : kSharpAcByteMode <> kSharpAcByteTemp.
Hypothesis mode_manual_apart : kSharpAcByteMode <> kSharpAcByteManual.
Hypothesis power_mode_apart : kSharpAcBytePower <> kSharpAcByteMode.

(** After [setMode kSharpAcAuto], [getTemp] gives the minimum, whatever
    the state was. *)
Lemma setMode_auto_getTemp (remote : list Z) :
  length remote = 13%nat ->
  getTemp (setMode kSharpAcAuto remote) = kSharpAcMinTemp.
Proof using HOK mode_temp_apart.
  intros Hlen. rewrite setMode_auto.
  set (r := byte_and _ _ _).
  assert (Hr : length r = 13%nat)
    by (unfold r; autorewrite with remote_len; exact Hlen).
  rewrite <- (setTemp_getTemp_min HOK r Hr).
  unfold getTemp, store_mode.
  rewrite byte_or_other, byte_and_other by exact mode_temp_apart.
  reflexivity.
Qed.

(** From a mode that is neither Auto nor Dry, [setMode kSharpAcAuto]
    leaves the manual temperature flag set: [setTemp 0] runs before the
    new mode is stored. *)
Lemma setMode_auto_keeps_manual_flag (remote : list Z) :
  length remote = 13%nat ->
  getMode remote <> kSharpAcAuto -> getMode remote <> kSharpAcDry ->
  Z.land (setMode kSharpAcAuto remote !!! kSharpAcByteManual) kSharpAcBitTempManual
  = kSharpAcBitTempManual.
Proof using HOK mode_manual_apart power_mode_apart.
  intros Hlen Ha Hd. rewrite setMode_auto.
  set (r := byte_and _ _ _).
  assert (Hr : length r = 13%nat)
    by (unfold r; autorewrite with remote_len; exact Hlen).
  assert (Hmode : getMode r = getMode remote).
  { unfold getMode, r.
    rewrite byte_and_other, byte_or_other by exact power_mode_apart.
    reflexivity. }
  unfold store_mode.
  rewrite byte_or_other, byte_and_other by exact mode_manual_apart.
  apply (setTemp_other_manual_flag HOK); [exact Hr| |]; rewrite Hmode; assumption.
Qed.
End SetModeAuto.

(** C8, at the state left by [setMode kSharpAcCool] and [setTemp 25] on the
    reset state, with the constants of the library: [setMode kSharpAcAuto]
    and [setMode kSharpAcDry] leave the manual temperature flag set and
    the temperature byte at 0xC0 instead of clearing both, because
    [setTemp 0] runs while the array still holds the old mode.  [getTemp]
    gives the minimum and Auto clears the bit 0x20 of the power byte; a
    second [setMode kSharpAcAuto], run from Auto, does clear the manual
    byte. *)
Theorem setMode_auto_dry_after_cool :
  let H := Header.ir_Sharp_h in
  let cool25 := setTemp 25 cool_state in
  getMode cool25 = kSharpAcCool
  /\ getTemp cool25 = 25
  /\ getMode (setMode kSharpAcAuto cool25) = kSharpAcAuto
  /\ Z.land (setMode kSharpAcAuto cool25 !!! kSharpAcByteManual) kSharpAcBitTempManual
     = kSharpAcBitTempManual
  /\ setMode kSharpAcAuto cool25 !!! kSharpAcByteTemp = 0xC0
  /\ getTemp (setMode kSharpAcAuto cool25) = kSharpAcMinTemp
  /\ Z.land (setMode kSharpAcAuto cool25 !!! kSharpAcBytePower) special = 0
  /\ getMode (setMode kSharpAcDry cool25) = kSharpAcDry
  /\ Z.land (setMode kSharpAcDry cool25 !!! kSharpAcByteManual) kSharpAcBitTempManual
     = kSharpAcBitTempManual
  /\ setMode kSharpAcDry cool25 !!! kSharpAcByteTemp = 0xC0
  /\ setMode kSharpAcAuto (setMode kSharpAcAuto cool25) !!! kSharpAcByteManual = 0.
Proof. vm_compute. repeat split. Qed.

(** ** [sendSharpRaw] *)

Lemma toggle_twice (data : Z) :
  0 <= data < 2 ^ 64 ->
  u64 (Z.lxor (u64 (Z.lxor data kSharpToggleMask)) kSharpToggleMask) = data.
Proof.
  intros Hd.
  assert (Hm : 0 <= kSharpToggleMask < 2 ^ 64) by (vm_compute; split; congruence).
  rewrite (u64_small (Z.lxor data kSharpToggleMask)) by (apply lxor_range; lia).
  rewrite Z.lxor_assoc, Z.lxor_nilpotent, Z.lxor_0_r.
  apply u64_small. exact Hd.
Qed.

Lemma sendSharpRaw_inner_twice (nbits data : Z) (log : list GenericCall) :
  0 <= data < 2 ^ 64 ->
  sendSharpRaw_inner nbits (sendSharpRaw_inner nbits (log, data))
  = (log ++ frame_pair data nbits, data).
Proof.
  intros Hd. unfold sendSharpRaw_inner, frame_pair.
  rewrite toggle_twice by exact Hd. rewrite <- app_assoc. reflexivity.
Qed.

Lemma sendSharpRaw_loop_returns (nbits data repeat : Z) :
  0 <= data < 2 ^ 64 -> repeat < 65535 ->
  forall (k fuel : nat) (i : Z) (log : list GenericCall),
    0 <= i -> i + Z.of_nat k = repeat + 1 -> (k < fuel)%nat ->
    sendSharpRaw_loop fuel i repeat nbits (log, data)
    = Some (log ++ concat (replicate k (frame_pair data nbits)), data).
Proof.
  intros Hd Hr. induction k as [|k IH]; intros fuel i log Hi Hk Hfuel.
  - destruct fuel as [|fuel]; [lia|]. cbn [sendSharpRaw_loop].
    destruct (Z.leb_spec i repeat); [lia|]. rewrite app_nil_r. reflexivity.
  - destruct fuel as [|fuel]; [lia|]. cbn [sendSharpRaw_loop].
    destruct (Z.leb_spec i repeat); [|lia].
    rewrite sendSharpRaw_inner_twice by exact Hd.
    rewrite u16_small by lia.
    rewrite IH by lia. rewrite <- app_assoc. reflexivity.
Qed.

(** For every [repeat] below 65535 [sendSharpRaw] returns, given enough
    fuel, after [repeat + 1] repetitions of the pair of calls, with the
    data as it was. *)
Lemma sendSharpRaw_repeats (fuel : nat) (data nbits repeat : Z) :
  0 <= data < 2 ^ 64 -> 0 <= repeat < 65535 -> (Z.to_nat repeat + 1 < fuel)%nat ->
  sendSharpRaw fuel data nbits repeat
  = Some (concat (replicate (S (Z.to_nat repeat)) (frame_pair data nbits)), data).
Proof.
  intros Hd Hr Hfuel. unfold sendSharpRaw.
  rewrite (sendSharpRaw_loop_returns nbits data repeat Hd ltac:(lia)
             (S (Z.to_nat repeat)) fuel 0 []) by lia.
  reflexivity.
Qed.

(** Each call sends no header: the bits, the footer mark and the gap. *)
Lemma sendGeneric_sharp_call (data nbits : Z) :
  sendGeneric (sharp_call data nbits)
  = sendData kSharpBitMark kSharpOneSpace kSharpBitMark kSharpZeroSpace data
      (Z.to_nat nbits)
    ++ [kSharpBitMark; kSharpGap].
Proof.
  unfold sendGeneric, sendGeneric_once. simpl. rewrite app_nil_r. reflexivity.
Qed.

Lemma sendSharpRaw_loop_never_ends (nbits : Z) :
  forall (fuel : nat) (i : Z) (st : list GenericCall * Z),
    0 <= i < 65536 -> sendSharpRaw_loop fuel i 65535 nbits st = None.
Proof.
  induction fuel as [|fuel IH]; intros i st Hi; cbn [sendSharpRaw_loop]; [reflexivity|].
  destruct (Z.leb_spec i 65535); [|lia].
  apply IH. unfold u16, wrap. apply Z.mod_pos_bound. reflexivity.
Qed.

(** C5, at [repeat = 65535]: the 16-bit loop counter can never exceed
    [repeat], so the loop of [sendSharpRaw] does not end, whatever the
    fuel: the call never completes and the number of repetitions is not
    [repeat + 1]. *)
Theorem sendSharpRaw_repeat_max_never_returns (fuel : nat) (data nbits : Z) :
  sendSharpRaw fuel data nbits 65535 = None.
Proof.
  unfold sendSharpRaw. apply sendSharpRaw_loop_never_ends. lia.
Qed.

(** ** Decoding what was sent *)

Lemma shift_one_in (acc : Z) (b : bool) :
  0 <= acc < 2 ^ 63 ->
  (if b then Z.lor (u64 (Z.shiftl acc 1)) 1 else u64 (Z.shiftl acc 1))
  = 2 * acc + Z.b2z b.
Proof.
  intros Hacc. rewrite Z.shiftl_mul_pow2 by lia. change (2 ^ 1) with 2.
  rewrite u64_small by lia.
  destruct b; simpl; [|lia].
  assert (Hland : Z.land (acc * 2) 1 = 0).
  { change 1 with (Z.ones 1). rewrite Z.land_ones by lia.
    change (2 ^ 1) with 2. apply Z.mod_mul. lia. }
  rewrite <- Z.lxor_lor by exact Hland.
  rewrite <- Z.add_nocarry_lxor by exact Hland. lia.
Qed.

Lemma mod_pow2_succ (d : Z) (n : nat) :
  d mod 2 ^ Z.of_nat (S n)
  = Z.b2z (Z.testbit d (Z.of_nat n)) * 2 ^ Z.of_nat n + d mod 2 ^ Z.of_nat n.
Proof.
  rewrite Nat2Z.inj_succ, Z.pow_succ_r by lia.
  rewrite (Z.mul_comm 2), Z.rem_mul_r by lia.
  rewrite Z.testbit_spec' by lia. lia.
Qed.

Lemma shift_in_value (d : Z) : forall (n : nat) (acc k : Z),
  0 <= k -> 0 <= acc < 2 ^ k -> k + Z.of_nat n <= 64 ->
  shift_in acc d n = acc * 2 ^ Z.of_nat n + d mod 2 ^ Z.of_nat n.
Proof.
  induction n as [|n IH]; intros acc k Hk Hacc Hn.
  - simpl. rewrite Z.mod_1_r. lia.
  - cbn [shift_in].
    assert (Hpow : 2 ^ k <= 2 ^ 63) by (apply Z.pow_le_mono_r; lia).
    rewrite shift_one_in by lia.
    rewrite (IH _ (k + 1)).
    + rewrite mod_pow2_succ, Nat2Z.inj_succ, Z.pow_succ_r by lia. ring.
    + lia.
    + rewrite Z.pow_add_r by lia. change (2 ^ 1) with 2.
      destruct (Z.testbit d (Z.of_nat n)); simpl; lia.
    + lia.
Qed.

Lemma sendData_length (om os zm zs d : Z) (n : nat) :
  length (sendData om os zm zs d n) = (2 * n)%nat.
Proof.
  induction n as [|n IH]; simpl; [reflexivity|].
  destruct (Z.testbit d (Z.of_nat n)); simpl; rewrite IH; lia.
Qed.

Lemma sendData_map (f : Z -> Z) (om os zm zs d : Z) (n : nat) :
  map f (sendData om os zm zs d n) = sendData (f om) (f os) (f zm) (f zs) d n.
Proof.
  induction n as [|n IH]; simpl; [reflexivity|].
  rewrite map_app, IH. destruct (Z.testbit d (Z.of_nat n)); reflexivity.
Qed.

Lemma rawbuf_at_middle (results : decode_results) (pre post : list Z) (x : Z) :
  rawbuf results = pre ++ x :: post ->
  rawbuf_at results (Z.of_nat (length pre)) = x.
Proof.
  intros Hbuf. unfold rawbuf_at. rewrite Hbuf, Nat2Z.id.
  apply list_lookup_total_middle. reflexivity.
Qed.

Lemma rawbuf_at_middle_next (results : decode_results) (pre post : list Z) (x y : Z) :
  rawbuf results = pre ++ x :: y :: post ->
  rawbuf_at results (Z.of_nat (length pre) + 1) = y.
Proof.
  intros Hbuf.
  replace (Z.of_nat (length pre) + 1) with (Z.of_nat (length (pre ++ [x])))
    by (rewrite length_app; simpl; lia).
  apply (rawbuf_at_middle results (pre ++ [x]) post).
  rewrite Hbuf, <- app_assoc. reflexivity.
Qed.

Section RoundTrip.
Context {L : IRrecvLayer}.
Variable UNIT_TEST : bool.
Hypothesis Hlink : SharpLink L.

Lemma calibrated_tick :
  u32 (to_raw kSharpBitMark * kRawTick / kSharpBitMarkTicks) = kSharpTick.
Proof.
  destruct Hlink as [_ _ Hpos [q Hq] _ _ _ _ _ _ _].
  assert (Hq26 : 0 < q <= 26) by (unfold kSharpTick in Hq; nia).
  assert (H260 : kSharpBitMark = 10 * q * kRawTick).
  { change kSharpBitMark with (10 * kSharpTick). rewrite Hq. ring. }
  unfold to_raw. rewrite H260, Z.div_mul by lia.
  rewrite Z.min_l by lia. rewrite <- H260. reflexivity.
Qed.

Lemma decodeSharp_data_reads (results : decode_results) (d : Z) :
  forall (n : nat) (pre post : list Z) (acc : Z),
    rawbuf results
    = pre ++ sendData (to_raw kSharpBitMark) (to_raw kSharpOneSpace)
               (to_raw kSharpBitMark) (to_raw kSharpZeroSpace) d n ++ post ->
    Z.of_nat (length pre) + 2 * Z.of_nat n < 65536 ->
    decodeSharp_data results kSharpTick n (Z.of_nat (length pre)) acc
    = Some (Z.of_nat (length pre) + 2 * Z.of_nat n, shift_in acc d n).
Proof.
  destruct Hlink as [_ _ _ _ Hmark Hone Hnot Hzero _ _ _].
  induction n as [|n IH]; intros pre post acc Hbuf Hlen.
  - simpl. f_equal. f_equal. lia.
  - cbn [decodeSharp_data shift_in].
    change (u32 (kSharpBitMarkTicks * kSharpTick)) with kSharpBitMark.
    change (u32 (kSharpOneSpaceTicks * kSharpTick)) with kSharpOneSpace.
    change (u32 (kSharpZeroSpaceTicks * kSharpTick)) with kSharpZeroSpace.
    cbn [sendData] in Hbuf.
    rewrite (u16_small (Z.of_nat (length pre) + 1)) by lia.
    rewrite (u16_small (Z.of_nat (length pre) + 1 + 1)) by lia.
    destruct (Z.testbit d (Z.of_nat n)); simpl in Hbuf.
    + rewrite (rawbuf_at_middle _ _ _ _ Hbuf), Hmark. simpl.
      rewrite (rawbuf_at_middle_next _ _ _ _ _ Hbuf), Hone.
      replace (Z.of_nat (length pre) + 1 + 1)
        with (Z.of_nat (length (pre ++ [to_raw kSharpBitMark; to_raw kSharpOneSpace])))
        by (rewrite length_app; simpl; lia).
      rewrite (IH _ post).
      * f_equal. f_equal. rewrite length_app. simpl. lia.
      * rewrite Hbuf, <- app_assoc. reflexivity.
      * rewrite length_app. simpl. lia.
    + rewrite (rawbuf_at_middle _ _ _ _ Hbuf), Hmark. simpl.
      rewrite (rawbuf_at_middle_next _ _ _ _ _ Hbuf), Hnot, Hzero.
      replace (Z.of_nat (length pre) + 1 + 1)
        with (Z.of_nat (length (pre ++ [to_raw kSharpBitMark; to_raw kSharpZeroSpace])))
        by (rewrite length_app; simpl; lia).
      rewrite (IH _ post).
      * f_equal. f_equal. rewrite length_app. simpl. lia.
      * rewrite Hbuf, <- app_assoc. reflexivity.
      * rewrite length_app. simpl. lia.
Qed.

(** The footer check passes on the mark and the gap that end a
    half-frame. *)
Lemma decodeSharp_footer_reads (results : decode_results) (pre post : list Z) :
  rawbuf results = pre ++ to_raw kSharpBitMark :: to_raw kSharpGap :: post ->
  Z.of_nat (length pre) + 1 < 65536 ->
  decodeSharp_footer results kSharpTick (Z.of_nat (length pre))
  = Some (Z.of_nat (length pre) + 1).
Proof.
  destruct Hlink as [_ _ _ _ _ _ _ _ Hfoot Hgap _].
  intros Hbuf Hlen. unfold decodeSharp_footer.
  change (u32 (kSharpBitMarkTicks * kSharpTick)) with kSharpBitMark.
  change (u32 (kSharpGapTicks * kSharpTick)) with kSharpGap.
  rewrite (rawbuf_at_middle _ _ _ _ Hbuf), Hfoot. simpl.
  rewrite u16_small by lia.
  rewrite (rawbuf_at_middle_next _ _ _ _ _ Hbuf), Hgap. simpl.
  rewrite andb_false_r. reflexivity.
Qed.
End RoundTrip.

Lemma frame_fields_ok_all :
  forallb (fun a =>
    forallb (fun c => frame_fields_ok (Z.of_nat a) (Z.of_nat c) false
                      && frame_fields_ok (Z.of_nat a) (Z.of_nat c) true)
      (seq 0 256))
    (seq 0 32) = true.
Proof. vm_compute. reflexivity. Qed.

Lemma frame_fields (a c : Z) (e : bool) :
  0 <= a < 2 ^ 5 -> 0 <= c < 2 ^ 8 ->
  let d := encodeSharp a c (Z.b2z e) 0 false in
  0 <= d < 2 ^ 15
  /\ u32 (Z.land (reverseBits d kSharpBits) kSharpAddressMask) = a
  /\ u32 (reverseBits (Z.land (Z.shiftr d 2) kSharpCommandMask) kSharpCommandBits) = c
  /\ Z.shiftr (Z.land d 2) 1 = Z.b2z e
  /\ Z.land d 1 = 0.
Proof.
  intros Ha Hc d.
  pose proof frame_fields_ok_all as Hall.
  rewrite forallb_forall in Hall.
  specialize (Hall (Z.to_nat a)). rewrite in_seq in Hall.
  specialize (Hall ltac:(change (2 ^ 5) with 32 in Ha; lia)).
  rewrite forallb_forall in Hall.
  specialize (Hall (Z.to_nat c)). rewrite in_seq in Hall.
  specialize (Hall ltac:(change (2 ^ 8) with 256 in Hc; lia)).
  rewrite !Z2Nat.id in Hall by lia.
  assert (Hok : frame_fields_ok a c e = true).
  { apply andb_prop in Hall. destruct Hall as [Hf Ht]. destruct e; assumption. }
  unfold frame_fields_ok in Hok. fold d in Hok.
  repeat (apply andb_prop in Hok; destruct Hok as [Hok ?]).
  repeat match goal with
         | E : (_ =? _) = true |- _ => apply Z.eqb_eq in E
         | E : (_ <=? _) = true |- _ => apply Z.leb_le in E
         | E : (_ <? _) = true |- _ => apply Z.ltb_lt in E
         end.
  repeat split; assumption.
Qed.

Section TwoFrames.
Context {L : IRrecvLayer}.
Variable UNIT_TEST : bool.
Hypothesis Hlink : SharpLink L.

Variable results : decode_results.
Variable d : Z.
Hypothesis Hd : 0 <= d < 2 ^ 15.

Hypothesis Hbuf :
  rawbuf results
  = [0] ++ sent_frame d ++ raw_footer ++ sent_frame (inverted d) ++ raw_footer.

Lemma inverted_frame :
  0 <= inverted d < 2 ^ 15 /\ Z.lxor (inverted d) kSharpToggleMask = d.
Proof using Hd.
  assert (Hm : 0 <= kSharpToggleMask < 2 ^ 15) by (vm_compute; split; congruence).
  assert (Hx : 0 <= Z.lxor d kSharpToggleMask < 2 ^ 15)
    by (apply lxor_range; lia).
  unfold inverted. rewrite u64_small by lia.
  split; [exact Hx|].
  rewrite Z.lxor_assoc, Z.lxor_nilpotent. apply Z.lxor_0_r.
Qed.

Lemma sent_frame_length (x : Z) : Z.of_nat (length (sent_frame x)) = 30.
Proof. unfold sent_frame. rewrite sendData_length. reflexivity. Qed.

Lemma sent_frame_value (x : Z) :
  0 <= x < 2 ^ 15 -> shift_in 0 x (Z.to_nat kSharpBits) = x.
Proof.
  intros Hx. rewrite (shift_in_value x _ 0 0) by (unfold kSharpBits; simpl; lia).
  change (Z.of_nat (Z.to_nat kSharpBits)) with 15.
  rewrite Z.mod_small by exact Hx. lia.
Qed.

Lemma first_mark : rawbuf_at results 1 = to_raw kSharpBitMark.
Proof using Hbuf.
  unfold sent_frame in Hbuf.
  change (Z.to_nat kSharpBits) with 15%nat in Hbuf. cbn [sendData] in Hbuf.
  destruct (Z.testbit d (Z.of_nat 14));
    exact (rawbuf_at_middle results [0] _ _ Hbuf).
Qed.

Lemma first_data :
  decodeSharp_data results kSharpTick (Z.to_nat kSharpBits) 1 0 = Some (31, d).
Proof using Hlink Hd Hbuf.
  rewrite <- (sent_frame_value d Hd) at 1.
  exact (decodeSharp_data_reads Hlink results d (Z.to_nat kSharpBits) [0] _ 0
           Hbuf ltac:(vm_compute; reflexivity)).
Qed.

Lemma first_footer : decodeSharp_footer results kSharpTick 31 = Some 32.
Proof using Hlink Hbuf.
  assert (Hlen : Z.of_nat (length ([0] ++ sent_frame d)) = 31)
    by (rewrite length_app, Nat2Z.inj_add, sent_frame_length; reflexivity).
  pose proof (decodeSharp_footer_reads Hlink results ([0] ++ sent_frame d)
                (sent_frame (inverted d) ++ raw_footer)) as Hf.
  rewrite Hlen in Hf. apply Hf; [|lia].
  rewrite Hbuf, <- !app_assoc. reflexivity.
Qed.

Lemma second_gap : rawbuf_at results 32 = to_raw kSharpGap.
Proof using Hbuf.
  assert (Hlen : Z.of_nat (length ([0] ++ sent_frame d)) = 31)
    by (rewrite length_app, Nat2Z.inj_add, sent_frame_length; reflexivity).
  pose proof (rawbuf_at_middle_next results ([0] ++ sent_frame d)
                (sent_frame (inverted d) ++ raw_footer)
                (to_raw kSharpBitMark) (to_raw kSharpGap))
    as Hg.
  rewrite Hlen in Hg. apply Hg.
  rewrite Hbuf, <- !app_assoc. reflexivity.
Qed.

Lemma second_data :
  decodeSharp_data results kSharpTick (Z.to_nat kSharpBits) 33 0
  = Some (63, inverted d).
Proof using Hlink Hd Hbuf.
  assert (Hlen : Z.of_nat (length ([0] ++ sent_frame d ++ raw_footer)) = 33)
    by (rewrite !length_app, !Nat2Z.inj_add, sent_frame_length; reflexivity).
  pose proof (decodeSharp_data_reads Hlink results (inverted d) (Z.to_nat kSharpBits)
                ([0] ++ sent_frame d ++ raw_footer) raw_footer 0) as Hr.
  rewrite Hlen in Hr.
  rewrite (sent_frame_value (inverted d) (proj1 inverted_frame)) in Hr.
  apply Hr; [|vm_compute; reflexivity].
  rewrite Hbuf, <- !app_assoc. reflexivity.
Qed.

Lemma second_footer : decodeSharp_footer results kSharpTick 63 = Some 64.
Proof using Hlink Hbuf.
  assert (Hlen : Z.of_nat (length ([0] ++ sent_frame d ++ raw_footer
                                     ++ sent_frame (inverted d))) = 63)
    by (rewrite !length_app, !Nat2Z.inj_add, !sent_frame_length; reflexivity).
  pose proof (decodeSharp_footer_reads Hlink results
                ([0] ++ sent_frame d ++ raw_footer ++ sent_frame (inverted d)) [])
    as Hf.
  rewrite Hlen in Hf. apply Hf; [|lia].
  rewrite Hbuf, <- !app_assoc. reflexivity.
Qed.

Lemma second_frame :
  decodeSharp_second results kSharpTick kSharpBits 32 d = Some (inverted d).
Proof using Hlink Hd Hbuf.
  destruct Hlink as [_ _ _ _ _ _ _ _ _ _ Hspace].
  unfold decodeSharp_second.
  change (u32 (kSharpGapTicks * kSharpTick)) with kSharpGap.
  rewrite second_gap, Hspace. simpl negb. cbv iota.
  change (u16 (32 + 1)) with 33.
  rewrite second_data, second_footer.
  rewrite (proj2 inverted_frame), Z.eqb_refl. reflexivity.
Qed.

Lemma two_frames_match (e : bool) :
  rawlen results = 65 ->
  Z.shiftr (Z.land d 2) 1 = Z.b2z e -> Z.land d 1 = 0 ->
  decodeSharp_match UNIT_TEST results kSharpBits true e = Some d.
Proof using Hlink Hd Hbuf.
  intros Hlen He Hcheck. unfold decodeSharp_match.
  rewrite Hlen, (link_footer Hlink), (link_start Hlink).
  change (65 <? 2 * kSharpBits + 2 - 1) with false.
  change (65 <? 2 * (2 * kSharpBits + 2)) with false.
  rewrite Z.eqb_refl, andb_false_r. cbv iota. simpl andb. cbv iota.
  rewrite first_mark, (link_mark Hlink). simpl negb. cbv iota.
  rewrite (calibrated_tick Hlink).
  rewrite first_data, first_footer.
  rewrite He, Hcheck, !Z.eqb_refl. simpl negb. cbv iota.
  rewrite second_frame. destruct UNIT_TEST; reflexivity.
Qed.
End TwoFrames.

Lemma capture_frame_pair {L : IRrecvLayer} (results : decode_results) (d : Z) :
  rawbuf (capture (transmit (frame_pair d kSharpBits)) results)
  = [0] ++ sent_frame d ++ [to_raw kSharpBitMark; to_raw kSharpGap]
      ++ sent_frame (u64 (Z.lxor d kSharpToggleMask))
      ++ [to_raw kSharpBitMark; to_raw kSharpGap]
  /\ rawlen (capture (transmit (frame_pair d kSharpBits)) results) = 65.
Proof.
  assert (Hbuf : 0 :: map to_raw (transmit (frame_pair d kSharpBits))
                 = [0] ++ sent_frame d ++ [to_raw kSharpBitMark; to_raw kSharpGap]
                     ++ sent_frame (u64 (Z.lxor d kSharpToggleMask))
                     ++ [to_raw kSharpBitMark; to_raw kSharpGap]).
  { unfold transmit, frame_pair. cbn [map concat].
    rewrite !sendGeneric_sharp_call, app_nil_r, !map_app, !sendData_map.
    rewrite <- app_assoc. reflexivity. }
  unfold capture. cbn [rawbuf rawlen]. rewrite Hbuf. split; [reflexivity|].
  rewrite !length_app. unfold sent_frame. rewrite !sendData_length. reflexivity.
Qed.

(** C1: for every address below 2^5, command below 2^8 and expansion bit,
    with the check bit 0, the frame [encodeSharp address command expansion
    check false] sent by [sendSharpRaw] with [kSharpBits] bits and no
    repeat gives a pulse train whose capture [decodeSharp] accepts in
    strict mode, when asked for that expansion bit, with the address and
    the command that were encoded; this holds with and without UNIT_TEST,
    on every timing layer that accepts the nominal durations of the
    protocol. *)
Theorem sharp_round_trip {L : IRrecvLayer} (UNIT_TEST : bool) (fuel : nat)
  (a c check : Z) (e : bool) (results : decode_results) :
  SharpLink L -> (2 <= fuel)%nat ->
  0 <= a < 2 ^ 5 -> 0 <= c < 2 ^ 8 -> check = 0 ->
  let d := encodeSharp a c (Z.b2z e) check false in
  let log := frame_pair d kSharpBits in
  let out := decodeSharp UNIT_TEST (capture (transmit log) results) kSharpBits true e in
  sendSharpRaw fuel d kSharpBits 0 = Some (log, d)
  /\ fst out = true
  /\ address (snd out) = a
  /\ command (snd out) = c
  /\ value (snd out) = d
  /\ bits (snd out) = kSharpBits
  /\ decode_type (snd out) = SHARP.
Proof.
  intros Hlink Hfuel Ha Hc -> d log out.
  destruct (frame_fields a c e Ha Hc) as [Hd [Haddr [Hcmd [Hexp Hcheck]]]].
  fold d in Hd, Haddr, Hcmd, Hexp, Hcheck.
  split.
  - rewrite sendSharpRaw_repeats by (simpl; lia).
    reflexivity.
  - destruct (capture_frame_pair results d) as [Hbuf Hlen].
    assert (Hm : decodeSharp_match UNIT_TEST (capture (transmit log) results)
                   kSharpBits true e = Some d)
      by (apply two_frames_match; assumption).
    unfold out, decodeSharp. rewrite Hm.
    cbn [fst snd address command value bits decode_type].
    repeat split; assumption.
Qed.

Lemma timing_layer_link : SharpLink Timing.layer.
Proof.
  constructor; try reflexivity.
  exists 13. reflexivity.
Qed.

Lemma sharp_round_trip_witness :
  let out :=
    decodeSharp (L := Timing.layer) true
      (capture (L := Timing.layer)
         (transmit (frame_pair (encodeSharp 0x1F 0x3A 1 0 false) kSharpBits)) blank)
      kSharpBits true true in
  fst out = true /\ address (snd out) = 0x1F /\ command (snd out) = 0x3A.
Proof.
  pose proof (sharp_round_trip (L := Timing.layer) true 2 0x1F 0x3A 0 true blank
                timing_layer_link ltac:(lia) ltac:(simpl; lia) ltac:(simpl; lia)
                eq_refl)
    as [_ [Hok [Haddr [Hcmd _]]]].
  split; [exact Hok|]. split; [exact Haddr|exact Hcmd].
Defined.

(** With the check bit set the frame is sent all the same, and strict
    decoding turns it down. *)
Example strict_rejects_check_bit :
  fst (decodeSharp (L := Timing.layer) true
         (capture (L := Timing.layer)
            (transmit (frame_pair (encodeSharp 0x1F 0x3A 1 1 false) kSharpBits)) blank)
         kSharpBits true true) = false.
Proof. vm_compute. reflexivity. Qed.

(** ** What strict mode checks *)

Section Strict.
Context {L : IRrecvLayer}.
Variable UNIT_TEST : bool.

Lemma decodeSharp_match_strict (results : decode_results) (nbits data : Z)
  (expansion : bool) :
  decodeSharp_match UNIT_TEST results nbits true expansion = Some data ->
  nbits = kSharpBits
  /\ 2 * nbits + kFooter - 1 <= rawlen results
  /\ Z.shiftr (Z.land data 2) 1 = Z.b2z expansion
  /\ Z.land data 1 = 0
  /\ (UNIT_TEST = true ->
      2 * (2 * nbits + kFooter) <= rawlen results
      /\ exists tick offset second,
           decodeSharp_second results tick nbits offset data = Some second).
Proof.
  unfold decodeSharp_match. intros Hm.
  destruct (Z.ltb_spec (rawlen results) (2 * nbits + kFooter - 1)) as [|Hlen1];
    [discriminate Hm|].
  simpl andb in Hm.
  destruct (Z.eqb_spec nbits kSharpBits) as [Hn|]; [|discriminate Hm].
  simpl negb in Hm. cbv iota in Hm.
  destruct (UNIT_TEST && (rawlen results <? 2 * (2 * nbits + kFooter))) eqn:Hlen2;
    [discriminate Hm|].
  destruct (negb (matchMark _ _ _)); [discriminate Hm|].
  destruct (decodeSharp_data _ _ _ _ _) as [[offset data0]|]; [|discriminate Hm].
  destruct (decodeSharp_footer _ _ _) as [offset1|]; [|discriminate Hm].
  destruct (Z.eqb_spec (Z.shiftr (Z.land data0 2) 1) (Z.b2z expansion)) as [He|];
    [|discriminate Hm].
  destruct (Z.eqb_spec (Z.land data0 1) 0) as [Hc|]; [|discriminate Hm].
  simpl negb in Hm. cbv iota in Hm.
  destruct UNIT_TEST.
  - destruct (decodeSharp_second _ _ _ _ _) as [second|] eqn:Hs; [|discriminate Hm].
    injection Hm as <-.
    split; [exact Hn|]. split; [exact Hlen1|]. split; [exact He|].
    split; [exact Hc|]. intros _. split.
    + simpl in Hlen2. apply Z.ltb_ge in Hlen2. exact Hlen2.
    + eexists _, _, second. exact Hs.
  - injection Hm as <-.
    split; [exact Hn|]. split; [exact Hlen1|]. split; [exact He|].
    split; [exact Hc|]. discriminate.
Qed.

(** What [decodeSharp_second] has checked when it gives a value: the gap
    at [offset], the data loop from the entry after it, the footer where
    that loop stopped, and the comparison. *)
Lemma decodeSharp_second_reads (results : decode_results)
  (tick nbits offset data second : Z) :
  decodeSharp_second results tick nbits offset data = Some second ->
  matchSpace (rawbuf_at results offset) (u32 (kSharpGapTicks * tick)) = true
  /\ exists offset3 offset4,
       decodeSharp_data results tick (Z.to_nat nbits) (u16 (offset + 1)) 0
       = Some (offset3, second)
       /\ decodeSharp_footer results tick offset3 = Some offset4
       /\ data = Z.lxor second kSharpToggleMask.
Proof.
  unfold decodeSharp_second. intros Hs.
  destruct (matchSpace _ _); [|discriminate Hs]. simpl in Hs.
  destruct (decodeSharp_data _ _ _ _ _) as [[offset3 second']|]; [|discriminate Hs].
  destruct (decodeSharp_footer _ _ _) as [offset4|] eqn:Hf; [|discriminate Hs].
  destruct (Z.eqb_spec data (Z.lxor second' kSharpToggleMask)) as [Heq|];
    [|discriminate Hs].
  simpl in Hs. injection Hs as <-.
  split; [reflexivity|]. exists offset3, offset4.
  split; [reflexivity|]. split; [exact Hf|exact Heq].
Qed.

(** The path of a strict [decodeSharp] that reaches the success part: each
    read is made with the tick calibrated on the first mark, the second
    frame at the offset left by the footer of the first. *)
Lemma decodeSharp_match_strict_path (results : decode_results) (nbits data : Z)
  (expansion : bool) :
  decodeSharp_match UNIT_TEST results nbits true expansion = Some data ->
  let tick := u32 (rawbuf_at results kStartOffset * kRawTick / kSharpBitMarkTicks) in
  matchMark (rawbuf_at results kStartOffset) kSharpBitMark 35 = true
  /\ exists offset1 offset2,
       decodeSharp_data results tick (Z.to_nat nbits) kStartOffset 0
       = Some (offset1, data)
       /\ decodeSharp_footer results tick offset1 = Some offset2
       /\ (UNIT_TEST = true ->
           decodeSharp_second results tick nbits offset2 data <> None).
Proof.
  intros Hm tick. unfold decodeSharp_match in Hm.
  destruct (rawlen results <? 2 * nbits + kFooter - 1); [discriminate Hm|].
  destruct (true && negb (nbits =? kSharpBits)); [discriminate Hm|].
  destruct (true && UNIT_TEST && (rawlen results <? 2 * (2 * nbits + kFooter)));
    [discriminate Hm|].
  cbv zeta in Hm. fold tick in Hm.
  destruct (matchMark _ _ _); [|discriminate Hm]. simpl negb in Hm. cbv iota in Hm.
  destruct (decodeSharp_data results tick (Z.to_nat nbits) kStartOffset 0)
    as [[offset1 data0]|] eqn:Hd1; [|discriminate Hm].
  destruct (decodeSharp_footer results tick offset1) as [offset2|] eqn:Hf1;
    [|discriminate Hm].
  destruct (negb (Z.shiftr (Z.land data0 2) 1 =? Z.b2z expansion));
    [discriminate Hm|].
  destruct (negb (Z.land data0 1 =? 0)); [discriminate Hm|].
  split; [reflexivity|]. exists offset1, offset2.
  destruct UNIT_TEST.
  - destruct (decodeSharp_second results tick nbits offset2 data0) as [second|] eqn:Hs;
      [|discriminate Hm].
    injection Hm as <-.
    split; [reflexivity|]. split; [exact Hf1|].
    intros _. rewrite Hs. discriminate.
  - injection Hm as <-.
    split; [reflexivity|]. split; [exact Hf1|]. discriminate.
Qed.
End Strict.

(** C4, as stated, fails in a build without UNIT_TEST, where the checks of
    the second frame are compiled out: strict mode accepts the capture of
    a single half-frame, which is shorter than two frames, and accepts a
    capture whose second half-frame repeats the first instead of
    inverting it, one that the check of the second frame turns down. *)
Lemma strict_without_unit_test_skips_second_frame :
  let d := encodeSharp 0x1F 0x3A 1 0 false in
  let one := capture (L := Timing.layer) (transmit [sharp_call d kSharpBits]) blank in
  let same :=
    capture (L := Timing.layer)
      (transmit [sharp_call d kSharpBits; sharp_call d kSharpBits]) blank in
  rawlen one < 2 * (2 * kSharpBits + kFooter (IRrecvLayer := Timing.layer))
  /\ fst (decodeSharp (L := Timing.layer) false one kSharpBits true true) = true
  /\ fst (decodeSharp (L := Timing.layer) false same kSharpBits true true) = true
  /\ decodeSharp_second (L := Timing.layer) same kSharpTick kSharpBits 32 d = None
  /\ fst (decodeSharp (L := Timing.layer) true same kSharpBits true true) = false.
Proof. vm_compute. repeat split. Qed.

(** C4, amended: in strict mode [decodeSharp] succeeds only when [nbits]
    is [kSharpBits], the capture holds one frame, the first entry is a
    bit mark, the data loop run from that entry with the tick calibrated
    on it gives the value, the footer follows, bit 1 of the value is the
    expected expansion bit and bit 0, the check bit, is zero; in a build
    with UNIT_TEST it succeeds only when, besides, the capture is long
    enough for two frames and the second frame, read with the same tick
    from the entry where the footer of the first ended (the gap, the data
    loop, the footer), decodes to a value whose xor with
    [kSharpToggleMask] is the first. *)
Theorem strict_mode_checks {L : IRrecvLayer} (UNIT_TEST : bool)
  (results : decode_results) (nbits : Z) (expansion : bool) :
  fst (decodeSharp UNIT_TEST results nbits true expansion) = true ->
  let v := value (snd (decodeSharp UNIT_TEST results nbits true expansion)) in
  let tick := u32 (rawbuf_at results kStartOffset * kRawTick / kSharpBitMarkTicks) in
  nbits = kSharpBits
  /\ 2 * nbits + kFooter - 1 <= rawlen results
  /\ Z.shiftr (Z.land v 2) 1 = Z.b2z expansion
  /\ Z.land v 1 = 0
  /\ matchMark (rawbuf_at results kStartOffset) kSharpBitMark 35 = true
  /\ exists offset1 offset2,
       decodeSharp_data results tick (Z.to_nat nbits) kStartOffset 0
       = Some (offset1, v)
       /\ decodeSharp_footer results tick offset1 = Some offset2
       /\ (UNIT_TEST = true ->
           2 * (2 * nbits + kFooter) <= rawlen results
           /\ matchSpace (rawbuf_at results offset2) (u32 (kSharpGapTicks * tick))
              = true
           /\ exists offset3 offset4 second,
                decodeSharp_data results tick (Z.to_nat nbits) (u16 (offset2 + 1)) 0
                = Some (offset3, second)
                /\ decodeSharp_footer results tick offset3 = Some offset4
                /\ v = Z.lxor second kSharpToggleMask).
Proof.
  unfold decodeSharp.
  destruct (decodeSharp_match UNIT_TEST results nbits true expansion) as [data|] eqn:Hm;
    [|simpl; discriminate].
  intros _. cbn [snd value]. cbv zeta.
  destruct (decodeSharp_match_strict UNIT_TEST results nbits data expansion Hm)
    as [Hn [Hlen [He [Hc Hsecond]]]].
  destruct (decodeSharp_match_strict_path UNIT_TEST results nbits data expansion Hm)
    as [Hmark [offset1 [offset2 [Hdata [Hfooter Hpath]]]]].
  split; [exact Hn|]. split; [exact Hlen|]. split; [exact He|].
  split; [exact Hc|]. split; [exact Hmark|].
  exists offset1, offset2.
  split; [exact Hdata|]. split; [exact Hfooter|]. intros Hbuild.
  destruct (Hsecond Hbuild) as [Hlen2 _].
  split; [exact Hlen2|].
  specialize (Hpath Hbuild).
  destruct (decodeSharp_second results _ nbits offset2 data) as [second|] eqn:Hs;
    [|contradiction].
  apply decodeSharp_second_reads in Hs.
  destruct Hs as [Hgap [offset3 [offset4 [Hdata2 [Hfooter2 Hinv]]]]].
  split; [exact Hgap|]. exists offset3, offset4, second.
  split; [exact Hdata2|]. split; [exact Hfooter2|exact Hinv].
Qed.

Lemma strict_mode_checks_witness :
  let d := encodeSharp 0x1F 0x3A 1 0 false in
  let results := capture (L := Timing.layer) (transmit (frame_pair d kSharpBits)) blank in
  64 <= rawlen results
  /\ exists second,
       value (snd (decodeSharp (L := Timing.layer) true results kSharpBits true true))
       = Z.lxor second kSharpToggleMask.
Proof.
  intros d results.
  pose proof (strict_mode_checks (L := Timing.layer) true results kSharpBits true
                ltac:(vm_compute; reflexivity))
    as [_ [_ [_ [_ [_ [offset1 [offset2 [_ [_ Hsecond]]]]]]]]].
  destruct (Hsecond eq_refl)
    as [Hlen [_ [offset3 [offset4 [second [_ [_ Hinv]]]]]]].
  split; [exact Hlen|]. exists second. exact Hinv.
Defined.

(** ** What a failed decode leaves behind *)

Section Failure.
Context {L : IRrecvLayer} {H : SharpAcHeader}.

Lemma decodeSharpAc_loop_keeps (nbits : Z) :
  forall (n : nat) (results : decode_results) (i offset dataBitsSoFar : Z),
    let results' :=
      fst (fst (decodeSharpAc_loop n results nbits i offset dataBitsSoFar)) in
    decode_type results' = decode_type results
    /\ bits results' = bits results
    /\ rawbuf results' = rawbuf results
    /\ rawlen results' = rawlen results.
Proof.
  induction n as [|n IH]; intros results i offset dataBitsSoFar; cbn zeta.
  - simpl. repeat split.
  - cbn [decodeSharpAc_loop].
    destruct ((offset <=? rawlen results - 16) && (i <? nbits));
      [|simpl; repeat split].
    destruct (negb (mr_success _)); [simpl; repeat split|].
    specialize (IH (set_state i
                      (mr_data (matchData (drop (Z.to_nat offset) (rawbuf results)) 8
                                  kSharpAcBitMark kSharpAcOneSpace kSharpAcBitMark
                                  kSharpAcZeroSpace kTolerance kMarkExcess false))
                      results)
                  (u16 (i + 1))
                  (u16 (offset
                        + mr_used (matchData (drop (Z.to_nat offset) (rawbuf results)) 8
                                     kSharpAcBitMark kSharpAcOneSpace kSharpAcBitMark
                                     kSharpAcZeroSpace kTolerance kMarkExcess false)))
                  (u16 (dataBitsSoFar + 8))).
    cbn zeta in IH. exact IH.
Qed.

Lemma decodeSharpAc_keeps (results : decode_results) (nbits : Z) (strict : bool) :
  fst (decodeSharpAc results nbits strict) = false ->
  decode_type (snd (decodeSharpAc results nbits strict)) = decode_type results
  /\ bits (snd (decodeSharpAc results nbits strict)) = bits results
  /\ rawbuf (snd (decodeSharpAc results nbits strict)) = rawbuf results
  /\ rawlen (snd (decodeSharpAc results nbits strict)) = rawlen results.
Proof.
  unfold decodeSharpAc.
  destruct (rawlen results <? _); [intros _; repeat split|].
  destruct (strict && negb (nbits =? kSharpAcBits)); [intros _; repeat split|].
  destruct (negb (matchMark _ _ _)); [intros _; repeat split|].
  destruct (negb (matchSpace _ _)); [intros _; repeat split|].
  pose proof (decodeSharpAc_loop_keeps nbits (Z.to_nat nbits) results 0
                (u16 (u16 (kStartOffset + 1) + 1)) 0) as Hkeep.
  cbn zeta in Hkeep.
  destruct (decodeSharpAc_loop _ _ _ _ _ _) as [[results' offset] dataBitsSoFar].
  cbn [fst] in Hkeep.
  destruct (negb (matchMark _ _ _)); [intros _; exact Hkeep|].
  destruct (_ && negb (matchAtLeast _ _)); [intros _; exact Hkeep|].
  destruct (strict && negb (dataBitsSoFar =? kSharpAcBits)); [intros _; exact Hkeep|].
  destruct (strict && negb (validChecksum _ _)); [intros _; exact Hkeep|].
  simpl. discriminate.
Qed.
End Failure.

(** C2, as stated, fails for [decodeSharpAc]: on the capture of the reset
    array sent as it is, whose checksum is not valid, strict decoding
    returns false and yet [state] holds the thirteen bytes read, where it
    held zeros before the call. *)
Lemma decodeSharpAc_failure_leaves_state :
  let H := Header.ir_Sharp_h in
  let L := Timing.layer in
  let results := capture (sendSharpAc reset kSharpAcStateLength 0) blank in
  fst (decodeSharpAc results kSharpAcBits true) = false
  /\ state results = replicate 13 0
  /\ state (snd (decodeSharpAc results kSharpAcBits true)) = reset
  /\ snd (decodeSharpAc results kSharpAcBits true) <> results.
Proof.
  vm_compute. split; [reflexivity|]. split; [reflexivity|]. split; [reflexivity|].
  discriminate.
Qed.

(** C2, amended: when [decodeSharp] returns false, [results] is exactly as
    it was before the call; when [decodeSharpAc] returns false,
    [decode_type] and [bits] are as they were before the call, as is the
    capture, while [state] may hold the bytes read before the failure. *)
Theorem failed_decode_outputs {L : IRrecvLayer} {H : SharpAcHeader}
  (UNIT_TEST : bool) (results : decode_results) (nbits : Z) (strict expansion : bool) :
  (fst (decodeSharp UNIT_TEST results nbits strict expansion) = false ->
   snd (decodeSharp UNIT_TEST results nbits strict expansion) = results)
  /\ (fst (decodeSharpAc results nbits strict) = false ->
      decode_type (snd (decodeSharpAc results nbits strict)) = decode_type results
      /\ bits (snd (decodeSharpAc results nbits strict)) = bits results
      /\ rawbuf (snd (decodeSharpAc results nbits strict)) = rawbuf results
      /\ rawlen (snd (decodeSharpAc results nbits strict)) = rawlen results).
Proof.
  split.
  - unfold decodeSharp.
    destruct (decodeSharp_match UNIT_TEST results nbits strict expansion);
      simpl; [discriminate|reflexivity].
  - apply decodeSharpAc_keeps.
Qed.

Lemma failed_decode_outputs_witness :
  let H := Header.ir_Sharp_h in
  let L := Timing.layer in
  let results := capture (sendSharpAc reset kSharpAcStateLength 0) blank in
  snd (decodeSharp true results kSharpBits true true) = results
  /\ decode_type (snd (decodeSharpAc results kSharpAcBits true)) = UNKNOWN
  /\ bits (snd (decodeSharpAc results kSharpAcBits true)) = 0.
Proof.
  intros H L results.
  pose proof (failed_decode_outputs (L := L) (H := H) true results kSharpBits true true)
    as [Hsharp _].
  pose proof (failed_decode_outputs (L := L) (H := H) true results kSharpAcBits true true)
    as [_ Hac].
  destruct (Hac ltac:(vm_compute; reflexivity)) as [Htype [Hbits _]].
  split; [apply Hsharp; vm_compute; reflexivity|].
  split; [rewrite Htype; reflexivity|rewrite Hbits; reflexivity].
Defined.

(** * Further properties of ir_Sharp.cpp *)

(** A boolean check run on every number below [n] holds of each of
    them. *)
Lemma forallb_range (f : nat -> bool) (n : nat) :
  forallb f (seq 0 n) = true ->
  forall z : Z, 0 <= z < Z.of_nat n -> f (Z.to_nat z) = true.
Proof.
  intros Hall z Hz. rewrite forallb_forall in Hall.
  apply Hall. apply in_seq. lia.
Qed.

Lemma reverse5_all : forallb (reverse_ok 5) (seq 0 32) = true.
Proof. vm_compute. reflexivity. Qed.

Lemma reverse8_all : forallb (reverse_ok 8) (seq 0 256) = true.
Proof. vm_compute. reflexivity. Qed.

Lemma reverse_ok_spec (width : Z) (x : Z) :
  0 <= x -> reverse_ok width (Z.to_nat x) = true ->
  0 <= reverseBits x width < 2 ^ width
  /\ reverseBits (reverseBits x width) width = x.
Proof.
  intros Hx Hok. unfold reverse_ok in Hok. rewrite Z2Nat.id in Hok by exact Hx.
  apply andb_prop in Hok. destruct Hok as [Hok Hinv].
  apply andb_prop in Hok. destruct Hok as [Hlo Hhi].
  apply Z.leb_le in Hlo. apply Z.ltb_lt in Hhi. apply Z.eqb_eq in Hinv.
  split; [split; assumption|exact Hinv].
Qed.

Lemma reverse5 (x : Z) :
  0 <= x < 32 ->
  0 <= reverseBits x kSharpAddressBits < 32
  /\ reverseBits (reverseBits x kSharpAddressBits) kSharpAddressBits = x.
Proof.
  intros Hx.
  exact (reverse_ok_spec 5 x (proj1 Hx) (forallb_range _ _ reverse5_all x Hx)).
Qed.

Lemma reverse8 (x : Z) :
  0 <= x < 256 ->
  0 <= reverseBits x kSharpCommandBits < 256
  /\ reverseBits (reverseBits x kSharpCommandBits) kSharpCommandBits = x.
Proof.
  intros Hx.
  exact (reverse_ok_spec 8 x (proj1 Hx) (forallb_range _ _ reverse8_all x Hx)).
Qed.

Lemma land_mask_mod (x : Z) (w : Z) :
  0 <= w -> Z.land x (Z.shiftl 1 w - 1) = x mod 2 ^ w.
Proof.
  intros Hw. rewrite Z.shiftl_1_l, Z.sub_1_r, <- Z.ones_equiv.
  apply Z.land_ones. exact Hw.
Qed.

Lemma land_1_mod (x : Z) : Z.land x 1 = x mod 2.
Proof. apply (Z.land_ones x 1). lia. Qed.

Lemma shifted_range (x s w : Z) :
  0 <= s -> 0 <= w -> 0 <= x < 2 ^ w -> 0 <= Z.shiftl x s < 2 ^ (w + s).
Proof.
  intros Hs Hw Hx. rewrite Z.shiftl_mul_pow2 by exact Hs.
  rewrite Z.pow_add_r by assumption.
  assert (0 < 2 ^ s) by (apply Z.pow_pos_nonneg; lia). nia.
Qed.

Lemma range_widen (x w w' : Z) :
  0 <= w <= w' -> 0 <= x < 2 ^ w -> 0 <= x < 2 ^ w'.
Proof.
  intros Hw Hx. assert (2 ^ w <= 2 ^ w') by (apply Z.pow_le_mono_r; lia). lia.
Qed.

(** The packing step of [encodeSharp] keeps within 15 bits. *)
Lemma packed_range (a c e k : Z) :
  0 <= a < 32 -> 0 <= c < 256 -> 0 <= e < 2 -> 0 <= k < 2 ->
  0 <= Z.lor (Z.lor (Z.lor (Z.shiftl a (kSharpCommandBits + 2)) (Z.shiftl c 2))
                    (Z.shiftl e 1)) k < 2 ^ 15.
Proof.
  intros Ha Hc He Hk.
  pose proof (shifted_range a 10 5 ltac:(lia) ltac:(lia) Ha) as Hsa.
  pose proof (shifted_range c 2 8 ltac:(lia) ltac:(lia) Hc) as Hsc.
  pose proof (shifted_range e 1 1 ltac:(lia) ltac:(lia) He) as Hse.
  change (kSharpCommandBits + 2) with 10.
  repeat apply lor_range; lia.
Qed.

(** X1: [encodeSharp] reads only the low five bits of the address, the low
    eight bits of the command and the low bit of the expansion and of the
    check argument: it gives the same value on the arguments reduced to
    those bits, whatever the bit order asked for, and the value always
    fits the 15 bits of a Sharp frame. *)
Theorem encodeSharp_masks_inputs (address command expansion check : Z)
  (MSBfirst : bool) :
  encodeSharp address command expansion check MSBfirst
  = encodeSharp (address mod 32) (command mod 256) (expansion mod 2) (check mod 2)
      MSBfirst
  /\ 0 <= encodeSharp address command expansion check MSBfirst < 2 ^ kSharpBits.
Proof.
  unfold encodeSharp.
  rewrite !land_mask_mod by (unfold kSharpAddressBits, kSharpCommandBits; lia).
  rewrite !land_1_mod.
  change (2 ^ kSharpAddressBits) with 32. change (2 ^ kSharpCommandBits) with 256.
  change (2 ^ 1) with 2.
  rewrite !Z.mod_mod by lia.
  split; [reflexivity|].
  pose proof (Z.mod_pos_bound address 32 ltac:(lia)) as Ha.
  pose proof (Z.mod_pos_bound command 256 ltac:(lia)) as Hc.
  pose proof (Z.mod_pos_bound expansion 2 ltac:(lia)) as He.
  pose proof (Z.mod_pos_bound check 2 ltac:(lia)) as Hk.
  rewrite (u16_small (address mod 32)), (u16_small (command mod 256)),
    (u16_small (expansion mod 2)), (u16_small (check mod 2)) by lia.
  assert (Hra := proj1 (reverse5 _ Ha)). assert (Hrc := proj1 (reverse8 _ Hc)).
  assert (Hfit : forall a c, 0 <= a < 32 -> 0 <= c < 256 ->
            0 <= u32 (Z.lor (Z.lor (Z.lor (Z.shiftl a (kSharpCommandBits + 2))
                                          (Z.shiftl c 2))
                                   (Z.shiftl (expansion mod 2) 1))
                            (check mod 2)) < 2 ^ kSharpBits).
  { intros a c Ha' Hc'. pose proof (packed_range a c _ _ Ha' Hc' He Hk) as Hp.
    unfold u32. rewrite wrap_small; [exact Hp|].
    apply (range_widen _ 15); [lia|exact Hp]. }
  destruct MSBfirst; simpl negb; cbv iota.
  - apply Hfit; assumption.
  - rewrite !u16_small by lia. apply Hfit; assumption.
Qed.

Lemma pack_all :
  forallb (fun a => forallb (pack_ok a) (seq 0 256)) (seq 0 32) = true.
Proof. vm_compute. reflexivity. Qed.

Lemma encodeSharp_msb_sum (a c e k : Z) :
  0 <= a < 32 -> 0 <= c < 256 -> 0 <= e < 2 -> 0 <= k < 2 ->
  encodeSharp a c e k true = a * 1024 + c * 4 + e * 2 + k.
Proof.
  intros Ha Hc He Hk.
  pose proof (forallb_range _ _ pack_all a Ha) as Hc1. cbv beta in Hc1.
  pose proof (forallb_range _ _ Hc1 c Hc) as He1.
  unfold pack_ok in He1.
  pose proof (forallb_range _ _ He1 e He) as Hk1. cbv beta in Hk1.
  pose proof (forallb_range _ _ Hk1 k Hk) as Hsum. cbv beta in Hsum.
  rewrite !Z2Nat.id in Hsum by lia. apply Z.eqb_eq. exact Hsum.
Qed.

Lemma encodeSharp_lsb_as_msb (a c e k : Z) :
  0 <= a < 32 -> 0 <= c < 256 ->
  encodeSharp a c e k false
  = encodeSharp (reverseBits a kSharpAddressBits) (reverseBits c kSharpCommandBits)
      e k true.
Proof.
  intros Ha Hc.
  destruct (reverse5 a Ha) as [Hra _]. destruct (reverse8 c Hc) as [Hrc _].
  unfold encodeSharp. simpl negb. cbv iota.
  rewrite !land_mask_mod by (unfold kSharpAddressBits, kSharpCommandBits; lia).
  change (2 ^ kSharpAddressBits) with 32. change (2 ^ kSharpCommandBits) with 256.
  rewrite (Z.mod_small a), (Z.mod_small c),
    (Z.mod_small (reverseBits a kSharpAddressBits)),
    (Z.mod_small (reverseBits c kSharpCommandBits)) by lia.
  rewrite (u16_small a), (u16_small c) by lia.
  reflexivity.
Qed.

(** X2: for fields within their widths, [encodeSharp] with the most
    significant bit first lays the address in bits 14 to 10, the command
    in bits 9 to 2, the expansion bit in bit 1 and the check bit in bit 0;
    with the least significant bit first it lays out the bit-reversed
    address and command in the same places; in either order two frames
    are equal only if their four fields are. *)
Theorem encodeSharp_layout (a c e k a' c' e' k' : Z) (MSBfirst : bool) :
  0 <= a < 32 -> 0 <= c < 256 -> 0 <= e < 2 -> 0 <= k < 2 ->
  0 <= a' < 32 -> 0 <= c' < 256 -> 0 <= e' < 2 -> 0 <= k' < 2 ->
  encodeSharp a c e k true = a * 1024 + c * 4 + e * 2 + k
  /\ encodeSharp a c e k false
     = reverseBits a kSharpAddressBits * 1024 + reverseBits c kSharpCommandBits * 4
       + e * 2 + k
  /\ (encodeSharp a c e k MSBfirst = encodeSharp a' c' e' k' MSBfirst ->
      a = a' /\ c = c' /\ e = e' /\ k = k').
Proof.
  intros Ha Hc He Hk Ha' Hc' He' Hk'.
  destruct (reverse5 a Ha) as [Hra Hia]. destruct (reverse8 c Hc) as [Hrc Hic].
  destruct (reverse5 a' Ha') as [Hra' Hia']. destruct (reverse8 c' Hc') as [Hrc' Hic'].
  split; [apply encodeSharp_msb_sum; assumption|].
  split.
  - rewrite encodeSharp_lsb_as_msb by assumption.
    apply encodeSharp_msb_sum; assumption.
  - destruct MSBfirst.
    + rewrite !encodeSharp_msb_sum by assumption. lia.
    + rewrite !encodeSharp_lsb_as_msb by assumption.
      rewrite !encodeSharp_msb_sum by assumption. intros Heq.
      assert (Hr : reverseBits a kSharpAddressBits = reverseBits a' kSharpAddressBits
                   /\ reverseBits c kSharpCommandBits = reverseBits c' kSharpCommandBits
                   /\ e = e' /\ k = k') by lia.
      destruct Hr as [Hra_eq [Hrc_eq [Hee Hkk]]].
      rewrite <- Hia, <- Hia', Hra_eq. rewrite <- Hic, <- Hic', Hrc_eq.
      repeat split; try reflexivity; assumption.
Qed.

Lemma encodeSharp_layout_witness :
  encodeSharp 0x1F 0x3A 1 0 true = 0x1F * 1024 + 0x3A * 4 + 1 * 2 + 0
  /\ (encodeSharp 0x1F 0x3A 1 0 false = encodeSharp 0x1F 0x3A 1 0 false ->
      0x1F = 0x1F /\ 0x3A = 0x3A /\ 1 = 1 /\ 0 = 0).
Proof.
  pose proof (encodeSharp_layout 0x1F 0x3A 1 0 0x1F 0x3A 1 0 false
                ltac:(lia) ltac:(lia) ltac:(lia) ltac:(lia)
                ltac:(lia) ltac:(lia) ltac:(lia) ltac:(lia)) as [Hsum [_ Hinj]].
  split; [exact Hsum|exact Hinj].
Defined.

(** ** Decoding any sent value *)

Section AnyFrame.
Context {L : IRrecvLayer}.
Variable UNIT_TEST : bool.
Hypothesis Hlink : SharpLink L.

(** What [decodeSharp] makes of the capture of the two half-frames sent
    for a 15-bit value: strict mode asks for the expansion bit and a clear
    check bit, and nothing else can fail. *)
Lemma two_frames_match_any (results : decode_results) (d : Z) (strict e : bool) :
  0 <= d < 2 ^ 15 ->
  rawbuf results
  = [0] ++ sent_frame d ++ raw_footer ++ sent_frame (inverted d) ++ raw_footer ->
  rawlen results = 65 ->
  decodeSharp_match UNIT_TEST results kSharpBits strict e
  = if strict && negb ((Z.shiftr (Z.land d 2) 1 =? Z.b2z e) && (Z.land d 1 =? 0))
    then None else Some d.
Proof using Hlink.
  intros Hd Hbuf Hlen. unfold decodeSharp_match.
  rewrite Hlen, (link_footer Hlink), (link_start Hlink).
  change (65 <? 2 * kSharpBits + 2 - 1) with false.
  change (65 <? 2 * (2 * kSharpBits + 2)) with false.
  rewrite Z.eqb_refl, !andb_false_r. cbv iota.
  rewrite (first_mark results d Hbuf), (link_mark Hlink). simpl negb. cbv iota.
  rewrite (calibrated_tick Hlink).
  rewrite (first_data Hlink results d Hd Hbuf), (first_footer Hlink results d Hbuf).
  destruct strict; [|reflexivity]. simpl andb.
  destruct (Z.shiftr (Z.land d 2) 1 =? Z.b2z e); simpl; [|reflexivity].
  destruct (Z.land d 1 =? 0); simpl; [|reflexivity].
  rewrite (second_frame Hlink results d Hd Hbuf).
  destruct UNIT_TEST; reflexivity.
Qed.
End AnyFrame.

(** X3: any 15-bit value sent by [sendSharpRaw] without repeats and
    captured at the nominal timings is decoded by [decodeSharp]: a
    non-strict decode always succeeds; a strict decode succeeds exactly
    when bit 1 of the value is the expected expansion bit and bit 0 is
    zero; a success gives the value that was sent and 15 bits, a failure
    leaves the results as they were.  This holds in builds with and
    without UNIT_TEST. *)
Theorem sharp_raw_round_trip {L : IRrecvLayer} (UNIT_TEST : bool) (fuel : nat)
  (d : Z) (strict e : bool) (results : decode_results) :
  SharpLink L -> (2 <= fuel)%nat -> 0 <= d < 2 ^ kSharpBits ->
  let log := frame_pair d kSharpBits in
  let out :=
    decodeSharp UNIT_TEST (capture (transmit log) results) kSharpBits strict e in
  sendSharpRaw fuel d kSharpBits 0 = Some (log, d)
  /\ (fst out = true
      <-> (strict = true -> Z.testbit d 1 = e /\ Z.testbit d 0 = false))
  /\ (fst out = true -> value (snd out) = d /\ bits (snd out) = kSharpBits)
  /\ (fst out = false -> snd out = capture (transmit log) results).
Proof.
  intros Hlink Hfuel Hd log out.
  assert (Hd64 : 0 <= d < 2 ^ 64)
    by (apply (range_widen _ kSharpBits); [unfold kSharpBits; lia|exact Hd]).
  split; [rewrite sendSharpRaw_repeats by (simpl; lia); reflexivity|].
  destruct (capture_frame_pair results d) as [Hbuf Hlen].
  pose proof (two_frames_match_any UNIT_TEST Hlink _ d strict e Hd Hbuf Hlen) as Hm.
  assert (Hbit1 : Z.shiftr (Z.land d 2) 1 = Z.b2z (Z.testbit d 1)).
  { apply Z.bits_inj'. intros i Hi.
    rewrite Z.shiftr_spec, Z.land_spec by exact Hi.
    destruct (Z.eq_dec i 0) as [->|Hne].
    - change (0 + 1) with 1. change (Z.testbit 2 1) with true.
      rewrite andb_true_r. destruct (Z.testbit d 1); reflexivity.
    - rewrite (Z.bits_above_log2 2 (i + 1))
        by (change (Z.log2 2) with 1; lia).
      rewrite andb_false_r. destruct (Z.testbit d 1); cbn [Z.b2z].
      + rewrite (Z.bits_above_log2 1 i) by (change (Z.log2 1) with 0; lia).
        reflexivity.
      + rewrite Z.bits_0. reflexivity. }
  assert (Hbit0 : Z.land d 1 = Z.b2z (Z.testbit d 0)).
  { rewrite land_1_mod. symmetry. rewrite Z.bit0_mod. reflexivity. }
  rewrite Hbit1, Hbit0 in Hm.
  subst out log. unfold decodeSharp. rewrite Hm.
  assert (Hcond :
            strict && negb ((Z.b2z (Z.testbit d 1) =? Z.b2z e)
                            && (Z.b2z (Z.testbit d 0) =? 0)) = false
            <-> (strict = true -> Z.testbit d 1 = e /\ Z.testbit d 0 = false)).
  { destruct strict, (Z.testbit d 1), e, (Z.testbit d 0); simpl;
      intuition congruence. }
  destruct (strict && negb _); cbn [fst snd value bits].
  - split; [split; [discriminate|intros Hs; apply Hcond in Hs; discriminate Hs]|].
    split; [discriminate|reflexivity].
  - split; [split; [intros _; apply Hcond; reflexivity|reflexivity]|].
    split; [intros _; split; reflexivity|discriminate].
Qed.

(** ** The bits of a reversed value *)

Lemma reverseBits_loop_bits : forall (n : nat) (input output k : Z),
  0 <= k -> 0 <= output < 2 ^ k -> k + Z.of_nat n <= 64 ->
  fst (reverseBits_loop n input output) = Z.shiftr input (Z.of_nat n)
  /\ 0 <= snd (reverseBits_loop n input output)
  /\ forall i, 0 <= i ->
       Z.testbit (snd (reverseBits_loop n input output)) i
       = if i <? Z.of_nat n then Z.testbit input (Z.of_nat n - 1 - i)
         else Z.testbit output (i - Z.of_nat n).
Proof.
  induction n as [|n IH]; intros input output k Hk Hout Hn.
  - simpl. rewrite Z.shiftr_0_r. split; [reflexivity|]. split; [lia|].
    intros i Hi. change (Z.of_nat 0) with 0.
    destruct (Z.ltb_spec i 0); [lia|]. rewrite Z.sub_0_r. reflexivity.
  - cbn [reverseBits_loop].
    assert (Hpow : 2 ^ k <= 2 ^ 63) by (apply Z.pow_le_mono_r; lia).
    assert (Hsh : Z.shiftl output 1 = 2 * output)
      by (rewrite Z.shiftl_mul_pow2 by lia; change (2 ^ 1) with 2; lia).
    rewrite Hsh, u64_small by lia. rewrite <- Hsh.
    set (output1 := Z.lor (Z.shiftl output 1) (Z.land input 1)).
    assert (Hland : 0 <= Z.land input 1 < 2)
      by (rewrite land_1_mod; apply Z.mod_pos_bound; lia).
    assert (Hout1 : 0 <= output1 < 2 ^ (k + 1)).
    { unfold output1. apply lor_range; [lia| |].
      - rewrite Hsh, Z.pow_add_r by lia. change (2 ^ 1) with 2. lia.
      - assert (2 <= 2 ^ (k + 1))
          by (rewrite Z.pow_add_r by lia; change (2 ^ 1) with 2;
              assert (0 < 2 ^ k) by (apply Z.pow_pos_nonneg; lia); lia).
        lia. }
    destruct (IH (Z.shiftr input 1) output1 (k + 1) ltac:(lia) Hout1 ltac:(lia))
      as [Hfst [Hnn Hbits]].
    split; [|split; [exact Hnn|]].
    + rewrite Hfst, Z.shiftr_shiftr by lia. f_equal. lia.
    + intros i Hi. rewrite (Hbits i Hi).
      destruct (Z.ltb_spec i (Z.of_nat n)) as [Hlt|Hge].
      * destruct (Z.ltb_spec i (Z.of_nat (S n))); [|lia].
        rewrite Z.shiftr_spec by lia. f_equal. lia.
      * unfold output1. rewrite Z.lor_spec.
        destruct (Z.ltb_spec i (Z.of_nat (S n))) as [Hlt'|Hge'].
        -- replace (i - Z.of_nat n) with 0 by lia.
           rewrite Z.shiftl_spec, (Z.testbit_neg_r output (0 - 1)) by lia.
           rewrite Z.land_spec. change (Z.testbit 1 0) with true.
           rewrite andb_true_r, orb_false_l. f_equal. lia.
        -- rewrite Z.shiftl_spec by lia. rewrite Z.land_spec.
           rewrite (Z.bits_above_log2 1 (i - Z.of_nat n))
             by (change (Z.log2 1) with 0; lia).
           rewrite andb_false_r, orb_false_r. f_equal. lia.
Qed.

(** Bit [i] of [reverseBits x n] is bit [n - 1 - i] of [x], for a value
    that fits its width. *)
Lemma reverseBits_bits (x n : Z) :
  1 < n <= 64 -> 0 <= x < 2 ^ n ->
  0 <= reverseBits x n
  /\ forall i, 0 <= i ->
       Z.testbit (reverseBits x n) i
       = if i <? n then Z.testbit x (n - 1 - i) else false.
Proof.
  intros Hn Hx. unfold reverseBits.
  destruct (Z.leb_spec n 1); [lia|]. rewrite Z.min_l by lia.
  destruct (reverseBits_loop_bits (Z.to_nat n) x 0 0 ltac:(lia) ltac:(simpl; lia)
              ltac:(lia)) as [Hfst [Hnn Hbits]].
  destruct (reverseBits_loop (Z.to_nat n) x 0) as [input output].
  cbn [fst snd] in *. rewrite Z2Nat.id in * by lia.
  assert (Hin : input = 0).
  { rewrite Hfst. apply Z.shiftr_eq_0; [lia|].
    destruct (Z.eq_dec x 0) as [->|]; [simpl; lia|].
    apply Z.log2_lt_pow2; lia. }
  rewrite Hin, Z.shiftl_0_l. change (u64 0) with 0. rewrite Z.lor_0_l.
  split; [exact Hnn|]. intros i Hi. rewrite (Hbits i Hi).
  destruct (i <? n); [reflexivity|]. apply Z.bits_0.
Qed.

Lemma testbit_wrap (w x i : Z) :
  0 <= w -> 0 <= i -> Z.testbit (wrap w x) i = (i <? w) && Z.testbit x i.
Proof.
  intros Hw Hi. unfold wrap. destruct (Z.ltb_spec i w).
  - rewrite Z.mod_pow2_bits_low by lia. reflexivity.
  - rewrite Z.mod_pow2_bits_high by lia. reflexivity.
Qed.

Lemma testbit_ones (n i : Z) :
  0 <= n -> 0 <= i -> Z.testbit (Z.ones n) i = (i <? n).
Proof.
  intros Hn Hi. destruct (Z.ltb_spec i n).
  - apply Z.ones_spec_low. lia.
  - apply Z.ones_spec_high. lia.
Qed.

Lemma shiftr_range (d s w : Z) :
  0 <= s -> 0 <= w -> 0 <= d < 2 ^ (w + s) -> 0 <= Z.shiftr d s < 2 ^ w.
Proof.
  intros Hs Hw Hd. rewrite Z.shiftr_div_pow2 by exact Hs.
  rewrite Z.pow_add_r in Hd by assumption.
  assert (0 < 2 ^ s) by (apply Z.pow_pos_nonneg; lia).
  split; [apply Z.div_pos; lia|].
  apply Z.div_lt_upper_bound; lia.
Qed.

(** The address [decodeSharp] reports for a 15-bit value is the reversal
    of its five high bits. *)
Lemma decoded_address_high_bits (d : Z) :
  0 <= d < 2 ^ 15 ->
  decoded_address d kSharpBits = reverseBits (Z.shiftr d 10) kSharpAddressBits.
Proof.
  intros Hd. unfold decoded_address, kSharpBits, kSharpAddressBits.
  change kSharpAddressMask with (Z.ones 5).
  destruct (reverseBits_bits d 15 ltac:(lia) Hd) as [Hnn Hbits].
  destruct (reverseBits_bits (Z.shiftr d 10) 5 ltac:(lia)
              (shiftr_range d 10 5 ltac:(lia) ltac:(lia) Hd)) as [Hnn' Hbits'].
  apply Z.bits_inj'. intros i Hi.
  unfold u32. rewrite testbit_wrap, Z.land_spec, testbit_ones by lia.
  rewrite (Hbits i Hi), (Hbits' i Hi).
  destruct (Z.ltb_spec i 5).
  - destruct (Z.ltb_spec i 32); [|lia]. destruct (Z.ltb_spec i 15); [|lia].
    rewrite Z.shiftr_spec by lia. rewrite andb_true_r. simpl andb.
    f_equal. lia.
  - rewrite andb_false_r, andb_false_r. reflexivity.
Qed.

Lemma shiftr_land_bit1 (d : Z) : Z.shiftr (Z.land d 2) 1 = (d / 2) mod 2.
Proof.
  change ((d / 2) mod 2) with ((d / 2 ^ 1) mod 2).
  rewrite <- Z.testbit_spec' by lia.
  apply Z.bits_inj'. intros i Hi.
  rewrite Z.shiftr_spec, Z.land_spec by exact Hi.
  destruct (Z.eq_dec i 0) as [->|Hne].
  - change (0 + 1) with 1. change (Z.testbit 2 1) with true.
    rewrite andb_true_r. destruct (Z.testbit d 1); reflexivity.
  - rewrite (Z.bits_above_log2 2 (i + 1)) by (change (Z.log2 2) with 1; lia).
    rewrite andb_false_r. destruct (Z.testbit d 1); cbn [Z.b2z].
    + rewrite (Z.bits_above_log2 1 i) by (change (Z.log2 1) with 0; lia).
      reflexivity.
    + rewrite Z.bits_0. reflexivity.
Qed.

Lemma command_field (d : Z) :
  Z.land (Z.shiftr d 2) kSharpCommandMask = (d / 4) mod 256.
Proof.
  change kSharpCommandMask with (Z.ones 8).
  rewrite Z.land_ones, Z.shiftr_div_pow2 by lia. reflexivity.
Qed.

(** The fields [decodeSharp] reports for a 15-bit value, encoded again
    least significant bit first, give the value back. *)
Lemma decoded_fields_encode_back (d : Z) :
  0 <= d < 2 ^ 15 ->
  0 <= decoded_address d kSharpBits < 32
  /\ 0 <= decoded_command d < 256
  /\ encodeSharp (decoded_address d kSharpBits) (decoded_command d)
       (Z.shiftr (Z.land d 2) 1) (Z.land d 1) false = d.
Proof.
  intros Hd.
  assert (Hhi : 0 <= Z.shiftr d 10 < 32)
    by (apply (shiftr_range d 10 5); lia).
  assert (Hmid : 0 <= (d / 4) mod 256 < 256) by (apply Z.mod_pos_bound; lia).
  destruct (reverse5 _ Hhi) as [Hra Hia]. destruct (reverse8 _ Hmid) as [Hrc Hic].
  rewrite decoded_address_high_bits by exact Hd.
  unfold decoded_command. rewrite command_field.
  unfold u32. rewrite wrap_small by lia.
  split; [exact Hra|]. split; [exact Hrc|].
  rewrite encodeSharp_lsb_as_msb by assumption.
  rewrite Hia, Hic, shiftr_land_bit1, land_1_mod.
  rewrite encodeSharp_msb_sum;
    [|exact Hhi|exact Hmid|apply Z.mod_pos_bound; lia|apply Z.mod_pos_bound; lia].
  rewrite Z.shiftr_div_pow2 by lia. change (2 ^ 10) with 1024.
  Z.div_mod_to_equations. lia.
Qed.

(** ** What a successful [decodeSharp] gives *)

Section DecodeFacts.
Context {L : IRrecvLayer}.
Variable UNIT_TEST : bool.

Lemma decodeSharp_data_range (results : decode_results) (tick : Z) :
  forall (n : nat) (offset acc k offset' data : Z),
    0 <= k -> 0 <= acc < 2 ^ k -> k + Z.of_nat n <= 64 ->
    decodeSharp_data results tick n offset acc = Some (offset', data) ->
    0 <= data < 2 ^ (k + Z.of_nat n).
Proof.
  induction n as [|n IH]; intros offset acc k offset' data Hk Hacc Hn Hd.
  - simpl in Hd. injection Hd as _ <-. rewrite Z.add_0_r. exact Hacc.
  - cbn [decodeSharp_data] in Hd.
    assert (Hpow : 2 ^ k <= 2 ^ 63) by (apply Z.pow_le_mono_r; lia).
    assert (Hnext : forall b : bool, 0 <= 2 * acc + Z.b2z b < 2 ^ (k + 1)).
    { intros b. rewrite Z.pow_add_r by lia. change (2 ^ 1) with 2.
      destruct b; simpl; lia. }
    replace (k + Z.of_nat (S n)) with (k + 1 + Z.of_nat n) by lia.
    destruct (negb (matchMark _ _ _)); [discriminate Hd|].
    destruct (matchSpace _ _).
    + rewrite (shift_one_in acc true) in Hd by lia.
      apply (IH _ _ (k + 1) _ _ ltac:(lia) (Hnext true) ltac:(lia) Hd).
    + destruct (matchSpace _ _); [|discriminate Hd].
      rewrite (shift_one_in acc false) in Hd by lia.
      apply (IH _ _ (k + 1) _ _ ltac:(lia) (Hnext false) ltac:(lia) Hd).
Qed.

(** A value accepted by [decodeSharp] was read by the data loop from the
    start of a capture that is long enough. *)
Lemma decodeSharp_match_data (results : decode_results) (nbits data : Z)
  (strict expansion : bool) :
  decodeSharp_match UNIT_TEST results nbits strict expansion = Some data ->
  2 * nbits + kFooter - 1 <= rawlen results
  /\ matchMark (rawbuf_at results kStartOffset) kSharpBitMark 35 = true
  /\ exists tick offset,
       decodeSharp_data results tick (Z.to_nat nbits) kStartOffset 0
       = Some (offset, data).
Proof.
  unfold decodeSharp_match. intros Hm.
  destruct (Z.ltb_spec (rawlen results) (2 * nbits + kFooter - 1)) as [|Hlen];
    [discriminate Hm|].
  destruct (strict && negb (nbits =? kSharpBits)); [discriminate Hm|].
  destruct (strict && UNIT_TEST && _); [discriminate Hm|].
  destruct (matchMark _ _ _) eqn:Hmark; [|discriminate Hm]. simpl negb in Hm.
  cbv iota in Hm.
  destruct (decodeSharp_data _ _ _ _ _) as [[offset data0]|] eqn:Hdata;
    [|discriminate Hm].
  assert (Hsame : data = data0).
  { destruct (decodeSharp_footer _ _ _); [|discriminate Hm].
    destruct strict; [|injection Hm as <-; reflexivity].
    destruct (negb (_ =? _)); [discriminate Hm|].
    destruct (negb (_ =? _)); [discriminate Hm|].
    destruct UNIT_TEST; [|injection Hm as <-; reflexivity].
    destruct (decodeSharp_second _ _ _ _ _); [|discriminate Hm].
    injection Hm as <-. reflexivity. }
  subst data0.
  split; [exact Hlen|]. split; [reflexivity|]. eexists _, offset. exact Hdata.
Qed.
End DecodeFacts.

Lemma decoded_address_range (data nbits : Z) : 0 <= decoded_address data nbits < 32.
Proof.
  unfold decoded_address. change kSharpAddressMask with (Z.ones 5).
  rewrite Z.land_ones by lia. change (2 ^ 5) with 32.
  pose proof (Z.mod_pos_bound (reverseBits data nbits) 32 ltac:(lia)).
  unfold u32. rewrite wrap_small by lia. assumption.
Qed.

Lemma decoded_command_range (data : Z) : 0 <= decoded_command data < 256.
Proof.
  unfold decoded_command. rewrite command_field.
  pose proof (Z.mod_pos_bound (data / 4) 256 ltac:(lia)) as Hc.
  destruct (reverse8 _ Hc) as [Hr _].
  unfold u32. rewrite wrap_small by lia. exact Hr.
Qed.

(** X4: whenever [decodeSharp] succeeds, on any capture and for any
    [nbits], the result is of type SHARP with [bits = nbits], its address
    fits 5 bits and its command 8 bits, the capture held at least
    [2 * nbits + kFooter - 1] entries and began with a mark accepted as a
    bit mark, and the buffer and its length are as they were.  Nothing is
    said of [state], which shares its storage with the value, the address
    and the command that a success stores. *)
Theorem decodeSharp_success_fields {L : IRrecvLayer} (UNIT_TEST : bool)
  (results : decode_results) (nbits : Z) (strict expansion : bool) :
  fst (decodeSharp UNIT_TEST results nbits strict expansion) = true ->
  let out := snd (decodeSharp UNIT_TEST results nbits strict expansion) in
  decode_type out = SHARP
  /\ bits out = nbits
  /\ 0 <= address out < 2 ^ kSharpAddressBits
  /\ 0 <= command out < 2 ^ kSharpCommandBits
  /\ 2 * nbits + kFooter - 1 <= rawlen results
  /\ matchMark (rawbuf_at results kStartOffset) kSharpBitMark 35 = true
  /\ rawbuf out = rawbuf results
  /\ rawlen out = rawlen results.
Proof.
  unfold decodeSharp.
  destruct (decodeSharp_match UNIT_TEST results nbits strict expansion)
    as [data|] eqn:Hm; [|simpl; discriminate].
  intros _. cbn [snd decode_type bits address command rawbuf rawlen].
  destruct (decodeSharp_match_data UNIT_TEST results nbits data strict expansion Hm)
    as [Hlen [Hmark _]].
  split; [reflexivity|]. split; [reflexivity|].
  split; [apply (decoded_address_range data nbits)|].
  split; [apply (decoded_command_range data)|].
  split; [exact Hlen|]. split; [exact Hmark|].
  repeat split.
Qed.

(** X5: whenever [decodeSharp] succeeds for 15 bits, the value fits 15
    bits and is rebuilt by [encodeSharp], least significant bit first,
    from the decoded address and command and from bits 1 and 0 of the
    value; after a strict decode it is [encodeSharp] of the address, the
    command, the expected expansion bit and a zero check bit. *)
Theorem decodeSharp_fields_encode_value {L : IRrecvLayer} (UNIT_TEST : bool)
  (results : decode_results) (strict expansion : bool) :
  fst (decodeSharp UNIT_TEST results kSharpBits strict expansion) = true ->
  let out := snd (decodeSharp UNIT_TEST results kSharpBits strict expansion) in
  0 <= value out < 2 ^ kSharpBits
  /\ encodeSharp (address out) (command out)
       (Z.shiftr (Z.land (value out) 2) 1) (Z.land (value out) 1) false
     = value out
  /\ (strict = true ->
      encodeSharp (address out) (command out) (Z.b2z expansion) 0 false
      = value out).
Proof.
  unfold decodeSharp.
  destruct (decodeSharp_match UNIT_TEST results kSharpBits strict expansion)
    as [data|] eqn:Hm; [|simpl; discriminate].
  intros _. cbn [snd value address command].
  destruct (decodeSharp_match_data UNIT_TEST results _ data strict expansion Hm)
    as [_ [_ [tick [offset Hdata]]]].
  assert (Hd : 0 <= data < 2 ^ 15).
  { apply (decodeSharp_data_range results tick (Z.to_nat kSharpBits) kStartOffset
             0 0 offset data); [lia|simpl; lia|vm_compute; congruence|exact Hdata]. }
  destruct (decoded_fields_encode_back data Hd) as [_ [_ Henc]].
  split; [exact Hd|]. split; [exact Henc|].
  intros ->.
  destruct (decodeSharp_match_strict UNIT_TEST results _ data expansion Hm)
    as [_ [_ [He [Hc _]]]].
  rewrite He, Hc in Henc. exact Henc.
Qed.

Lemma sharp_raw_round_trip_witness :
  let out :=
    decodeSharp (L := Timing.layer) true
      (capture (L := Timing.layer) (transmit (frame_pair 0x7D72 kSharpBits)) blank)
      kSharpBits false false in
  fst out = true /\ value (snd out) = 0x7D72.
Proof.
  pose proof (sharp_raw_round_trip (L := Timing.layer) true 2 0x7D72 false false blank
                timing_layer_link ltac:(lia) ltac:(vm_compute; split; congruence))
    as [_ [Hok [Hval _]]].
  assert (Hs : fst (decodeSharp (L := Timing.layer) true
                      (capture (L := Timing.layer)
                         (transmit (frame_pair 0x7D72 kSharpBits)) blank)
                      kSharpBits false false) = true)
    by (apply Hok; discriminate).
  split; [exact Hs|]. exact (proj1 (Hval Hs)).
Defined.

Lemma decodeSharp_success_fields_witness :
  let out :=
    decodeSharp (L := Timing.layer) false
      (capture (L := Timing.layer) (transmit (frame_pair 0x7D72 kSharpBits)) blank)
      kSharpBits false false in
  0 <= address (snd out) < 32 /\ 0 <= command (snd out) < 256.
Proof.
  pose proof (decodeSharp_success_fields (L := Timing.layer) false
                (capture (L := Timing.layer)
                   (transmit (frame_pair 0x7D72 kSharpBits)) blank)
                kSharpBits false false ltac:(vm_compute; reflexivity))
    as [_ [_ [Ha [Hc _]]]].
  split; [exact Ha|exact Hc].
Defined.

Lemma decodeSharp_fields_encode_value_witness :
  let out :=
    decodeSharp (L := Timing.layer) false
      (capture (L := Timing.layer) (transmit (frame_pair 0x7D72 kSharpBits)) blank)
      kSharpBits true true in
  encodeSharp (address (snd out)) (command (snd out)) 1 0 false = value (snd out).
Proof.
  pose proof (decodeSharp_fields_encode_value (L := Timing.layer) false
                (capture (L := Timing.layer)
                   (transmit (frame_pair 0x7D72 kSharpBits)) blank)
                true true ltac:(vm_compute; reflexivity))
    as [_ [_ Hstrict]].
  exact (Hstrict eq_refl).
Defined.

(** X6: [sendSharp] sends the address and the command with the most
    significant bit first, while [decodeSharp] reads them with the least
    significant bit first: a frame sent by [sendSharp] for an address
    below 32 and a command below 256 is accepted by a strict decode, with
    the value that was sent, and the decoded address and command are the
    bit reversals of the ones given to [sendSharp]. *)
Theorem sendSharp_decodes_reversed_fields {L : IRrecvLayer} (UNIT_TEST : bool)
  (fuel : nat) (a c : Z) (results : decode_results) :
  SharpLink L -> (2 <= fuel)%nat -> 0 <= a < 2 ^ 5 -> 0 <= c < 2 ^ 8 ->
  let d := encodeSharp a c 1 0 true in
  let log := frame_pair d kSharpBits in
  let out := decodeSharp UNIT_TEST (capture (transmit log) results) kSharpBits true true in
  sendSharp fuel a c kSharpBits 0 = Some (log, d)
  /\ fst out = true
  /\ value (snd out) = d
  /\ address (snd out) = reverseBits a kSharpAddressBits
  /\ command (snd out) = reverseBits c kSharpCommandBits.
Proof.
  intros Hlink Hfuel Ha Hc d log out.
  change (2 ^ 5) with 32 in Ha. change (2 ^ 8) with 256 in Hc.
  assert (Hsum : d = a * 1024 + c * 4 + 2)
    by (unfold d; rewrite encodeSharp_msb_sum by lia; lia).
  assert (Hd : 0 <= d < 2 ^ 15) by (change (2 ^ 15) with 32768; lia).
  assert (Hd64 : 0 <= d < 2 ^ 64) by (apply (range_widen _ 15); [lia|exact Hd]).
  split.
  { unfold sendSharp. fold d. rewrite sendSharpRaw_repeats by (simpl; lia).
    reflexivity. }
  destruct (capture_frame_pair results d) as [Hbuf Hlen].
  pose proof (two_frames_match_any UNIT_TEST Hlink _ d true true Hd Hbuf Hlen) as Hm.
  assert (He : Z.shiftr (Z.land d 2) 1 = 1)
    by (rewrite shiftr_land_bit1, Hsum; Z.div_mod_to_equations; lia).
  assert (Hk : Z.land d 1 = 0)
    by (rewrite land_1_mod, Hsum; Z.div_mod_to_equations; lia).
  rewrite He, Hk in Hm. simpl in Hm.
  subst out log. unfold decodeSharp. rewrite Hm.
  cbn [fst snd value address command].
  split; [reflexivity|]. split; [reflexivity|]. split.
  - change (u32 (Z.land (reverseBits d kSharpBits) kSharpAddressMask))
      with (decoded_address d kSharpBits).
    rewrite decoded_address_high_bits by exact Hd. f_equal.
    rewrite Z.shiftr_div_pow2, Hsum by lia. change (2 ^ 10) with 1024.
    Z.div_mod_to_equations. lia.
  - rewrite command_field.
    replace ((d / 4) mod 256) with c
      by (rewrite Hsum; Z.div_mod_to_equations; lia).
    destruct (reverse8 c Hc) as [Hr _].
    unfold u32. apply wrap_small. lia.
Qed.

Lemma sendSharp_decodes_reversed_fields_witness :
  let out :=
    decodeSharp (L := Timing.layer) true
      (capture (L := Timing.layer)
         (transmit (frame_pair (encodeSharp 0x01 0x02 1 0 true) kSharpBits)) blank)
      kSharpBits true true in
  address (snd out) = 0x10 /\ command (snd out) = 0x40.
Proof.
  pose proof (sendSharp_decodes_reversed_fields (L := Timing.layer) true 2 0x01 0x02
                blank timing_layer_link ltac:(lia) ltac:(simpl; lia) ltac:(simpl; lia))
    as [_ [_ [_ [Haddr Hcmd]]]].
  split; [exact Haddr|exact Hcmd].
Defined.

(** ** The pulse train of [sendSharpRaw] *)

Lemma transmit_app (l1 l2 : list GenericCall) :
  transmit (l1 ++ l2) = transmit l1 ++ transmit l2.
Proof. unfold transmit. rewrite map_app, concat_app. reflexivity. Qed.

Lemma transmit_frame_pair (data nbits : Z) :
  transmit (frame_pair data nbits)
  = half_frame data nbits ++ half_frame (inverted data) nbits.
Proof.
  unfold transmit, frame_pair. cbn [map concat].
  rewrite !sendGeneric_sharp_call, app_nil_r. reflexivity.
Qed.

Lemma transmit_replicate (n : nat) (l : list GenericCall) :
  transmit (concat (replicate n l)) = concat (replicate n (transmit l)).
Proof.
  induction n as [|n IH]; [reflexivity|].
  cbn [replicate concat]. rewrite transmit_app, IH. reflexivity.
Qed.

Lemma length_concat_replicate (n : nat) (l : list Z) :
  length (concat (replicate n l)) = (n * length l)%nat.
Proof.
  induction n as [|n IH]; [reflexivity|].
  cbn [replicate concat]. rewrite length_app, IH. lia.
Qed.

Lemma half_frame_length (data nbits : Z) :
  length (half_frame data nbits) = (2 * Z.to_nat nbits + 2)%nat.
Proof.
  unfold half_frame. rewrite length_app, sendData_length. simpl. lia.
Qed.

(** X7: for a repeat count below 65535, [sendSharpRaw] returns and the
    pulses it has sent are [repeat + 1] copies of the half-frame of the
    data followed by the half-frame of the data with its command,
    expansion and check bits inverted; a half-frame is [nbits] mark and
    space pairs, the footer mark and the gap, so the train has
    [(repeat + 1) * (4 * nbits + 4)] durations, sent by
    [2 * (repeat + 1)] calls of [sendGeneric]. *)
Theorem sendSharpRaw_pulse_train (fuel : nat) (data nbits repeat : Z) :
  0 <= data < 2 ^ 64 -> 0 <= nbits -> 0 <= repeat < 65535 ->
  (Z.to_nat repeat + 1 < fuel)%nat ->
  exists log,
    sendSharpRaw fuel data nbits repeat = Some (log, data)
    /\ transmit log
       = concat (replicate (S (Z.to_nat repeat))
                   (half_frame data nbits ++ half_frame (inverted data) nbits))
    /\ Z.of_nat (length (transmit log)) = (repeat + 1) * (4 * nbits + 4)
    /\ Z.of_nat (length log) = 2 * (repeat + 1).
Proof.
  intros Hd Hn Hr Hfuel.
  exists (concat (replicate (S (Z.to_nat repeat)) (frame_pair data nbits))).
  split; [apply sendSharpRaw_repeats; assumption|].
  rewrite transmit_replicate, transmit_frame_pair.
  split; [reflexivity|]. split.
  - rewrite length_concat_replicate, length_app, !half_frame_length. lia.
  - assert (Hlen : forall n : nat,
              length (concat (replicate n (frame_pair data nbits))) = (2 * n)%nat).
    { induction n as [|n IH]; [reflexivity|].
      cbn [replicate concat]. rewrite length_app, IH. simpl. lia. }
    rewrite Hlen. lia.
Qed.

Lemma sendSharpRaw_pulse_train_witness :
  exists log,
    sendSharpRaw 5 0x7D72 15 2 = Some (log, 0x7D72)
    /\ Z.of_nat (length (transmit log)) = 192.
Proof.
  destruct (sendSharpRaw_pulse_train 5 0x7D72 15 2 ltac:(lia) ltac:(lia) ltac:(lia)
              ltac:(simpl; lia)) as [log [Hsend [_ [Hlen _]]]].
  exists log. split; [exact Hsend|exact Hlen].
Defined.

(** ** Fields of a byte *)

Lemma land_zero_bits (a b i : Z) :
  Z.land a b = 0 -> Z.testbit a i && Z.testbit b i = false.
Proof. intros Hz. rewrite <- Z.land_spec, Hz. apply Z.bits_0. Qed.

Lemma land_sub_bits (a m i : Z) :
  Z.land a m = a -> Z.testbit a i = Z.testbit a i && Z.testbit m i.
Proof. intros Hs. rewrite <- Z.land_spec, Hs. reflexivity. Qed.

(** Bits set with [|=] leave the bits of a disjoint mask alone. *)
Lemma or_keeps_other (old v m : Z) :
  0 <= m < 256 -> Z.land v m = 0 ->
  Z.land (u8 (Z.lor old v)) m = Z.land old m.
Proof.
  intros Hm Hv. apply Z.bits_inj'. intros i Hi.
  rewrite !Z.land_spec, testbit_u8, Z.lor_spec by exact Hi.
  pose proof (land_zero_bits v m i Hv) as Hvi.
  destruct (Z.ltb_spec i 8).
  - destruct (Z.testbit old i), (Z.testbit v i), (Z.testbit m i);
      simpl in *; congruence.
  - rewrite (testbit_byte_high m i) by lia. rewrite !andb_false_r. reflexivity.
Qed.

(** Bits cleared with [&= ~] leave the bits of a disjoint mask alone. *)
Lemma and_keeps_other (old v m : Z) :
  0 <= m < 256 -> Z.land v m = 0 ->
  Z.land (u8 (Z.land old (Z.lnot v))) m = Z.land old m.
Proof.
  intros Hm Hv. apply Z.bits_inj'. intros i Hi.
  rewrite !Z.land_spec, testbit_u8, Z.land_spec, Z.lnot_spec by exact Hi.
  pose proof (land_zero_bits v m i Hv) as Hvi.
  destruct (Z.ltb_spec i 8).
  - destruct (Z.testbit old i), (Z.testbit v i), (Z.testbit m i);
      simpl in *; congruence.
  - rewrite (testbit_byte_high m i) by lia. rewrite !andb_false_r. reflexivity.
Qed.

(** A field written with [&= ~mask] and [|= v] leaves the bits of a
    disjoint mask alone. *)
Lemma write_keeps_other (old v m m' : Z) :
  0 <= m' < 256 -> Z.land m m' = 0 -> Z.land v m' = 0 ->
  Z.land (u8 (Z.lor (u8 (Z.land old (Z.lnot m))) v)) m' = Z.land old m'.
Proof.
  intros Hm' Hm Hv.
  rewrite or_keeps_other by assumption. apply and_keeps_other; assumption.
Qed.

Lemma land_byte_mask (x m : Z) : 0 <= m < 256 -> 0 <= Z.land x m < 256.
Proof.
  intros Hm.
  assert (Hnn : 0 <= Z.land x m) by (apply Z.land_nonneg; lia).
  split; [exact Hnn|].
  apply (Z.bounded_iff_bits_nonneg 8); [lia|exact Hnn|].
  intros l Hl. rewrite Z.land_spec, (testbit_byte_high m l) by lia.
  apply andb_false_r.
Qed.

(** ** Power *)

Section Power.
Context {H : SharpAcHeader}.
Hypothesis HOK : FieldsOK H.

Lemma getPower_on (remote : list Z) :
  length remote = 13%nat -> getPower (on remote) = true.
Proof using HOK.
  intros Hlen. destruct HOK. unfold getPower, on.
  rewrite byte_or_same by lia. rewrite flag_set_reads by lia.
  destruct (Z.eqb_spec kSharpAcBitPower 0); [lia|reflexivity].
Qed.

Lemma getPower_off (remote : list Z) :
  length remote = 13%nat -> getPower (off remote) = false.
Proof using HOK.
  intros Hlen. destruct HOK. unfold getPower, off.
  rewrite byte_and_same by lia. rewrite flag_clear_reads. reflexivity.
Qed.

(** X8: on a 13-byte state, [getPower] after [setPower b] is [b]; only
    the power byte is written, and within it the marker bit 0x20 of the
    non-Auto modes is kept, so [getMode], [getTemp] and [getFan] read as
    before; the last [setPower] wins. *)
Theorem setPower_sets_only_power (b : bool) (remote : list Z) :
  length remote = 13%nat ->
  getPower (setPower b remote) = b
  /\ length (setPower b remote) = 13%nat
  /\ (forall j : nat, j <> kSharpAcBytePower ->
        setPower b remote !!! j = remote !!! j)
  /\ Z.land (setPower b remote !!! kSharpAcBytePower) 0x20
     = Z.land (remote !!! kSharpAcBytePower) 0x20
  /\ getMode (setPower b remote) = getMode remote
  /\ getTemp (setPower b remote) = getTemp remote
  /\ getFan (setPower b remote) = getFan remote
  /\ setPower b (setPower (negb b) remote) = setPower b remote.
Proof using HOK.
  intros Hlen.
  assert (Hother : forall (b' : bool) (r : list Z) (j : nat),
                     j <> kSharpAcBytePower -> setPower b' r !!! j = r !!! j).
  { intros b' r j Hj. unfold setPower, on, off.
    destruct b'; [apply byte_or_other|apply byte_and_other]; congruence. }
  pose proof HOK as [_ Hp Hm Hf Hpt Hpman Hpm Hpf _ _ _ _ Hbit Hmark _ _ _ _ _ _ _ _ _ _ _ _ _].
  split; [destruct b; [apply getPower_on|apply getPower_off]; exact Hlen|].
  split; [unfold setPower, on, off; destruct b; autorewrite with remote_len;
          exact Hlen|].
  split; [apply Hother|]. split; [|split; [|split; [|split]]].
  - unfold setPower, on, off. destruct b.
    + rewrite byte_or_same by lia. apply or_keeps_other; lia.
    + rewrite byte_and_same by lia. apply and_keeps_other; lia.
  - unfold getMode. rewrite Hother by congruence. reflexivity.
  - unfold getTemp. rewrite Hother by congruence. reflexivity.
  - unfold getFan. rewrite Hother by congruence. reflexivity.
  - apply list_eq_same_length with 13%nat.
    + unfold setPower, on, off. destruct b; autorewrite with remote_len; exact Hlen.
    + unfold setPower, on, off. destruct b; simpl negb; cbv iota;
        autorewrite with remote_len; exact Hlen.
    + intros i x y Hi Hx Hy.
      apply list_lookup_total_correct in Hx, Hy. subst x y.
      destruct (decide (i = kSharpAcBytePower)) as [->|Hne].
      * unfold setPower, on, off. destruct b; simpl negb; cbv iota.
        -- rewrite !byte_or_same, byte_and_same
             by (autorewrite with remote_len; lia).
           apply Z.bits_inj'. intros k Hk.
           rewrite !testbit_u8, !Z.lor_spec, testbit_u8, Z.land_spec, Z.lnot_spec
             by exact Hk.
           destruct (k <? 8), (Z.testbit (remote !!! kSharpAcBytePower) k),
             (Z.testbit kSharpAcBitPower k); reflexivity.
        -- rewrite !byte_and_same, byte_or_same
             by (autorewrite with remote_len; lia).
           apply Z.bits_inj'. intros k Hk.
           rewrite !testbit_u8, !Z.land_spec, testbit_u8, Z.lor_spec, Z.lnot_spec
             by exact Hk.
           destruct (k <? 8), (Z.testbit (remote !!! kSharpAcBytePower) k),
             (Z.testbit kSharpAcBitPower k); reflexivity.
      * rewrite !Hother by congruence. reflexivity.
Qed.
End Power.

(** ** Mode *)

Lemma mode_value_bits (m : Z) :
  0 <= m <= 3 -> 0 <= m < 256 /\ Z.land m 0x03 = m /\ Z.land m 0x70 = 0.
Proof.
  intros Hm. assert (Hc : m = 0 \/ m = 1 \/ m = 2 \/ m = 3) by lia.
  destruct Hc as [-> | [-> | [-> | ->]]]; repeat split; lia.
Qed.

Section Mode.
Context {H : SharpAcHeader}.
Hypothesis HOK : FieldsOK H.

Lemma setTemp_length (t : Z) (remote : list Z) :
  length (setTemp t remote) = length remote.
Proof.
  unfold setTemp. destruct (_ || _); autorewrite with remote_len; reflexivity.
Qed.

Lemma setTemp_other_bytes (t : Z) (remote : list Z) (j : nat) :
  j <> kSharpAcByteTemp -> j <> kSharpAcByteManual ->
  setTemp t remote !!! j = remote !!! j.
Proof.
  intros HjT HjM. unfold setTemp. destruct (_ || _).
  - rewrite !byte_set_other by congruence. reflexivity.
  - rewrite byte_or_other, byte_and_other, byte_or_other, byte_set_other
      by congruence. reflexivity.
Qed.

Lemma store_mode_length (m : Z) (remote : list Z) :
  length (store_mode m remote) = length remote.
Proof. unfold store_mode. autorewrite with remote_len. reflexivity. Qed.

Lemma store_mode_other_bytes (m : Z) (remote : list Z) (j : nat) :
  j <> kSharpAcByteMode -> store_mode m remote !!! j = remote !!! j.
Proof.
  intros Hj. unfold store_mode.
  rewrite byte_or_other, byte_and_other by congruence. reflexivity.
Qed.

Lemma store_mode_getMode (m : Z) (remote : list Z) :
  length remote = 13%nat -> 0 <= m <= 3 -> getMode (store_mode m remote) = m.
Proof using HOK.
  intros Hlen Hm. destruct (mode_value_bits m Hm) as [Hb [Hfit _]].
  destruct HOK. unfold getMode, store_mode.
  rewrite byte_or_same by (autorewrite with remote_len; lia).
  rewrite byte_and_same by lia.
  apply stored_mode_reads; [exact Hb|congruence].
Qed.

Lemma store_mode_getFan (m : Z) (remote : list Z) :
  length remote = 13%nat -> 0 <= m <= 3 ->
  getFan (store_mode m remote) = getFan remote.
Proof using HOK.
  intros Hlen Hm. destruct (mode_value_bits m Hm) as [_ [_ Hfan]].
  pose proof HOK as [_ _ Hmi _ _ _ _ _ _ _ _ _ _ _ Hmask _ _ _ _ Hfmask _ _ _ _ _ _ _].
  unfold getFan. f_equal. f_equal.
  destruct (decide (kSharpAcByteFan = kSharpAcByteMode)) as [Heq|Hne].
  - rewrite Heq. unfold store_mode.
    rewrite byte_or_same by (autorewrite with remote_len; lia).
    rewrite byte_and_same by lia.
    rewrite Hmask, Hfmask. apply write_keeps_other; [lia|reflexivity|exact Hfan].
  - rewrite store_mode_other_bytes by exact Hne. reflexivity.
Qed.

(** The state before the last two statements of [setMode], for each
    recognised mode: the power byte has the marker bit set, or cleared for
    Auto, and [setTemp 0] has run for Auto and Dry. *)
Lemma setMode_recognised (mode : Z) (remote : list Z) :
  (kSharpAcBytePower < length remote)%nat ->
  mode = kSharpAcAuto \/ mode = kSharpAcCool \/ mode = kSharpAcHeat
  \/ mode = kSharpAcDry ->
  exists before,
    setMode mode remote = store_mode mode before
    /\ length before = length remote
    /\ (forall j : nat, j <> kSharpAcBytePower -> j <> kSharpAcByteTemp ->
          j <> kSharpAcByteManual -> before !!! j = remote !!! j)
    /\ (mode <> kSharpAcAuto -> mode <> kSharpAcDry ->
        forall j : nat, j <> kSharpAcBytePower -> before !!! j = remote !!! j)
    /\ before !!! kSharpAcBytePower
       = (if mode =? kSharpAcAuto
          then u8 (Z.land (u8 (Z.lor (remote !!! kSharpAcBytePower) special))
                     (Z.lnot special))
          else u8 (Z.lor (remote !!! kSharpAcBytePower) special)).
Proof using HOK.
  intros Hin Hmode. pose proof HOK as [_ Hp _ _ Hpt Hpman _ _ _ _ _ _ _ _ _ _ _ _ _ _ _ _ _ _ _ _ _].
  rewrite setMode_cases. unfold mode_switch.
  destruct (Z.eqb_spec mode kSharpAcAuto) as [Ha|Ha].
  - eexists. split; [reflexivity|]. rewrite setTemp_length.
    autorewrite with remote_len.
    split; [reflexivity|]. split; [|split].
    + intros j HjP HjT HjM. rewrite setTemp_other_bytes by assumption.
      rewrite byte_and_other, byte_or_other by congruence. reflexivity.
    + intros Hna. contradiction.
    + rewrite setTemp_other_bytes by congruence.
      rewrite byte_and_same by (autorewrite with remote_len; lia).
      rewrite byte_or_same by lia. reflexivity.
  - destruct (Z.eqb_spec mode kSharpAcDry) as [Hd|Hd].
    + eexists. split; [reflexivity|]. rewrite setTemp_length.
      autorewrite with remote_len.
      split; [reflexivity|]. split; [|split].
      * intros j HjP HjT HjM. rewrite setTemp_other_bytes by assumption.
        rewrite byte_or_other by congruence. reflexivity.
      * intros _ Hnd. contradiction.
      * rewrite setTemp_other_bytes by congruence.
        rewrite byte_or_same by lia. reflexivity.
    + assert (Hch : (mode =? kSharpAcCool) || (mode =? kSharpAcHeat) = true).
      { destruct Hmode as [? | [-> | [-> | ?]]]; try contradiction;
          rewrite Z.eqb_refl; [reflexivity|apply orb_true_r]. }
      rewrite Hch. eexists. split; [reflexivity|].
      autorewrite with remote_len.
      split; [reflexivity|]. split; [|split].
      * intros j HjP _ _. rewrite byte_or_other by congruence. reflexivity.
      * intros _ _ j HjP. rewrite byte_or_other by congruence. reflexivity.
      * rewrite byte_or_same by lia. reflexivity.
Qed.

(** X9: on a 13-byte state, [setMode] of one of the four modes of the
    header is read back by [getMode]; bit 0x20 of the power byte is
    cleared for Auto and set for the other modes; [getPower] and [getFan]
    read as before; for Cool and Heat the temperature and the manual byte
    are left as they were. *)
Theorem setMode_stores_mode (mode : Z) (remote : list Z) :
  length remote = 13%nat ->
  mode = kSharpAcAuto \/ mode = kSharpAcCool \/ mode = kSharpAcHeat
  \/ mode = kSharpAcDry ->
  getMode (setMode mode remote) = mode
  /\ length (setMode mode remote) = 13%nat
  /\ Z.land (setMode mode remote !!! kSharpAcBytePower) special
     = (if mode =? kSharpAcAuto then 0 else special)
  /\ getPower (setMode mode remote) = getPower remote
  /\ getFan (setMode mode remote) = getFan remote
  /\ (mode <> kSharpAcAuto -> mode <> kSharpAcDry ->
      getTemp (setMode mode remote) = getTemp remote
      /\ setMode mode remote !!! kSharpAcByteManual = remote !!! kSharpAcByteManual).
Proof using HOK.
  intros Hlen Hmode.
  pose proof HOK as [_ Hp Hm Hf Hpt Hpman Hpm Hpf Hmt Hmman Hft Hfman Hbit Hmark
                       _ Hma Hmd Hmc Hmh _ _ _ _ _ _ _ _].
  destruct (setMode_recognised mode remote ltac:(lia) Hmode)
    as [before [-> [Hblen [Hbother [Hbcool Hbpower]]]]].
  rewrite Hlen in Hblen.
  assert (Hrange : 0 <= mode <= 3)
    by (destruct Hmode as [-> | [-> | [-> | ->]]]; assumption).
  split; [apply store_mode_getMode; assumption|].
  split; [rewrite store_mode_length; exact Hblen|].
  split; [|split; [|split]].
  - rewrite store_mode_other_bytes by congruence. rewrite Hbpower.
    destruct (mode =? kSharpAcAuto).
    + apply flag_clear_reads.
    + apply flag_set_reads. unfold special. lia.
  - unfold getPower. rewrite store_mode_other_bytes by congruence.
    rewrite Hbpower. f_equal. f_equal.
    assert (Hsp : Z.land special kSharpAcBitPower = 0)
      by (rewrite Z.land_comm; exact Hmark).
    destruct (mode =? kSharpAcAuto).
    + rewrite and_keeps_other by (try exact Hsp; lia).
      apply or_keeps_other; [lia|exact Hsp].
    + apply or_keeps_other; [lia|exact Hsp].
  - rewrite store_mode_getFan by assumption.
    unfold getFan. rewrite Hbother by congruence. reflexivity.
  - intros Hna Hnd. split.
    + unfold getTemp. rewrite store_mode_other_bytes by congruence.
      rewrite (Hbcool Hna Hnd) by congruence. reflexivity.
    + rewrite store_mode_other_bytes by congruence.
      apply (Hbcool Hna Hnd). congruence.
Qed.

(** X10: [setMode] to Cool or Heat followed by [setTemp t], for a byte
    [t], gives a state whose [getTemp] is [t] clamped to the range of the
    header, whose mode is still the one set and whose manual-temperature
    flag is set. *)
Theorem setMode_then_setTemp (mode t : Z) (remote : list Z) :
  length remote = 13%nat -> 0 <= t < 256 ->
  mode = kSharpAcCool \/ mode = kSharpAcHeat ->
  mode <> kSharpAcAuto -> mode <> kSharpAcDry ->
  getTemp (setTemp t (setMode mode remote))
  = Z.min (Z.max t kSharpAcMinTemp) kSharpAcMaxTemp
  /\ getMode (setTemp t (setMode mode remote)) = mode
  /\ Z.land (setTemp t (setMode mode remote) !!! kSharpAcByteManual)
       kSharpAcBitTempManual = kSharpAcBitTempManual.
Proof using HOK.
  intros Hlen Ht Hmode Hna Hnd.
  assert (Hrec : mode = kSharpAcAuto \/ mode = kSharpAcCool \/ mode = kSharpAcHeat
                 \/ mode = kSharpAcDry) by tauto.
  pose proof HOK as [HT Hp _ _ _ _ _ _ Hmt Hmman _ _ _ _ _ Hma Hmd Hmc Hmh
                       _ _ _ _ _ _ _ _].
  destruct (setMode_recognised mode remote ltac:(lia) Hrec)
    as [before [Heq [Hblen _]]].
  assert (Hl : length (setMode mode remote) = 13%nat)
    by (rewrite Heq, store_mode_length, Hblen; exact Hlen).
  assert (Hrange : 0 <= mode <= 3) by (destruct Hmode as [-> | ->]; assumption).
  assert (Hget : getMode (setMode mode remote) = mode).
  { rewrite Heq. apply store_mode_getMode; [rewrite Hblen; exact Hlen|exact Hrange]. }
  split; [|split].
  - unfold getTemp.
    rewrite (setTemp_other_temp_byte HT) by (try exact Hl; rewrite Hget; assumption).
    replace (Z.min (Z.max t kSharpAcMinTemp) kSharpAcMaxTemp - kSharpAcMinTemp
             + kSharpAcMinTemp)
      with (Z.min (Z.max t kSharpAcMinTemp) kSharpAcMaxTemp) by lia.
    apply u8_small. destruct HT. lia.
  - unfold getMode. rewrite setTemp_other_bytes by assumption. exact Hget.
  - apply (setTemp_other_manual_flag HT); [exact Hl| |]; rewrite Hget; assumption.
Qed.
End Mode.

(** ** Fan speed *)

Lemma fan_value_bits (s : Z) :
  0 <= s <= 7 ->
  0 <= Z.shiftl s 4 < 256 /\ Z.land (Z.shiftl s 4) 0x70 = Z.shiftl s 4
  /\ Z.land (Z.shiftl s 4) 0x03 = 0 /\ Z.shiftr (Z.shiftl s 4) 4 = s.
Proof.
  intros Hs.
  assert (Hc : s = 0 \/ s = 1 \/ s = 2 \/ s = 3 \/ s = 4 \/ s = 5 \/ s = 6 \/ s = 7)
    by lia.
  destruct Hc as [-> | [-> | [-> | [-> | [-> | [-> | [-> | ->]]]]]]];
    vm_compute; repeat split; congruence.
Qed.

Section Fan.
Context {H : SharpAcHeader}.
Hypothesis HOK : FieldsOK H.

Lemma store_fan_length (s : Z) (remote : list Z) :
  length (store_fan s remote) = length remote.
Proof. unfold store_fan. autorewrite with remote_len. reflexivity. Qed.

Lemma store_fan_other_bytes (s : Z) (remote : list Z) (j : nat) :
  j <> kSharpAcByteFan -> store_fan s remote !!! j = remote !!! j.
Proof.
  intros Hj. unfold store_fan.
  rewrite byte_or_other, byte_and_other by congruence. reflexivity.
Qed.

Lemma store_fan_getFan (s : Z) (remote : list Z) :
  length remote = 13%nat -> 0 <= s <= 7 -> getFan (store_fan s remote) = s.
Proof using HOK.
  intros Hlen Hs. destruct (fan_value_bits s Hs) as [Hb [Hfit [_ Hback]]].
  pose proof HOK as [_ _ _ Hf _ _ _ _ _ _ _ _ _ _ _ _ _ _ _ Hfmask _ _ _ _ _ _ _].
  unfold getFan, store_fan.
  rewrite byte_or_same by (autorewrite with remote_len; lia).
  rewrite byte_and_same by lia. rewrite Hfmask.
  rewrite <- (u8_small (Z.land _ 0x70)) by (apply land_byte_mask; lia).
  rewrite stored_mode_reads by assumption.
  rewrite Hback. apply u8_small. lia.
Qed.

Lemma store_fan_getMode (s : Z) (remote : list Z) :
  length remote = 13%nat -> 0 <= s <= 7 ->
  getMode (store_fan s remote) = getMode remote.
Proof using HOK.
  intros Hlen Hs. destruct (fan_value_bits s Hs) as [_ [_ [Hmode _]]].
  pose proof HOK as [_ _ _ Hf _ _ _ _ _ _ _ _ _ _ Hmask _ _ _ _ Hfmask _ _ _ _ _ _ _].
  unfold getMode. f_equal.
  destruct (decide (kSharpAcByteMode = kSharpAcByteFan)) as [Heq|Hne].
  - rewrite Heq. unfold store_fan.
    rewrite byte_or_same by (autorewrite with remote_len; lia).
    rewrite byte_and_same by lia.
    rewrite Hmask, Hfmask. apply write_keeps_other; [lia|reflexivity|exact Hmode].
  - rewrite store_fan_other_bytes by exact Hne. reflexivity.
Qed.

(** The state before the two statements shared by the cases of [setFan],
    for each recognised speed. *)
Lemma setFan_recognised (speed : Z) (remote : list Z) :
  speed = kSharpAcFanAuto \/ speed = kSharpAcFanMin \/ speed = kSharpAcFanMed
  \/ speed = kSharpAcFanHigh \/ speed = kSharpAcFanMax ->
  setFan speed remote
  = store_fan speed
      (if speed =? kSharpAcFanAuto
       then byte_and kSharpAcByteManual (Z.lnot kSharpAcBitFanManual)
              (byte_or kSharpAcByteManual kSharpAcBitFanManual remote)
       else byte_or kSharpAcByteManual kSharpAcBitFanManual remote).
Proof.
  intros Hs. rewrite setFan_cases. unfold fan_switch.
  destruct (Z.eqb_spec speed kSharpAcFanAuto) as [Ha|Ha]; [reflexivity|].
  assert (Hany : (speed =? kSharpAcFanMin) || (speed =? kSharpAcFanMed)
                 || (speed =? kSharpAcFanHigh) || (speed =? kSharpAcFanMax) = true).
  { destruct Hs as [? | [-> | [-> | [-> | ->]]]]; try contradiction;
      rewrite Z.eqb_refl; rewrite ?orb_true_r; reflexivity. }
  rewrite Hany. reflexivity.
Qed.

(** X11: on a 13-byte state, [setFan] of one of the five speeds of the
    header is read back by [getFan]; the manual-fan flag is cleared for
    the Auto speed and set for the others; the manual-temperature flag,
    [getMode], [getPower] and [getTemp] read as before, and no byte but
    the fan byte and the manual byte is written. *)
Theorem setFan_stores_speed (speed : Z) (remote : list Z) :
  length remote = 13%nat ->
  speed = kSharpAcFanAuto \/ speed = kSharpAcFanMin \/ speed = kSharpAcFanMed
  \/ speed = kSharpAcFanHigh \/ speed = kSharpAcFanMax ->
  getFan (setFan speed remote) = speed
  /\ length (setFan speed remote) = 13%nat
  /\ Z.land (setFan speed remote !!! kSharpAcByteManual) kSharpAcBitFanManual
     = (if speed =? kSharpAcFanAuto then 0 else kSharpAcBitFanManual)
  /\ Z.land (setFan speed remote !!! kSharpAcByteManual) kSharpAcBitTempManual
     = Z.land (remote !!! kSharpAcByteManual) kSharpAcBitTempManual
  /\ getMode (setFan speed remote) = getMode remote
  /\ getPower (setFan speed remote) = getPower remote
  /\ getTemp (setFan speed remote) = getTemp remote
  /\ (forall j : nat, j <> kSharpAcByteFan -> j <> kSharpAcByteManual ->
        setFan speed remote !!! j = remote !!! j).
Proof using HOK.
  intros Hlen Hs.
  pose proof HOK as [HT Hp Hm Hf Hpt Hpman Hpm Hpf Hmt Hmman Hft Hfman _ _
                       _ _ _ _ _ _ Hfa Hfmin Hfmed Hfh Hfmax Hfbit Happ].
  pose proof HT as [_ Hman Htm _ _ _ _ Htbit].
  rewrite (setFan_recognised speed remote Hs).
  set (before := if speed =? kSharpAcFanAuto then _ else _).
  assert (Hblen : length before = 13%nat)
    by (subst before; destruct (speed =? kSharpAcFanAuto);
        autorewrite with remote_len; exact Hlen).
  assert (Hbother : forall j : nat, j <> kSharpAcByteManual ->
                                    before !!! j = remote !!! j).
  { intros j Hj. subst before. destruct (speed =? kSharpAcFanAuto).
    - rewrite byte_and_other, byte_or_other by congruence. reflexivity.
    - rewrite byte_or_other by congruence. reflexivity. }
  assert (Hbman : before !!! kSharpAcByteManual
                  = if speed =? kSharpAcFanAuto
                    then u8 (Z.land (u8 (Z.lor (remote !!! kSharpAcByteManual)
                                           kSharpAcBitFanManual))
                               (Z.lnot kSharpAcBitFanManual))
                    else u8 (Z.lor (remote !!! kSharpAcByteManual)
                               kSharpAcBitFanManual)).
  { subst before. destruct (speed =? kSharpAcFanAuto).
    - rewrite byte_and_same by (autorewrite with remote_len; lia).
      rewrite byte_or_same by lia. reflexivity.
    - rewrite byte_or_same by lia. reflexivity. }
  assert (Hrange : 0 <= speed <= 7)
    by (destruct Hs as [-> | [-> | [-> | [-> | ->]]]]; assumption).
  split; [apply store_fan_getFan; assumption|].
  split; [rewrite store_fan_length; exact Hblen|].
  split; [|split; [|split; [|split; [|split]]]].
  - rewrite store_fan_other_bytes by congruence. rewrite Hbman.
    destruct (speed =? kSharpAcFanAuto).
    + apply flag_clear_reads.
    + apply flag_set_reads. lia.
  - rewrite store_fan_other_bytes by congruence. rewrite Hbman.
    destruct (speed =? kSharpAcFanAuto).
    + rewrite and_keeps_other by (try exact Happ; lia).
      apply or_keeps_other; [lia|exact Happ].
    + apply or_keeps_other; [lia|exact Happ].
  - rewrite store_fan_getMode by assumption.
    unfold getMode. rewrite Hbother by congruence. reflexivity.
  - unfold getPower. rewrite store_fan_other_bytes by congruence.
    rewrite Hbother by congruence. reflexivity.
  - unfold getTemp. rewrite store_fan_other_bytes by congruence.
    rewrite Hbother by congruence. reflexivity.
  - intros j HjF HjM. rewrite store_fan_other_bytes by exact HjF.
    apply Hbother. exact HjM.
Qed.
End Fan.

(** ** The constants of the library's header *)

Lemma ir_Sharp_h_fields_ok : FieldsOK Header.ir_Sharp_h.
Proof. constructor; try exact ir_Sharp_h_temp_ok; simpl; try lia; reflexivity. Qed.

(** ** The checksum of the state *)

Lemma xorBytes_loop_agree (s t : list Z) : forall (n i : nat) (c : Z),
  (forall j : nat, (i <= j < i + n)%nat -> s !!! j = t !!! j) ->
  xorBytes_loop n i s c = xorBytes_loop n i t c.
Proof.
  induction n as [|n IH]; intros i c Hsame; [reflexivity|].
  simpl. rewrite (Hsame i) by lia. apply IH. intros j Hj. apply Hsame. lia.
Qed.

(** [calcChecksum] reads the first twelve bytes and the low nibble of the
    last one. *)
Lemma calcChecksum_agree (s t : list Z) :
  (forall j : nat, (j < 12)%nat -> s !!! j = t !!! j) ->
  Z.land (s !!! 12%nat) 0xF = Z.land (t !!! 12%nat) 0xF ->
  calcChecksum s kSharpAcStateLength = calcChecksum t kSharpAcStateLength.
Proof.
  intros Hsame Hlow. unfold calcChecksum, xorBytes.
  change (Z.to_nat (u16 (kSharpAcStateLength - 1))) with 12%nat.
  change (Z.to_nat (kSharpAcStateLength - 1)) with 12%nat.
  rewrite (xorBytes_loop_agree s t 12 0 0) by (intros j Hj; apply Hsame; lia).
  rewrite Hlow. reflexivity.
Qed.

Lemma testbit_nibble_high (c i : Z) : 0 <= c < 16 -> 4 <= i -> Z.testbit c i = false.
Proof.
  intros Hc Hi.
  apply (proj1 (Z.bounded_iff_bits_nonneg 4 c ltac:(lia) (proj1 Hc)) (proj2 Hc)).
  exact Hi.
Qed.

Lemma calcChecksum_range (s : list Z) (len : Z) : 0 <= calcChecksum s len < 16.
Proof.
  unfold calcChecksum. cbv zeta.
  rewrite u8_small by (apply land_byte_mask; lia).
  change 0xF with (Z.ones 4). rewrite Z.land_ones by lia.
  apply Z.mod_pos_bound. lia.
Qed.

(** The last byte after [|= c << 4] on a cleared high nibble. *)
Lemma nibble_stored_high (b c : Z) :
  0 <= c < 16 ->
  Z.shiftr (u8 (Z.lor (u8 (Z.land b 0x0F)) (Z.shiftl c 4))) 4 = c.
Proof.
  intros Hc. apply Z.bits_inj'. intros k Hk.
  rewrite Z.shiftr_spec, testbit_u8, Z.lor_spec, testbit_u8, Z.land_spec,
    Z.shiftl_spec by lia.
  replace (k + 4 - 4) with k by lia.
  change 0x0F with (Z.ones 4). rewrite testbit_ones by lia.
  destruct (Z.ltb_spec (k + 4) 4); [lia|].
  rewrite andb_false_r, andb_false_r, orb_false_l.
  destruct (Z.ltb_spec (k + 4) 8); [reflexivity|].
  rewrite (testbit_nibble_high c k) by lia. reflexivity.
Qed.

Lemma nibble_stored_low (b c : Z) :
  Z.land (u8 (Z.lor (u8 (Z.land b 0x0F)) (Z.shiftl c 4))) 0xF = Z.land b 0xF.
Proof.
  apply Z.bits_inj'. intros k Hk.
  rewrite !Z.land_spec, testbit_u8, Z.lor_spec, testbit_u8, Z.land_spec by lia.
  change 0x0F with (Z.ones 4). change 0xF with (Z.ones 4).
  rewrite testbit_ones by lia.
  destruct (Z.ltb_spec k 4).
  - rewrite Z.shiftl_spec_low by lia.
    destruct (Z.ltb_spec k 8); [|lia].
    rewrite orb_false_r, andb_true_r, andb_true_l. reflexivity.
  - rewrite !andb_false_r. reflexivity.
Qed.

(** A byte is its low nibble with its high nibble stored above it. *)
Lemma nibble_rebuild (b : Z) :
  0 <= b < 256 ->
  u8 (Z.lor (u8 (Z.land b 0x0F)) (Z.shiftl (Z.shiftr b 4) 4)) = b.
Proof.
  intros Hb. apply Z.bits_inj'. intros k Hk.
  rewrite testbit_u8, Z.lor_spec, testbit_u8, Z.land_spec by lia.
  change 0x0F with (Z.ones 4). rewrite testbit_ones by lia.
  destruct (Z.ltb_spec k 8).
  - destruct (Z.ltb_spec k 4).
    + rewrite Z.shiftl_spec_low by lia.
      rewrite orb_false_r, andb_true_r. reflexivity.
    + rewrite Z.shiftl_spec, Z.shiftr_spec by lia.
      replace (k - 4 + 4) with k by lia.
      rewrite andb_false_r. reflexivity.
  - rewrite (testbit_byte_high b k) by lia. reflexivity.
Qed.

Lemma checksum_length (remote : list Z) :
  length (checksum remote) = length remote.
Proof. unfold checksum. cbv zeta. autorewrite with remote_len. reflexivity. Qed.

Lemma checksum_other_bytes (remote : list Z) (j : nat) :
  j <> 12%nat -> checksum remote !!! j = remote !!! j.
Proof.
  intros Hj. unfold checksum. cbv zeta.
  change (Z.to_nat (kSharpAcStateLength - 1)) with 12%nat.
  rewrite byte_or_other, byte_and_other by congruence. reflexivity.
Qed.

(** The last byte after [checksum]: the low nibble as it was, the
    checksum of the array with the old checksum cleared above it. *)
Lemma checksum_last_byte (remote : list Z) :
  length remote = 13%nat ->
  checksum remote !!! 12%nat
  = u8 (Z.lor (u8 (Z.land (remote !!! 12%nat) 0x0F))
          (Z.shiftl (calcChecksum remote kSharpAcStateLength) 4)).
Proof.
  intros Hlen. unfold checksum. cbv zeta.
  change (Z.to_nat (kSharpAcStateLength - 1)) with 12%nat.
  rewrite byte_or_same by (autorewrite with remote_len; lia).
  rewrite byte_and_same by lia.
  rewrite (calcChecksum_agree (byte_and 12 0x0F remote) remote).
  - reflexivity.
  - intros j Hj. apply byte_and_other. lia.
  - rewrite byte_and_same by lia.
    apply Z.bits_inj'. intros k Hk.
    rewrite !Z.land_spec, testbit_u8, Z.land_spec by lia.
    change 0x0F with (Z.ones 4). change 0xF with (Z.ones 4).
    rewrite testbit_ones by lia.
    destruct (Z.ltb_spec k 4), (Z.ltb_spec k 8), (Z.testbit (remote !!! 12%nat) k);
      try reflexivity; lia.
Qed.

Lemma checksum_calc (remote : list Z) :
  length remote = 13%nat ->
  calcChecksum (checksum remote) kSharpAcStateLength
  = calcChecksum remote kSharpAcStateLength.
Proof.
  intros Hlen. apply calcChecksum_agree.
  - intros j Hj. apply checksum_other_bytes. lia.
  - rewrite checksum_last_byte by exact Hlen. apply nibble_stored_low.
Qed.

Lemma checksum_valid (remote : list Z) :
  length remote = 13%nat ->
  validChecksum (checksum remote) kSharpAcStateLength = true.
Proof.
  intros Hlen. unfold validChecksum.
  change (Z.to_nat (kSharpAcStateLength - 1)) with 12%nat.
  rewrite checksum_calc, checksum_last_byte by exact Hlen.
  rewrite nibble_stored_high by apply calcChecksum_range.
  apply Z.eqb_refl.
Qed.

(** [checksum] changes nothing in a state whose checksum is valid. *)
Lemma checksum_fixes_valid (remote : list Z) :
  length remote = 13%nat -> 0 <= remote !!! 12%nat < 256 ->
  validChecksum remote kSharpAcStateLength = true ->
  checksum remote = remote.
Proof.
  intros Hlen Hb Hvalid. unfold validChecksum in Hvalid.
  change (Z.to_nat (kSharpAcStateLength - 1)) with 12%nat in Hvalid.
  apply Z.eqb_eq in Hvalid.
  apply list_eq_same_length with 13%nat;
    [exact Hlen|rewrite checksum_length; exact Hlen|].
  intros i x y Hi Hx Hy.
  apply list_lookup_total_correct in Hx, Hy. subst x y.
  destruct (decide (i = 12%nat)) as [->|Hne].
  - rewrite checksum_last_byte by exact Hlen.
    rewrite <- Hvalid. apply nibble_rebuild. exact Hb.
  - apply checksum_other_bytes. exact Hne.
Qed.

(** X12: [checksum] makes any 13-byte state satisfy [validChecksum]; it
    writes the high nibble of the last byte and nothing else, and running
    it a second time changes nothing. *)
Theorem checksum_establishes_valid (remote : list Z) :
  length remote = 13%nat ->
  validChecksum (checksum remote) kSharpAcStateLength = true
  /\ length (checksum remote) = 13%nat
  /\ (forall j : nat, j <> 12%nat -> checksum remote !!! j = remote !!! j)
  /\ Z.land (checksum remote !!! 12%nat) 0xF = Z.land (remote !!! 12%nat) 0xF
  /\ checksum (checksum remote) = checksum remote.
Proof.
  intros Hlen.
  split; [apply checksum_valid; exact Hlen|].
  split; [rewrite checksum_length; exact Hlen|].
  split; [intros j Hj; apply checksum_other_bytes; exact Hj|].
  split; [rewrite checksum_last_byte by exact Hlen; apply nibble_stored_low|].
  apply checksum_fixes_valid.
  - rewrite checksum_length. exact Hlen.
  - rewrite checksum_last_byte by exact Hlen. apply u8_range.
  - apply checksum_valid. exact Hlen.
Qed.

Lemma checksum_establishes_valid_witness :
  validChecksum (checksum reset) kSharpAcStateLength = true
  /\ checksum (checksum reset) = checksum reset.
Proof.
  pose proof (checksum_establishes_valid reset eq_refl)
    as [Hvalid [_ [_ [_ Hidem]]]].
  split; [exact Hvalid|exact Hidem].
Defined.

(** X13: a 13-byte state whose last cell holds a byte satisfies
    [validChecksum] exactly when [checksum] leaves it unchanged. *)
Theorem validChecksum_iff_checksum_fixed (remote : list Z) :
  length remote = 13%nat -> 0 <= remote !!! 12%nat < 256 ->
  (validChecksum remote kSharpAcStateLength = true <-> checksum remote = remote).
Proof.
  intros Hlen Hb. split.
  - apply checksum_fixes_valid; assumption.
  - intros Hfix. rewrite <- Hfix. apply checksum_valid. exact Hlen.
Qed.

Lemma validChecksum_iff_checksum_fixed_witness :
  validChecksum (getRaw reset) kSharpAcStateLength = true
  <-> checksum (getRaw reset) = getRaw reset.
Proof.
  apply (validChecksum_iff_checksum_fixed (getRaw reset)).
  - reflexivity.
  - vm_compute. split; [discriminate|reflexivity].
Defined.

(** ** [setRaw] followed by [getRaw] *)

Lemma setRaw_whole (new_code remote : list Z) (len : Z) :
  length remote = 13%nat -> length new_code = 13%nat ->
  Forall is_byte new_code -> kSharpAcStateLength <= len ->
  setRaw new_code len remote = new_code.
Proof.
  intros Hlen Hcode Hbytes Hl. unfold setRaw, setRaw_trace.
  rewrite setRaw_loop_spec by (unfold kSharpAcStateLength; lia).
  cbn zeta. simpl fst.
  replace (Z.to_nat (Z.min len kSharpAcStateLength - 0)) with 13%nat
    by (unfold kSharpAcStateLength in *; lia).
  change (Z.to_nat 0) with 0%nat.
  apply list_eq_same_length with 13%nat;
    [exact Hcode|rewrite copy_bytes_length; exact Hlen|].
  intros i x y Hi Hx Hy.
  apply list_lookup_total_correct in Hx, Hy. subst x y.
  rewrite copy_bytes_inside by lia.
  apply u8_small. apply (Forall_lookup_total_1 is_byte new_code i Hbytes). lia.
Qed.

(** X14: [setRaw] with 13 bytes, and a length of at least 13, followed by
    [getRaw] gives the bytes with their checksum recomputed; it gives the
    bytes themselves exactly when they satisfy [validChecksum]. *)
Theorem getRaw_after_setRaw (new_code remote : list Z) (len : Z) :
  length remote = 13%nat -> length new_code = 13%nat ->
  Forall is_byte new_code -> kSharpAcStateLength <= len ->
  getRaw (setRaw new_code len remote) = checksum new_code
  /\ (validChecksum new_code kSharpAcStateLength = true <->
      getRaw (setRaw new_code len remote) = new_code).
Proof.
  intros Hlen Hcode Hbytes Hl. unfold getRaw.
  rewrite setRaw_whole by assumption.
  split; [reflexivity|].
  assert (Hlast : 0 <= new_code !!! 12%nat < 256)
    by (apply (Forall_lookup_total_1 is_byte new_code 12 Hbytes); lia).
  split.
  - apply checksum_fixes_valid; assumption.
  - intros Hfix. rewrite <- Hfix. apply checksum_valid. exact Hcode.
Qed.

Lemma getRaw_after_setRaw_witness :
  getRaw (setRaw (getRaw reset) 13 (replicate 13 0)) = getRaw reset.
Proof.
  apply (getRaw_after_setRaw (getRaw reset) (replicate 13 0) 13).
  - reflexivity.
  - reflexivity.
  - apply is_byte_dec_all. vm_compute. reflexivity.
  - vm_compute. discriminate.
  - vm_compute. reflexivity.
Defined.

(** ** What a successful [decodeSharpAc] leaves *)

Section DecodeAcSuccess.
Context {L : IRrecvLayer} {H : SharpAcHeader}.

Lemma u16_range (x : Z) : 0 <= u16 x < 65536.
Proof. unfold u16, wrap. apply Z.mod_pos_bound. lia. Qed.

Lemma u16_add_8 (d : Z) (k : nat) :
  u16 (u16 (d + 8) + 8 * Z.of_nat k) = u16 (d + 8 * Z.of_nat (S k)).
Proof.
  unfold u16, wrap. rewrite Zplus_mod_idemp_l. f_equal. lia.
Qed.

(** The data loop stores [k] bytes from index [i] on, counts eight bits
    for each and leaves the other cells of [state] as they were. *)
Lemma decodeSharpAc_loop_writes (nbits : Z) :
  nbits < 65536 ->
  forall (n : nat) (results : decode_results) (i offset d : Z),
    0 <= i -> 0 <= d < 65536 ->
    let res := decodeSharpAc_loop n results nbits i offset d in
    let results' := fst (fst res) in
    exists k : nat,
      (k <= n)%nat
      /\ snd res = u16 (d + 8 * Z.of_nat k)
      /\ length (state results') = length (state results)
      /\ (forall j : nat, (j < Z.to_nat i \/ Z.to_nat i + k <= j)%nat ->
            state results' !!! j = state results !!! j).
Proof.
  intros Hn.
  assert (Hstop : forall (results : decode_results) (i d : Z) (n : nat),
             0 <= d < 65536 ->
             exists k : nat,
               (k <= n)%nat
               /\ d = u16 (d + 8 * Z.of_nat k)
               /\ length (state results) = length (state results)
               /\ (forall j : nat, (j < Z.to_nat i \/ Z.to_nat i + k <= j)%nat ->
                     state results !!! j = state results !!! j)).
  { intros results i d n Hd. exists 0%nat.
    split; [lia|]. split; [rewrite Z.add_0_r, u16_small by exact Hd; reflexivity|].
    repeat split; reflexivity. }
  induction n as [|n IH]; intros results i offset d Hi Hd; cbn zeta.
  - apply Hstop. exact Hd.
  - cbn [decodeSharpAc_loop].
    destruct (Z.leb_spec offset (rawlen results - 16)); cbn [andb];
      [|apply Hstop; exact Hd].
    destruct (Z.ltb_spec i nbits); [|apply Hstop; exact Hd].
    destruct (negb (mr_success _)); [apply Hstop; exact Hd|].
    set (byte := mr_data _). set (used := mr_used _).
    specialize (IH (set_state i byte results) (u16 (i + 1)) (u16 (offset + used))
                  (u16 (d + 8)) ltac:(apply u16_range) ltac:(apply u16_range)).
    cbn zeta in IH. destruct IH as [k [Hk [Hdk [Hl Hs]]]].
    exists (S k). split; [lia|]. split.
    + rewrite Hdk. apply u16_add_8.
    + rewrite Hl. simpl. autorewrite with remote_len.
      repeat split; try reflexivity.
      intros j Hj. rewrite Hs.
      * simpl. apply byte_set_other. lia.
      * rewrite u16_small by lia. lia.
Qed.

(** X15: whenever [decodeSharpAc] succeeds, the result is of type
    SHARP_AC; the buffer, its length and the length of [state] are as
    they were; the capture held at least
    [2 * nbits + kHeader + kFooter - 1] entries; for some [k <= nbits],
    [bits] is [8 * k] as a 16-bit value and [state] is unchanged from
    index [k] on; and in strict mode [nbits] and [bits] are
    [kSharpAcBits] and the state satisfies [validChecksum].  Nothing is
    said of [value], [address] and [command], which share their storage
    with the bytes of [state] that the decode writes. *)
Theorem decodeSharpAc_success (results out : decode_results) (nbits : Z)
  (strict : bool) :
  0 <= nbits < 65536 ->
  decodeSharpAc results nbits strict = (true, out) ->
  decode_type out = SHARP_AC
  /\ rawbuf out = rawbuf results /\ rawlen out = rawlen results
  /\ length (state out) = length (state results)
  /\ 2 * nbits + kHeader + kFooter - 1 <= rawlen results
  /\ (exists k : nat,
        Z.of_nat k <= nbits /\ bits out = u16 (8 * Z.of_nat k)
        /\ forall j : nat, (k <= j)%nat -> state out !!! j = state results !!! j)
  /\ (strict = true ->
      nbits = kSharpAcBits /\ bits out = kSharpAcBits
      /\ validChecksum (state out) kSharpAcStateLength = true).
Proof.
  intros Hn. unfold decodeSharpAc.
  destruct (Z.ltb_spec (rawlen results) (2 * nbits + kHeader + kFooter - 1));
    [discriminate|].
  destruct (strict && negb (nbits =? kSharpAcBits)) eqn:Hbits; [discriminate|].
  destruct (negb (matchMark _ _ _)); [discriminate|].
  destruct (negb (matchSpace _ _)); [discriminate|].
  pose proof (decodeSharpAc_loop_keeps nbits (Z.to_nat nbits) results 0
                (u16 (u16 (kStartOffset + 1) + 1)) 0) as Hkeep.
  pose proof (decodeSharpAc_loop_writes nbits (proj2 Hn) (Z.to_nat nbits) results 0
                (u16 (u16 (kStartOffset + 1) + 1)) 0 ltac:(lia) ltac:(lia)) as Hwrite.
  cbn zeta in Hkeep, Hwrite.
  destruct (decodeSharpAc_loop _ _ _ _ _ _) as [[results' offset] dataBitsSoFar].
  simpl fst in Hkeep, Hwrite. simpl snd in Hwrite.
  destruct Hkeep as [_ [_ [Hbuf Hlen]]].
  destruct Hwrite as [k [Hk [Hd [Hl Hs]]]].
  destruct (negb (matchMark _ _ _)); [discriminate|].
  destruct (_ && negb (matchAtLeast _ _)); [discriminate|].
  destruct (strict && negb (dataBitsSoFar =? kSharpAcBits)) eqn:Hcount;
    [discriminate|].
  destruct (strict && negb (validChecksum _ _)) eqn:Hsum; [discriminate|].
  intros Heq. injection Heq as <-. simpl.
  split; [reflexivity|]. split; [exact Hbuf|]. split; [exact Hlen|].
  split; [exact Hl|].
  split; [lia|]. split.
  - exists k. split; [lia|]. split; [exact Hd|].
    intros j Hj. apply Hs. right. simpl. lia.
  - intros ->. simpl in Hbits, Hcount, Hsum.
    apply negb_false_iff in Hbits, Hcount, Hsum.
    apply Z.eqb_eq in Hbits, Hcount. auto.
Qed.
End DecodeAcSuccess.

(** ** A state sent and decoded *)

Lemma sendByte_length (onemark onespace zeromark zerospace : Z) (MSBfirst : bool)
  (b : Z) :
  length (sendByte onemark onespace zeromark zerospace MSBfirst b) = 16%nat.
Proof.
  unfold sendByte. simpl. rewrite !length_app.
  repeat match goal with
         | |- context [if ?c then _ else _] => destruct c
         end; reflexivity.
Qed.

Lemma validChecksum_agree (s t : list Z) :
  (forall j : nat, (j < 13)%nat -> s !!! j = t !!! j) ->
  validChecksum s kSharpAcStateLength = validChecksum t kSharpAcStateLength.
Proof.
  intros Hsame. unfold validChecksum.
  change (Z.to_nat (kSharpAcStateLength - 1)) with 12%nat.
  rewrite (Hsame 12%nat) by lia.
  rewrite (calcChecksum_agree s t);
    [reflexivity|intros j Hj; apply Hsame; lia|].
  rewrite (Hsame 12%nat) by lia. reflexivity.
Qed.

Lemma checksum_bytes (remote : list Z) :
  length remote = 13%nat -> Forall is_byte remote -> Forall is_byte (checksum remote).
Proof.
  intros Hlen Hbytes. apply (Forall_lookup_total_2 is_byte). intros i Hi.
  rewrite checksum_length in Hi.
  destruct (decide (i = 12%nat)) as [->|Hne].
  - rewrite checksum_last_byte by exact Hlen. apply u8_range.
  - rewrite checksum_other_bytes by exact Hne.
    apply (Forall_lookup_total_1 is_byte remote i Hbytes). exact Hi.
Qed.

Lemma sendSharpAc_once {H : SharpAcHeader} (data : list Z) :
  length data = 13%nat ->
  sendSharpAc data kSharpAcStateLength 0
  = [kSharpAcHdrMark; kSharpAcHdrSpace]
    ++ flat_map (sendByte kSharpAcBitMark kSharpAcOneSpace kSharpAcBitMark
                   kSharpAcZeroSpace false) data
    ++ [kSharpAcBitMark; kSharpAcGap].
Proof.
  intros Hlen. unfold sendSharpAc, sendGeneric_bytes.
  rewrite Z.ltb_irrefl.
  change (Z.to_nat kSharpAcStateLength) with 13%nat.
  rewrite take_ge by lia. simpl. rewrite app_nil_r. reflexivity.
Qed.

Lemma copy_bytes_whole (cs st : list Z) :
  length cs = 13%nat -> (13 <= length st)%nat -> Forall is_byte cs ->
  copy_bytes cs (seq 0 13) st = cs ++ drop 13 st.
Proof.
  intros Hcs Hst Hbytes.
  apply list_eq_same_length with (length st).
  - rewrite length_app, length_drop. lia.
  - apply copy_bytes_length.
  - intros i x y Hi Hx Hy.
    apply list_lookup_total_correct in Hx, Hy. subst x y.
    destruct (Nat.lt_ge_cases i 13) as [Hlt|Hge].
    + rewrite copy_bytes_inside by lia.
      rewrite lookup_total_app_l by lia.
      apply u8_small. apply (Forall_lookup_total_1 is_byte cs i Hbytes). lia.
    + rewrite copy_bytes_outside by lia.
      rewrite lookup_total_app_r by lia.
      rewrite lookup_total_drop. f_equal. lia.
Qed.

Section AcRoundTrip.
Context {L : IRrecvLayer} {H : SharpAcHeader}.
Hypothesis Hlink : SharpAcLink L H.

(** The data loop on the capture of the bytes of [cs] from index [i] on:
    it stores each of them and stops at the footer. *)
Lemma decodeSharpAc_loop_reads (cs tail : list Z) (nbits : Z) :
  Forall is_byte cs ->
  forall (k n : nat) (results : decode_results) (i offset d : Z),
    (Z.to_nat i + k = length cs)%nat -> (k <= n)%nat ->
    0 <= i -> i + Z.of_nat k <= nbits -> nbits < 65536 ->
    0 <= offset -> offset + 16 * Z.of_nat k < 65536 ->
    0 <= d -> d + 8 * Z.of_nat k < 65536 ->
    (length tail < 16)%nat ->
    rawlen results = offset + 16 * Z.of_nat k + Z.of_nat (length tail) ->
    drop (Z.to_nat offset) (rawbuf results)
    = map to_raw
        (flat_map (sendByte kSharpAcBitMark kSharpAcOneSpace kSharpAcBitMark
                     kSharpAcZeroSpace false) (drop (Z.to_nat i) cs))
      ++ tail ->
    decodeSharpAc_loop n results nbits i offset d
    = ({| decode_type := decode_type results;
          value := value results;
          address := address results;
          command := command results;
          state := copy_bytes cs (seq (Z.to_nat i) k) (state results);
          bits := bits results;
          rawbuf := rawbuf results;
          rawlen := rawlen results |},
       offset + 16 * Z.of_nat k, d + 8 * Z.of_nat k).
Proof using Hlink.
  intros Hbytes. induction k as [|k IH];
    intros n results i offset d Hik Hkn Hi Hnb Hn Ho Hok Hd Hdk Ht Hraw Hdrop.
  - replace (offset + 16 * Z.of_nat 0) with offset by lia.
    replace (d + 8 * Z.of_nat 0) with d by lia.
    assert (Hstop : (offset <=? rawlen results - 16) = false)
      by (apply Z.leb_gt; lia).
    destruct results; destruct n; simpl in *; [reflexivity|].
    rewrite Hstop. reflexivity.
  - destruct n as [|n]; [lia|]. cbn [decodeSharpAc_loop].
    assert (Hgo : (offset <=? rawlen results - 16) && (i <? nbits) = true).
    { apply andb_true_intro. split; [apply Z.leb_le|apply Z.ltb_lt]; lia. }
    rewrite Hgo.
    assert (Hin : (Z.to_nat i < length cs)%nat) by lia.
    rewrite (drop_S cs (cs !!! Z.to_nat i) (Z.to_nat i)) in Hdrop
      by (apply list_lookup_lookup_total_lt; exact Hin).
    cbn [flat_map] in Hdrop. rewrite map_app, <- app_assoc in Hdrop.
    rewrite Hdrop.
    rewrite (ac_byte Hlink) by
      (apply (Forall_lookup_total_1 is_byte cs _ Hbytes); exact Hin).
    cbn [mr_success mr_data mr_used negb].
    rewrite (u16_small (i + 1)), (u16_small (offset + 16)), (u16_small (d + 8))
      by lia.
    rewrite (IH n (set_state i (cs !!! Z.to_nat i) results) (i + 1) (offset + 16)
               (d + 8)); try lia.
    + simpl. f_equal; [f_equal|]; [|lia|lia].
      replace (Z.to_nat (i + 1)) with (S (Z.to_nat i)) by lia. reflexivity.
    + simpl. lia.
    + simpl. replace (Z.to_nat (offset + 16)) with (Z.to_nat offset + 16)%nat by lia.
      rewrite <- drop_drop, Hdrop.
      rewrite drop_app_length'
        by (rewrite length_map, sendByte_length; reflexivity).
      replace (Z.to_nat (i + 1)) with (S (Z.to_nat i)) by lia. reflexivity.
Qed.

(** The decode of any 13 bytes sent once by [sendSharpAc]: the bytes are
    stored, and the decode fails only in strict mode, on a checksum that
    is not valid. *)
Lemma decodeSharpAc_sent (cs : list Z) (results : decode_results) (strict : bool) :
  length cs = 13%nat -> Forall is_byte cs ->
  (13 <= length (state results))%nat ->
  let out :=
    decodeSharpAc (capture (sendSharpAc cs kSharpAcStateLength 0) results)
      kSharpAcBits strict in
  let bad := strict && negb (validChecksum cs kSharpAcStateLength) in
  fst out = negb bad
  /\ decode_type (snd out) = (if bad then decode_type results else SHARP_AC)
  /\ bits (snd out) = (if bad then bits results else kSharpAcBits)
  /\ state (snd out) = cs ++ drop 13 (state results)
  /\ rawbuf (snd out) = 0 :: map to_raw (sendSharpAc cs kSharpAcStateLength 0)
  /\ rawlen (snd out) = 213.
Proof using Hlink.
  intros Hcs Hcb Hst out bad.
  assert (Hrun :
    out
    = (negb bad,
       {| decode_type := if bad then decode_type results else SHARP_AC;
          value := value results;
          address := address results;
          command := command results;
          state := cs ++ drop 13 (state results);
          bits := if bad then bits results else kSharpAcBits;
          rawbuf := 0 :: map to_raw (sendSharpAc cs kSharpAcStateLength 0);
          rawlen := 213 |})).
  { subst out bad.
    pose proof Hlink as [Hstart Hhdr Hftr Hbits Hhm Hhs _ Hfm Hgap].
    rewrite (sendSharpAc_once cs Hcs).
    set (body := flat_map _ cs).
    assert (Hbody : length body = 208%nat).
    { subst body. clear -Hcs.
      do 14 (destruct cs as [|? cs]; try discriminate).
      cbn [flat_map]. rewrite !length_app, !sendByte_length. reflexivity. }
    unfold capture. cbn zeta.
    set (buf := 0 :: map to_raw _).
    assert (Hbuf : buf = 0 :: to_raw kSharpAcHdrMark :: to_raw kSharpAcHdrSpace
                         :: map to_raw body
                         ++ [to_raw kSharpAcBitMark; to_raw kSharpAcGap]).
    { subst buf. cbn [app map]. rewrite map_app. reflexivity. }
    assert (Hblen : Z.of_nat (length buf) = 213).
    { rewrite Hbuf. cbn [length]. rewrite length_app, length_map, Hbody.
      reflexivity. }
    rewrite Hblen.
    unfold decodeSharpAc. cbn [rawlen rawbuf].
    rewrite Hstart, Hhdr, Hftr, Hbits. rewrite Z.eqb_refl.
    change (213 <? 2 * 104 + 2 + 2 - 1) with false.
    rewrite andb_false_r. cbv iota.
    unfold rawbuf_at at 1 2. cbn [rawbuf].
    change (Z.to_nat 1) with 1%nat. change (u16 (1 + 1)) with 2.
    change (Z.to_nat 2) with 2%nat. change (u16 (2 + 1)) with 3.
    assert (H1 : buf !!! 1%nat = to_raw kSharpAcHdrMark)
      by (rewrite Hbuf; reflexivity).
    assert (H2 : buf !!! 2%nat = to_raw kSharpAcHdrSpace)
      by (rewrite Hbuf; reflexivity).
    rewrite H1, H2, Hhm, Hhs. cbn [negb].
    rewrite (decodeSharpAc_loop_reads cs
               [to_raw kSharpAcBitMark; to_raw kSharpAcGap] 104 Hcb 13 (Z.to_nat 104)
               _ 0 3 0);
      cbn [rawlen rawbuf length]; try lia.
    - change (3 + 16 * Z.of_nat 13) with 211. change (0 + 8 * Z.of_nat 13) with 104.
      unfold rawbuf_at. cbn [rawbuf rawlen state decode_type value address command bits].
      change (u16 (211 + 1)) with 212.
      assert (Htail : drop 211 buf = [to_raw kSharpAcBitMark; to_raw kSharpAcGap]).
      { rewrite Hbuf. change 211%nat with (3 + 208)%nat.
        rewrite <- drop_drop. cbn [drop].
        apply drop_app_length'. rewrite length_map, Hbody. reflexivity. }
      assert (H211 : buf !!! Z.to_nat 211 = to_raw kSharpAcBitMark).
      { change (Z.to_nat 211) with (211 + 0)%nat.
        rewrite <- lookup_total_drop, Htail. reflexivity. }
      assert (H212 : buf !!! Z.to_nat 212 = to_raw kSharpAcGap).
      { change (Z.to_nat 212) with (211 + 1)%nat.
        rewrite <- lookup_total_drop, Htail. reflexivity. }
      rewrite H211, H212, Hfm, Hgap. cbn [negb].
      rewrite andb_false_r. cbv iota.
      rewrite Z.eqb_refl. cbn [negb]. rewrite andb_false_r. cbv iota.
      change (Z.to_nat 0) with 0%nat.
      rewrite copy_bytes_whole by assumption.
      rewrite (validChecksum_agree (cs ++ drop 13 (state results)) cs)
        by (intros j Hj; apply lookup_total_app_l; lia).
      destruct (strict && negb (validChecksum cs kSharpAcStateLength)); reflexivity.
    - change (Z.to_nat 3) with 3%nat. change (Z.to_nat 0) with 0%nat.
      rewrite Hbuf. reflexivity.
  }
  rewrite Hrun. cbn [fst snd decode_type bits state rawbuf rawlen].
  repeat split; reflexivity.
Qed.

(** X16: a 13-byte state sent once by [IRSharpAc::send] and captured at
    the nominal timings is accepted by a strict [decodeSharpAc]: the
    result is of type SHARP_AC with [kSharpAcBits] bits, its first 13
    state bytes are the state with its checksum stored, which is also the
    array the object holds after [send], the cells of [state] after them
    are as they were, and the buffer is the capture.  Nothing is said of
    [value], [address] and [command], which share their storage with the
    bytes of [state] that the decode writes. *)
Theorem sharpAc_round_trip (remote : list Z) (results : decode_results) :
  length remote = 13%nat -> Forall is_byte remote ->
  (13 <= length (state results))%nat ->
  let out :=
    decodeSharpAc (capture (fst (send 0 remote)) results) kSharpAcBits true in
  snd (send 0 remote) = checksum remote
  /\ fst out = true
  /\ decode_type (snd out) = SHARP_AC
  /\ bits (snd out) = kSharpAcBits
  /\ state (snd out) = checksum remote ++ drop 13 (state results)
  /\ rawbuf (snd out) = 0 :: map to_raw (fst (send 0 remote))
  /\ rawlen (snd out) = 213.
Proof using Hlink.
  intros Hlen Hbytes Hst out. split; [reflexivity|].
  assert (Hcs : length (checksum remote) = 13%nat)
    by (rewrite checksum_length; exact Hlen).
  assert (Hcb : Forall is_byte (checksum remote))
    by (apply checksum_bytes; assumption).
  destruct (decodeSharpAc_sent (checksum remote) results true Hcs Hcb Hst)
    as [Hf [Ht [Hb [Hs [Hbuf Hl]]]]].
  rewrite checksum_valid in Hf, Ht, Hb by exact Hlen.
  subst out. unfold send. cbn zeta. cbn [fst].
  split; [exact Hf|]. split; [exact Ht|]. split; [exact Hb|].
  split; [exact Hs|]. split; [exact Hbuf|exact Hl].
Qed.

(** X17: any 13 bytes sent once by [sendSharpAc] and captured at the
    nominal timings are stored by [decodeSharpAc] in the first 13 cells of
    [state], in either mode; the decode succeeds exactly when it is not
    strict or the bytes satisfy [validChecksum]; a success gives type
    SHARP_AC and [kSharpAcBits] bits, a failure leaves the type and the
    bit count as they were. *)
Theorem sendSharpAc_decoded_unless_bad_checksum (cs : list Z)
  (results : decode_results) (strict : bool) :
  length cs = 13%nat -> Forall is_byte cs ->
  (13 <= length (state results))%nat ->
  let out :=
    decodeSharpAc (capture (sendSharpAc cs kSharpAcStateLength 0) results)
      kSharpAcBits strict in
  (fst out = true <->
   (strict = true -> validChecksum cs kSharpAcStateLength = true))
  /\ state (snd out) = cs ++ drop 13 (state results)
  /\ (fst out = true ->
      decode_type (snd out) = SHARP_AC /\ bits (snd out) = kSharpAcBits)
  /\ (fst out = false ->
      decode_type (snd out) = decode_type results
      /\ bits (snd out) = bits results).
Proof using Hlink.
  intros Hcs Hcb Hst out.
  destruct (decodeSharpAc_sent cs results strict Hcs Hcb Hst)
    as [Hf [Ht [Hb [Hs _]]]].
  fold out in Hf, Ht, Hb, Hs. rewrite Hf, Ht, Hb, Hs.
  destruct strict, (validChecksum cs kSharpAcStateLength); simpl;
    (split; [split; [auto; discriminate|auto]|]);
    (split; [reflexivity|]); split; intros Hx; try discriminate; auto.
Qed.
End AcRoundTrip.

(** ** The timing layer and the header of the examples *)

Lemma data_loop_prefix (rest : list Z) (onemark onespace zeromark zerospace tol : Z) :
  forall (n : nat) (buf : list Z) (acc used : Z),
    (2 * n <= length buf)%nat ->
    Timing.data_loop n (buf ++ rest) onemark onespace zeromark zerospace tol acc used
    = Timing.data_loop n buf onemark onespace zeromark zerospace tol acc used.
Proof.
  induction n as [|n IH]; intros buf acc used Hlen; [reflexivity|].
  destruct buf as [|m [|s buf]]; simpl in Hlen; try lia.
  cbn [Timing.data_loop app].
  destruct (_ && _); [apply IH; lia|].
  destruct (_ && _); [apply IH; lia|reflexivity].
Qed.

Lemma match_data_prefix (buf rest : list Z)
  (nbits onemark onespace zeromark zerospace tol exc : Z) (msb : bool) :
  (2 * Z.to_nat nbits <= length buf)%nat ->
  Timing.match_data (buf ++ rest) nbits onemark onespace zeromark zerospace tol exc msb
  = Timing.match_data buf nbits onemark onespace zeromark zerospace tol exc msb.
Proof.
  intros Hlen. unfold Timing.match_data.
  rewrite data_loop_prefix by exact Hlen. reflexivity.
Qed.

Lemma ac_byte_all : forallb ac_byte_ok (seq 0 256) = true.
Proof. vm_compute. reflexivity. Qed.

Lemma timing_layer_ac_link : SharpAcLink Timing.layer Header.ir_Sharp_h.
Proof.
  constructor; try reflexivity.
  intros b rest Hb.
  pose proof (forallb_range ac_byte_ok 256 ac_byte_all b ltac:(lia)) as Hok.
  unfold ac_byte_ok in Hok. rewrite Z2Nat.id in Hok by lia. cbn zeta in Hok.
  apply andb_prop in Hok. destruct Hok as [Hok Hused].
  apply andb_prop in Hok. destruct Hok as [Hsucc Hdata].
  apply Z.eqb_eq in Hused, Hdata.
  change (matchData (IRrecvLayer := Timing.layer)) with Timing.match_data.
  rewrite match_data_prefix
    by (rewrite length_map, sendByte_length; simpl; lia).
  change (kTolerance (IRrecvLayer := Timing.layer)) with Timing.tolerance.
  change (kMarkExcess (IRrecvLayer := Timing.layer)) with Timing.excess.
  destruct (Timing.match_data _ _ _ _ _ _ _ _ _) as [s d u].
  simpl in Hsucc, Hdata, Hused. subst s d u. reflexivity.
Qed.

Lemma sharpAc_round_trip_witness :
  fst (decodeSharpAc (L := Timing.layer) (H := Header.ir_Sharp_h)
         (capture (L := Timing.layer)
            (fst (send (H := Header.ir_Sharp_h) 0 reset)) blank)
         (kSharpAcBits (SharpAcHeader := Header.ir_Sharp_h)) true) = true.
Proof.
  pose proof (sharpAc_round_trip (L := Timing.layer) (H := Header.ir_Sharp_h)
                timing_layer_ac_link reset blank eq_refl
                ltac:(apply is_byte_dec_all; vm_compute; reflexivity)
                ltac:(simpl; lia)) as [_ [Hdec _]].
  exact Hdec.
Defined.

Lemma sendSharpAc_decoded_unless_bad_checksum_witness :
  fst (decodeSharpAc (L := Timing.layer) (H := Header.ir_Sharp_h)
         (capture (L := Timing.layer)
            (sendSharpAc (H := Header.ir_Sharp_h) reset kSharpAcStateLength 0) blank)
         (kSharpAcBits (SharpAcHeader := Header.ir_Sharp_h)) true) = false
  /\ state
       (snd (decodeSharpAc (L := Timing.layer) (H := Header.ir_Sharp_h)
               (capture (L := Timing.layer)
                  (sendSharpAc (H := Header.ir_Sharp_h) reset kSharpAcStateLength 0)
                  blank)
               (kSharpAcBits (SharpAcHeader := Header.ir_Sharp_h)) true))
     = reset.
Proof.
  pose proof (sendSharpAc_decoded_unless_bad_checksum (L := Timing.layer)
                (H := Header.ir_Sharp_h) timing_layer_ac_link reset blank true
                eq_refl ltac:(apply is_byte_dec_all; vm_compute; reflexivity)
                ltac:(simpl; lia)) as [Hiff [Hstate _]].
  cbn zeta in Hiff, Hstate. split.
  - destruct (fst _) eqn:Hf; [|reflexivity].
    pose proof (proj1 Hiff eq_refl eq_refl) as Hbad. vm_compute in Hbad.
    discriminate.
  - rewrite Hstate. reflexivity.
Defined.

Lemma decodeSharpAc_success_witness :
  validChecksum
    (state (snd (decodeSharpAc (L := Timing.layer) (H := Header.ir_Sharp_h)
                   (capture (L := Timing.layer)
                      (fst (send (H := Header.ir_Sharp_h) 0 reset)) blank)
                   104 true)))
    kSharpAcStateLength = true.
Proof.
  pose proof (decodeSharpAc_success (L := Timing.layer) (H := Header.ir_Sharp_h)
                (capture (L := Timing.layer)
                   (fst (send (H := Header.ir_Sharp_h) 0 reset)) blank)
                (snd (decodeSharpAc (L := Timing.layer) (H := Header.ir_Sharp_h)
                        (capture (L := Timing.layer)
                           (fst (send (H := Header.ir_Sharp_h) 0 reset)) blank)
                        104 true))
                104 true ltac:(lia) ltac:(vm_compute; reflexivity))
    as [_ [_ [_ [_ [_ [_ Hstrict]]]]]].
  destruct (Hstrict eq_refl) as [_ [_ Hvalid]]. exact Hvalid.
Defined.

Lemma setPower_sets_only_power_witness :
  getPower (H := Header.ir_Sharp_h) (setPower (H := Header.ir_Sharp_h) true reset)
  = true.
Proof.
  exact (proj1 (setPower_sets_only_power (H := Header.ir_Sharp_h)
                  ir_Sharp_h_fields_ok true reset eq_refl)).
Defined.

Lemma setMode_stores_mode_witness :
  getMode (H := Header.ir_Sharp_h)
    (setMode (H := Header.ir_Sharp_h) (kSharpAcHeat (SharpAcHeader := Header.ir_Sharp_h))
       reset)
  = kSharpAcHeat (SharpAcHeader := Header.ir_Sharp_h).
Proof.
  exact (proj1 (setMode_stores_mode (H := Header.ir_Sharp_h) ir_Sharp_h_fields_ok
                  (kSharpAcHeat (SharpAcHeader := Header.ir_Sharp_h)) reset eq_refl
                  ltac:(right; right; left; reflexivity))).
Defined.

Lemma setMode_then_setTemp_witness :
  getTemp (H := Header.ir_Sharp_h)
    (setTemp (H := Header.ir_Sharp_h) 22
       (setMode (H := Header.ir_Sharp_h)
          (kSharpAcCool (SharpAcHeader := Header.ir_Sharp_h)) reset))
  = 22.
Proof.
  exact (proj1 (setMode_then_setTemp (H := Header.ir_Sharp_h) ir_Sharp_h_fields_ok
                  (kSharpAcCool (SharpAcHeader := Header.ir_Sharp_h)) 22 reset
                  eq_refl ltac:(lia)
                  ltac:(left; reflexivity)
                  ltac:(vm_compute; discriminate)
                  ltac:(vm_compute; discriminate))).
Defined.

Lemma setFan_stores_speed_witness :
  getFan (H := Header.ir_Sharp_h)
    (setFan (H := Header.ir_Sharp_h)
       (kSharpAcFanMax (SharpAcHeader := Header.ir_Sharp_h)) reset)
  = kSharpAcFanMax (SharpAcHeader := Header.ir_Sharp_h).
Proof.
  exact (proj1 (setFan_stores_speed (H := Header.ir_Sharp_h) ir_Sharp_h_fields_ok
                  (kSharpAcFanMax (SharpAcHeader := Header.ir_Sharp_h)) reset eq_refl
                  ltac:(right; right; right; right; reflexivity))).
Defined.

(** ** [convertMode] and [convertFan] *)

Section Convert.
Context {H : SharpAcHeader}.
Hypothesis HOK : FieldsOK H.

Lemma convertMode_recognised (mode : stdAc.opmode_t) :
  convertMode mode = kSharpAcAuto \/ convertMode mode = kSharpAcCool
  \/ convertMode mode = kSharpAcHeat \/ convertMode mode = kSharpAcDry.
Proof. destruct mode; simpl; auto. Qed.

Lemma convertFan_recognised (speed : stdAc.fanspeed_t) :
  convertFan speed = kSharpAcFanAuto \/ convertFan speed = kSharpAcFanMin
  \/ convertFan speed = kSharpAcFanMed \/ convertFan speed = kSharpAcFanHigh
  \/ convertFan speed = kSharpAcFanMax.
Proof. destruct speed; simpl; auto 6. Qed.

(** X18: [convertMode] and [convertFan] only give values that [setMode]
    and [setFan] recognise: the [switch] of the setter never takes its
    [default] case on them, and on a 13-byte state the converted mode and
    the converted speed are read back by [getMode] and [getFan], also
    when both are set one after the other. *)
Theorem converted_values_are_stored (mode : stdAc.opmode_t)
  (speed : stdAc.fanspeed_t) (remote : list Z) :
  length remote = 13%nat ->
  mode_switch (convertMode mode) <> CaseModeDefault
  /\ fan_switch (convertFan speed) <> CaseFanDefault
  /\ getMode (setMode (convertMode mode) remote) = convertMode mode
  /\ getFan (setFan (convertFan speed) remote) = convertFan speed
  /\ getMode (setFan (convertFan speed) (setMode (convertMode mode) remote))
     = convertMode mode
  /\ getFan (setFan (convertFan speed) (setMode (convertMode mode) remote))
     = convertFan speed.
Proof using HOK.
  intros Hlen.
  pose proof HOK as [_ Hp _ _ _ _ _ _ _ _ _ _ _ _ _ Hma Hmd Hmc Hmh _
                       Hfa Hfmin Hfmed Hfh Hfmax _ _].
  pose proof (convertMode_recognised mode) as Hm.
  pose proof (convertFan_recognised speed) as Hs.
  assert (Hmrange : 0 <= convertMode mode <= 3)
    by (destruct Hm as [-> | [-> | [-> | ->]]]; assumption).
  assert (Hsrange : 0 <= convertFan speed <= 7)
    by (destruct Hs as [-> | [-> | [-> | [-> | ->]]]]; assumption).
  assert (Hin : (kSharpAcBytePower < length remote)%nat) by lia.
  destruct (setMode_recognised HOK (convertMode mode) remote Hin Hm)
    as [before [Heq [Hblen _]]].
  assert (Hmlen : length (setMode (convertMode mode) remote) = 13%nat)
    by (rewrite Heq, store_mode_length, Hblen; exact Hlen).
  assert (Hflen : forall r : list Z, length r = 13%nat ->
            length (if convertFan speed =? kSharpAcFanAuto
                    then byte_and kSharpAcByteManual (Z.lnot kSharpAcBitFanManual)
                           (byte_or kSharpAcByteManual kSharpAcBitFanManual r)
                    else byte_or kSharpAcByteManual kSharpAcBitFanManual r)
            = 13%nat).
  { intros r Hr. destruct (_ =? _); autorewrite with remote_len; exact Hr. }
  assert (Hgm : getMode (setMode (convertMode mode) remote) = convertMode mode).
  { rewrite Heq. apply (store_mode_getMode HOK); [lia|exact Hmrange]. }
  split.
  { unfold mode_switch.
    destruct Hm as [-> | [-> | [-> | ->]]]; rewrite ?Z.eqb_refl;
      repeat match goal with
             | |- context [?a =? ?b] => destruct (a =? b)
             end; simpl; discriminate. }
  split.
  { unfold fan_switch.
    destruct Hs as [-> | [-> | [-> | [-> | ->]]]]; rewrite ?Z.eqb_refl;
      repeat match goal with
             | |- context [?a =? ?b] => destruct (a =? b)
             end; simpl; discriminate. }
  split; [exact Hgm|].
  split.
  { rewrite (setFan_recognised _ _ Hs).
    apply (store_fan_getFan HOK); [apply Hflen; exact Hlen|exact Hsrange]. }
  split.
  { rewrite (setFan_recognised _ _ Hs).
    rewrite (store_fan_getMode HOK) by (try apply Hflen; assumption).
    transitivity (getMode (setMode (convertMode mode) remote)); [|exact Hgm].
    unfold getMode. f_equal. f_equal.
    pose proof HOK as [_ _ _ _ _ _ _ _ _ Hmman _ _ _ _ _ _ _ _ _ _ _ _ _ _ _ _ _].
    destruct (convertFan speed =? kSharpAcFanAuto).
    - rewrite byte_and_other, byte_or_other by congruence. reflexivity.
    - rewrite byte_or_other by congruence. reflexivity. }
  rewrite (setFan_recognised _ _ Hs).
  apply (store_fan_getFan HOK); [apply Hflen; exact Hmlen|exact Hsrange].
Qed.
End Convert.

Lemma converted_values_are_stored_witness :
  getMode (H := Header.ir_Sharp_h)
    (setMode (H := Header.ir_Sharp_h)
       (convertMode (H := Header.ir_Sharp_h) stdAc.kHeat) reset)
  = kSharpAcHeat (SharpAcHeader := Header.ir_Sharp_h)
  /\ getFan (H := Header.ir_Sharp_h)
       (setFan (H := Header.ir_Sharp_h)
          (convertFan (H := Header.ir_Sharp_h) stdAc.kLow) reset)
     = kSharpAcFanMin (SharpAcHeader := Header.ir_Sharp_h).
Proof.
  pose proof (converted_values_are_stored (H := Header.ir_Sharp_h)
                ir_Sharp_h_fields_ok stdAc.kHeat stdAc.kLow reset eq_refl)
    as [_ [_ [Hmode [Hfan _]]]].
  split; [exact Hmode|exact Hfan].
Defined.

(** ** The fields across [getRaw], and across a transmission *)

(** X20: [getRaw] stores the checksum in the last byte only, so every
    field kept in another byte reads the same before and after it. *)
Theorem getRaw_keeps_fields {H : SharpAcHeader} (remote : list Z) :
  (kSharpAcBytePower <> 12%nat -> getPower (getRaw remote) = getPower remote)
  /\ (kSharpAcByteMode <> 12%nat -> getMode (getRaw remote) = getMode remote)
  /\ (kSharpAcByteTemp <> 12%nat -> getTemp (getRaw remote) = getTemp remote)
  /\ (kSharpAcByteFan <> 12%nat -> getFan (getRaw remote) = getFan remote).
Proof.
  unfold getRaw, getPower, getMode, getTemp, getFan.
  repeat split; intros Hne; rewrite checksum_other_bytes by exact Hne;
    reflexivity.
Qed.

Lemma setRaw_takes_first (new_code remote : list Z) :
  length remote = 13%nat -> (13 <= length new_code)%nat ->
  Forall is_byte (take 13 new_code) ->
  setRaw new_code kSharpAcStateLength remote = take 13 new_code.
Proof.
  intros Hlen Hcode Hbytes. unfold setRaw, setRaw_trace.
  rewrite setRaw_loop_spec by (unfold kSharpAcStateLength; lia).
  cbn zeta. cbn [fst].
  change (Z.to_nat (Z.min kSharpAcStateLength kSharpAcStateLength - 0)) with 13%nat.
  change (Z.to_nat 0) with 0%nat.
  apply list_eq_same_length with 13%nat;
    [rewrite length_take; lia|rewrite copy_bytes_length; exact Hlen|].
  intros i x y Hi Hx Hy.
  apply list_lookup_total_correct in Hx, Hy. subst x y.
  rewrite copy_bytes_inside by lia.
  rewrite <- (lookup_total_take_lt new_code 13 i) by lia.
  apply u8_small. apply (Forall_lookup_total_1 is_byte _ i Hbytes).
  rewrite length_take. lia.
Qed.

Section Received.
Context {L : IRrecvLayer} {H : SharpAcHeader}.
Hypothesis Hlink : SharpAcLink L H.

(** X21: a state sent by [IRSharpAc::send], decoded by a strict
    [decodeSharpAc] and loaded with [setRaw] into another object gives
    that object the array of the sender's [getRaw]; when no field is kept
    in the last byte, the receiver reads the sender's power, mode,
    temperature and fan speed. *)
Theorem received_state_reads_same (sender receiver : list Z)
  (results : decode_results) :
  length sender = 13%nat -> Forall is_byte sender ->
  length receiver = 13%nat -> (13 <= length (state results))%nat ->
  kSharpAcBytePower <> 12%nat -> kSharpAcByteMode <> 12%nat ->
  kSharpAcByteTemp <> 12%nat -> kSharpAcByteFan <> 12%nat ->
  let out :=
    decodeSharpAc (capture (fst (send 0 sender)) results) kSharpAcBits true in
  let loaded := setRaw (state (snd out)) kSharpAcStateLength receiver in
  fst out = true
  /\ loaded = getRaw sender
  /\ getRaw loaded = getRaw sender
  /\ getPower loaded = getPower sender
  /\ getMode loaded = getMode sender
  /\ getTemp loaded = getTemp sender
  /\ getFan loaded = getFan sender.
Proof using Hlink.
  intros Hs Hbytes Hr Hst Hp Hm Ht Hf out loaded.
  assert (Hcs : length (checksum sender) = 13%nat)
    by (rewrite checksum_length; exact Hs).
  assert (Hcb : Forall is_byte (checksum sender))
    by (apply checksum_bytes; assumption).
  destruct (decodeSharpAc_sent Hlink (checksum sender) results true Hcs Hcb Hst)
    as [Hfst [_ [_ [Hstate _]]]].
  rewrite checksum_valid in Hfst by exact Hs.
  assert (Hloaded : loaded = checksum sender).
  { subst loaded out. unfold send. cbn zeta. cbn [fst]. rewrite Hstate.
    assert (Htake : take 13 (checksum sender ++ drop 13 (state results))
                    = checksum sender)
      by (apply take_app_length'; symmetry; exact Hcs).
    rewrite setRaw_takes_first.
    - exact Htake.
    - exact Hr.
    - rewrite length_app, Hcs. lia.
    - rewrite Htake. exact Hcb. }
  split; [exact Hfst|].
  split; [exact Hloaded|].
  rewrite Hloaded. unfold getRaw, getPower, getMode, getTemp, getFan.
  split.
  { apply checksum_fixes_valid;
      [exact Hcs|rewrite checksum_last_byte by exact Hs; apply u8_range
      |apply checksum_valid; exact Hs]. }
  rewrite !checksum_other_bytes by assumption.
  repeat split; reflexivity.
Qed.
End Received.

Lemma received_state_reads_same_witness :
  getMode (H := Header.ir_Sharp_h)
    (setRaw
       (state
          (snd (decodeSharpAc (L := Timing.layer) (H := Header.ir_Sharp_h)
                  (capture (L := Timing.layer)
                     (fst (send (H := Header.ir_Sharp_h) 0 reset)) blank)
                  (kSharpAcBits (SharpAcHeader := Header.ir_Sharp_h)) true)))
       kSharpAcStateLength (replicate 13 0))
  = getMode (H := Header.ir_Sharp_h) reset.
Proof.
  pose proof (received_state_reads_same (L := Timing.layer) (H := Header.ir_Sharp_h)
                timing_layer_ac_link reset (replicate 13 0) blank eq_refl
                ltac:(apply is_byte_dec_all; vm_compute; reflexivity)
                eq_refl ltac:(simpl; lia)
                ltac:(simpl; lia) ltac:(simpl; lia) ltac:(simpl; lia)
                ltac:(simpl; lia)) as [_ [_ [_ [_ [Hmode _]]]]].
  exact Hmode.
Defined.
